(** * iamgo: call-path search, SDK-call classification and the IAM mapping

    A shallow embedding of the analysis code of iamgo and the properties of
    its path finder, its classifier, its permission table and its exit
    behaviour.  The code is in src/graph.go (graph.go), src/unnamed/part_000
    (main.go) and at the end of src/README.md (iam.go).

    Conventions of the embedding.
    - A [*ssa.Function] is an address, [Fn].  A [callgraph.Graph] keeps one
      [*callgraph.Node] per function (its [Nodes] map), so a node is
      identified with the function it wraps: [n.Func] is [n] itself.
    - Go maps that the code ranges over ([graph.reachable],
      [iamMap.SDKMethodIAMMappings]) are given as association lists in the
      order in which the range statement visits them.
    - Code that can crash or loop returns an [outcome]; loops run on fuel
      computed from their input, and the properties show that it suffices.
    - Results of libraries ([packages], [ssautil], [rta], [json]) are inputs;
      [DeleteSyntheticNodes], [strings.ToLower] and [strings.EqualFold] are
      parameters, instantiated for the examples.  [flag.Parse] of the
      standard library is embedded for the five flags that main declares. *)

From stdpp Require Import base option list gmap sets strings pretty.
From Stdlib Require Import Ascii Permutation Lia.

(** ** Outcomes of Go code *)

Inductive outcome (A : Type) : Type :=
  | Return (a : A)   (* normal return *)
  | Panic            (* run-time panic (nil dereference, index out of range) *)
  | Diverge.         (* the loop never ends (the model ran out of fuel) *)
Arguments Return {A} a.
Arguments Panic {A}.
Arguments Diverge {A}.

Definition obind {A B} (m : outcome A) (k : A → outcome B) : outcome B :=
  match m with
  | Return a => k a
  | Panic => Panic
  | Diverge => Diverge
  end.

Notation "x ←! m ; k" := (obind m (fun x => k))
  (at level 100, m at next level, right associativity).

(** ** The call graph (golang.org/x/tools/go/callgraph as graph.go uses it) *)

Abbreviation Fn := nat.

(** Position of a call instruction, as [Fset.Position(edge.Site.Pos())]. *)
Record Position := mkPosition {
  Filename : string;
  Line : nat;
  Column : nat
}.

Global Instance Position_eq_dec : EqDecision Position.
Proof. solve_decision. Defined.

(** [callgraph.Edge]: caller node, call site ([None] for the nil site of a
    synthetic or reflective call) and callee node.  [Description] is what
    [edge.Description()] returns for the site. *)
Record Edge := mkEdge {
  Caller : Fn;
  Site : option Position;
  Description : string;
  Callee : Fn
}.

Global Instance Edge_eq_dec : EqDecision Edge.
Proof. solve_decision. Defined.

(** [callgraph.Graph.Nodes]: the functions that have a node, each with the
    [Out] slice of its node.  (A callee always has a node in a
    [callgraph.Graph]; a callee outside the map reads as a node without
    out-edges.) *)
Abbreviation Callgraph := (gmap Fn (list Edge)).

Definition Out (g : Callgraph) (n : Fn) : list Edge := default [] (g !! n).

(** Every edge is stored in the [Out] slice of its own caller
    (the invariant that [callgraph.AddEdge] maintains). *)
Definition wf_callgraph (g : Callgraph) : Prop :=
  map_Forall (λ n out, Forall (λ e, Caller e = n) out) g.

Global Instance wf_callgraph_dec g : Decision (wf_callgraph g) := _.

Definition allEdges (g : Callgraph) : list Edge :=
  concat (snd <$> map_to_list g).

(** ** graph.go: bfs and findPath *)

Abbreviation Visited := (gmap Fn (option Edge)).

(** The inner loop of [bfs] that walks back from the target:
    [edge := visited[current]]; a nil edge (also the zero value of a missing
    key) ends the walk with the reversed path.  A walk longer than the number
    of visited nodes is in a cycle and never ends. *)
Fixpoint walkBack (fuel : nat) (visited : Visited) (current : Fn)
    (path : list Edge) : outcome (list Edge) :=
  match fuel with
  | 0 => Diverge
  | S fuel' =>
      match visited !! current with
      | Some (Some edge) => walkBack fuel' visited (Caller edge) (path ++ [edge])
      | _ => Return (reverse path)
      end
  end.

(** One pass of [for _, edge := range current.Out]. *)
Definition visitEdge (st : Visited * list Fn) (edge : Edge) : Visited * list Fn :=
  match st.1 !! Callee edge with
  | Some _ => st
  | None => (<[Callee edge := Some edge]> st.1, st.2 ++ [Callee edge])
  end.

(** The [for len(queue) > 0] loop. *)
Fixpoint bfsLoop (fuel : nat) (g : Callgraph) (target : Fn)
    (visited : Visited) (queue : list Fn) : outcome (option (list Edge)) :=
  match fuel with
  | 0 => Diverge
  | S fuel' =>
      match queue with
      | [] => Return None
      | current :: queue' =>
          if decide (current = target) then
            path ←! walkBack (S (size visited)) visited current [];
            Return (Some path)
          else
            let st := foldl visitEdge (visited, queue') (Out g current) in
            bfsLoop fuel' g target st.1 st.2
      end
  end.

(** Every node the search can ever enqueue: each is enqueued once, so the
    loop runs at most [size (universe g start)] times. *)
Definition universe (g : Callgraph) (start : Fn) : gset Fn :=
  {[start]} ∪ list_to_set (Callee <$> allEdges g).

(** [bfs]: [g.callgraph.Nodes[start]] is nil when [start] has no node, and
    the first [current.Func] then dereferences nil.  [None] is the nil
    slice, [Some []] the empty non-nil slice [[]*callgraph.Edge{}]. *)
Definition bfs (g : Callgraph) (start target : Fn) : outcome (option (list Edge)) :=
  match g !! start with
  | None => Panic
  | Some _ =>
      bfsLoop (S (size (universe g start))) g target {[start := None]} [start]
  end.

(** [findPath]: the first root whose search returns a non-nil path. *)
Fixpoint findPath (g : Callgraph) (roots : list Fn) (target : Fn)
    : outcome (option (list Edge)) :=
  match roots with
  | [] => Return None
  | root :: roots' =>
      path ←! bfs g root target;
      match path with
      | Some p => Return (Some p)
      | None => findPath g roots' target
      end
  end.

(** ** Paths *)

(** A chain of call edges from [a] to [c]. *)
Fixpoint is_path (g : Callgraph) (a c : Fn) (p : list Edge) : Prop :=
  match p with
  | [] => a = c
  | e :: p' => Caller e = a ∧ e ∈ Out g a ∧ is_path g (Callee e) c p'
  end.

Definition reaches (g : Callgraph) (a c : Fn) : Prop := ∃ p, is_path g a c p.

Definition is_node (g : Callgraph) (n : Fn) : Prop := is_Some (g !! n).

Global Instance is_node_dec g n : Decision (is_node g n) := _.

(** ** Small graphs used in the examples *)

Definition call (a b : Fn) : Edge :=
  mkEdge a (Some (mkPosition "main.go" 10 2)) "static function call" b.

(** root(0) -> a(1) -> b(2) -> target(3), and root -> target directly. *)
Definition diamond : Callgraph :=
  {[ 0 := [call 0 1; call 0 3]; 1 := [call 1 2]; 2 := [call 2 3]; 3 := [] ]}.

(** Two roots: 0 -> 1 -> 3 and 2 -> 3. *)
Definition two_roots : Callgraph :=
  {[ 0 := [call 0 1]; 1 := [call 1 3]; 2 := [call 2 3]; 3 := [] ]}.


(** ** Go strings (package strings), on byte strings *)

Definition bytes (s : string) : list ascii := String.list_ascii_of_string s.

Definition HasPrefix (s prefix : string) : bool :=
  bool_decide (bytes prefix `prefix_of` bytes s).

Definition HasSuffix (s suffix : string) : bool :=
  bool_decide (bytes suffix `suffix_of` bytes s).

Definition TrimSuffix (s suffix : string) : string :=
  if HasSuffix s suffix
  then String.string_of_list_ascii
         (take (length (bytes s) - length (bytes suffix)) (bytes s))
  else s.

(** [strings.Split(s, sep)] for a one-byte separator: always at least one
    piece. *)
Fixpoint Split (s : string) (sep : ascii) : list string :=
  match s with
  | EmptyString => [EmptyString]
  | String c s' =>
      if decide (c = sep) then EmptyString :: Split s' sep
      else match Split s' sep with
           | piece :: pieces => String c piece :: pieces
           | [] => [String c EmptyString]
           end
  end.

(** Indexing a slice: out of range panics. *)
Definition index {A} (l : list A) (i : nat) : outcome A :=
  match l !! i with
  | Some a => Return a
  | None => Panic
  end.

Definition is_letter (c : ascii) : bool :=
  let n := nat_of_ascii c in
  (Nat.leb 65 n && Nat.leb n 90) || (Nat.leb 97 n && Nat.leb n 122).

(** ASCII case folding: what [strings.ToLower] and [strings.EqualFold] do on
    ASCII strings.  Used to run the code on concrete inputs. *)
Definition lower (c : ascii) : ascii :=
  let n := nat_of_ascii c in
  if Nat.leb 65 n && Nat.leb n 90 then ascii_of_nat (n + 32) else c.

Fixpoint ToLowerASCII (s : string) : string :=
  match s with
  | EmptyString => EmptyString
  | String c s' => String (lower c) (ToLowerASCII s')
  end.

Definition EqualFoldASCII (s t : string) : bool :=
  bool_decide (ToLowerASCII s = ToLowerASCII t).

(** The regular expression [^[A-Za-z]+\:[A-Za-z]+$] of main: one colon, with
    one or more letters on each side. *)
Definition letters (s : string) : bool :=
  negb (bool_decide (s = "")) && forallb is_letter (bytes s).

Definition whyFormat (s : string) : bool :=
  match Split s ":"%char with
  | [service; method] => letters service && letters method
  | _ => false
  end.

(** ** The SSA program (golang.org/x/tools/go/ssa), as the code queries it *)

Record Program := mkProgram {
  Synthetic : Fn → string;      (* fn.Synthetic *)
  Object : Fn → bool;           (* fn.Object() != nil *)
  FullName : Fn → string;       (* fn.String() *)
  Name : Fn → string;           (* fn.Name() *)
  Origin : Fn → option Fn;      (* fn.Origin(), None for nil *)
  Parent : Fn → option Fn;      (* fn.Parent(), None for nil *)
  PkgPath : Fn → string;        (* fn.Pkg.Pkg.Path() *)
  PkgName : Fn → string;        (* fn.Pkg.Pkg.Name() *)
  Pos : Fn → Position           (* fn.Prog.Fset.Position(fn.Pos()) *)
}.

(** The [graph] struct of graph.go.  [reachable] lists the keys and values of
    the Go map in the order a range statement visits them. *)
Record graph := mkGraph {
  program : Program;
  roots : list Fn;
  callgraph : Callgraph;
  reachable : list (Fn * bool)
}.

Definition setCallgraph (g : graph) (cg : Callgraph) : graph :=
  mkGraph (program g) (roots g) cg (reachable g).

(** ** main.go: the classifier *)

Definition isAWSSDKv2Call (prog : Program) (fn : Fn) : bool :=
  let filename := Filename (Pos prog fn) in
  let pkgpath := PkgPath prog fn in
  let isRelevantFile :=
    HasSuffix filename ("/api_op_" +:+ Name prog fn +:+ ".go") in
  HasPrefix pkgpath "github.com/aws/aws-sdk-go-v2/service/" && isRelevantFile.

Definition isAWSSDKv1Call (prog : Program) (fn : Fn) : bool :=
  let filename := Filename (Pos prog fn) in
  let pkgpath := PkgPath prog fn in
  let isRelevantPackage := HasPrefix pkgpath "github.com/aws/aws-sdk-go/service/" in
  let isRelevantFile := HasSuffix filename "/api.go" in
  let isRelevantFunctionName :=
    HasSuffix (Name prog fn) "Request"
    && negb (HasSuffix (Name prog fn) "new")
    && negb (HasSuffix (Name prog fn) "Set") in
  isRelevantPackage && isRelevantFile && isRelevantFunctionName.

Definition sdkVersion (prog : Program) (fn : Fn) : string :=
  if isAWSSDKv2Call prog fn then "v2"
  else if isAWSSDKv1Call prog fn then "v1"
  else "".

(** Lines 123-133 of main: the [service.Method] name of a classified call. *)
Definition sdkMethodName (prog : Program) (fn : Fn) : string :=
  let fnName :=
    if decide (sdkVersion prog fn = "v1")
    then TrimSuffix (Name prog fn) "Request"
    else Name prog fn in
  PkgName prog fn +:+ "." +:+ fnName.

(** ** graph.go: printing a path *)

(** [cleanName]: the regular expression [[\(\)\*]+] replaced by nothing. *)
Definition cleanName (prog : Program) (fn : Fn) : string :=
  String.string_of_list_ascii
    (filter (λ c, c ≠ "("%char ∧ c ≠ ")"%char ∧ c ≠ "*"%char)
            (bytes (FullName prog fn))).

Record step := mkStep {
  fullName : string;
  name : string;
  callType : string;
  filename : string;
  line : nat;
  column : nat;
  callComingFromLine : nat;
  callComingFromColumn : nat;
  callComingFromFilename : string
}.

Definition createStep (g : graph) (edge : Edge) : step :=
  let out :=
    match Site edge with
    | None => mkPosition "" 0 0
    | Some pos => pos
    end in
  let filename := Filename (Pos (program g) (Callee edge)) in
  let filename := if decide (filename = "") then "?" else filename in
  {| filename := filename;
     line := Line (Pos (program g) (Callee edge));
     column := Column (Pos (program g) (Callee edge));
     callComingFromLine := Line out;
     callComingFromColumn := Column out;
     callComingFromFilename := Filename out;
     fullName := cleanName (program g) (Callee edge);
     name := Name (program g) (Callee edge);
     callType := Description edge |}.

(** The lines one hop of [printPath] writes to standard output. *)
Definition printStep (g : graph) (i : nat) (edge : Edge) : list string :=
  let s := createStep g edge in
  (if decide (i = 0) then ["    " +:+ cleanName (program g) (Caller edge)] else [])
  ++ [ "    At line " +:+ pretty (callComingFromLine s) +:+ " a " +:+ callType s
         +:+ " to " +:+ name s;
       "--> " +:+ fullName s;
       "    Defined at " +:+ filename s +:+ ":" +:+ pretty (line s) +:+ ":"
         +:+ pretty (column s) ].

Definition printPath (g : graph) (path : list Edge) : list string :=
  concat (imap (printStep g) path).

(** [findFunc]: the first reachable source function with that name. *)
Definition findFunc (g : graph) (fnName : string) : option Fn :=
  fst <$> List.find
    (λ r, bool_decide (Synthetic (program g) r.1 = "")
          && Object (program g) r.1
          && bool_decide (FullName (program g) r.1 = fnName))
    (reachable g).

(** ** iam.go: the permission table *)

Record iamMapMethod := mkMethod { Action : string }.

Global Instance iamMapMethod_eq_dec : EqDecision iamMapMethod.
Proof. solve_decision. Defined.

(** [iamMap.SDKMethodIAMMappings], a [map[string][]iamMapMethod], in range
    order. *)
Abbreviation iamMapBase := (list (string * list iamMapMethod)).

(** ** What the process sees of the outside world *)

Record Flags := mkFlags {
  testFlag : bool;
  tagsFlag : string;
  reflectionFlag : bool;
  sdkcallsFlag : bool;
  whyFlag : string
}.

(** ** Package flag of the Go standard library, for the flags of main *)

(** The errors of [flag.Parse].  [failf] prints the message and then the
    usage text. *)
Inductive flagError : Type :=
  | badSyntax (s : string)               (* bad flag syntax: s *)
  | notDefined (name : string)           (* flag provided but not defined: -name *)
  | invalidBoolean (value name : string) (* invalid boolean value for -name *)
  | needsArgument (name : string)        (* flag needs an argument: -name *)
  | ErrHelp.                             (* flag: help requested *)

Global Instance flagError_eq_dec : EqDecision flagError.
Proof. solve_decision. Defined.

(** [strconv.ParseBool]. *)
Definition ParseBool (str : string) : option bool :=
  if bool_decide (str ∈ ["1"; "t"; "T"; "true"; "TRUE"; "True"]) then Some true
  else if bool_decide (str ∈ ["0"; "f"; "F"; "false"; "FALSE"; "False"])
  then Some false
  else None.

(** A defined flag: a boolean flag needs no argument, a string flag does. *)
Inductive Flag : Type :=
  | boolVar (set : bool → Flags → Flags)
  | stringVar (set : string → Flags → Flags).

(** [f.formal], as the five definitions at the head of main fill it. *)
Definition formal (name : string) : option Flag :=
  if decide (name = "test") then
    Some (boolVar (λ b fl, mkFlags b (tagsFlag fl) (reflectionFlag fl)
                                   (sdkcallsFlag fl) (whyFlag fl)))
  else if decide (name = "tags") then
    Some (stringVar (λ v fl, mkFlags (testFlag fl) v (reflectionFlag fl)
                                     (sdkcallsFlag fl) (whyFlag fl)))
  else if decide (name = "reflection") then
    Some (boolVar (λ b fl, mkFlags (testFlag fl) (tagsFlag fl) b
                                   (sdkcallsFlag fl) (whyFlag fl)))
  else if decide (name = "sdk-calls") then
    Some (boolVar (λ b fl, mkFlags (testFlag fl) (tagsFlag fl) (reflectionFlag fl)
                                   b (whyFlag fl)))
  else if decide (name = "why") then
    Some (stringVar (λ v fl, mkFlags (testFlag fl) (tagsFlag fl) (reflectionFlag fl)
                                     (sdkcallsFlag fl) v))
  else None.

(** The loop of [parseOne] that cuts the name at its first equals sign (the
    first byte of the name is not looked at). *)
Fixpoint cutEquals (name : list ascii) : list ascii * option (list ascii) :=
  match name with
  | [] => ([], None)
  | c :: name' =>
      if decide (c = "="%char) then ([], Some name')
      else let r := cutEquals name' in (c :: r.1, r.2)
  end.

(** What [parseOne] returns: a flag was seen, the flags are over, or an
    error. *)
Inductive parsed : Type :=
  | flagSeen (fl : Flags) (args : list string)
  | flagsOver (args : list string)
  | flagFailed (err : flagError).

Definition parseOne (fl : Flags) (args : list string) : parsed :=
  match args with
  | [] => flagsOver []
  | s :: args' =>
      match bytes s with
      | "-"%char :: c :: rest =>
          if bool_decide (c = "-"%char ∧ rest = []) then flagsOver args'
          else
            match (if decide (c = "-"%char) then rest else c :: rest) with
            | [] => flagFailed (badSyntax s)
            | c0 :: name' =>
                if bool_decide (c0 = "-"%char ∨ c0 = "="%char)
                then flagFailed (badSyntax s)
                else
                  let cut := cutEquals name' in
                  let name := String.string_of_list_ascii (c0 :: cut.1) in
                  let value := String.string_of_list_ascii <$> cut.2 in
                  match formal name with
                  | None =>
                      if bool_decide (name = "help" ∨ name = "h")
                      then flagFailed ErrHelp
                      else flagFailed (notDefined name)
                  | Some (boolVar set) =>
                      match value with
                      | Some v =>
                          match ParseBool v with
                          | Some b => flagSeen (set b fl) args'
                          | None => flagFailed (invalidBoolean v name)
                          end
                      | None => flagSeen (set true fl) args'
                      end
                  | Some (stringVar set) =>
                      match value, args' with
                      | Some v, _ => flagSeen (set v fl) args'
                      | None, v :: args'' => flagSeen (set v fl) args''
                      | None, [] => flagFailed (needsArgument name)
                      end
                  end
            end
      | _ => flagsOver args
      end
  end.

(** The loop of [FlagSet.Parse]: every flag seen takes one or two arguments
    away. *)
Fixpoint parseLoop (fuel : nat) (fl : Flags) (args : list string)
    : outcome (flagError + Flags * list string) :=
  match fuel with
  | 0 => Diverge
  | S fuel' =>
      match parseOne fl args with
      | flagSeen fl' args' => parseLoop fuel' fl' args'
      | flagsOver args' => Return (inr (fl, args'))
      | flagFailed err => Return (inl err)
      end
  end.

(** [flag.Parse()], from [os.Args[1:]] and the default values of the flags:
    an error, or the values of the flags and [flag.Args()]. *)
Definition Parse (arguments : list string)
    : outcome (flagError + Flags * list string) :=
  parseLoop (S (length arguments)) (mkFlags false "" false false "") arguments.

(** What [packages.Load], [ssautil] and [rta.Analyze] hand to [analyze]. *)
Record Loaded := mkLoaded {
  loadErr : option string;       (* err of packages.Load, None for nil *)
  initial : nat;                 (* len(initial) *)
  printErrors : nat;             (* packages.PrintErrors(initial) *)
  prog : Program;
  mains : list (Fn * Fn);        (* main.Func("init"), main.Func("main") *)
  rtaCallGraph : Callgraph;      (* res.CallGraph *)
  rtaReachable : list (Fn * bool) (* res.Reachable *)
}.

Record World := mkWorld {
  args : list string;                    (* flag.Args() *)
  packages : bool → string → Loaded;     (* by includeTests and buildTags *)
  mapJSON : string + iamMapBase          (* json.Unmarshal of map.json *)
}.

(** The world in which [flag.Args()] is [rest]. *)
Definition withArgs (w : World) (rest : list string) : World :=
  mkWorld rest (packages w) (mapJSON w).

(** How the process ends. *)
Inductive Exit : Type :=
  | Exit0 (stdout : list string)   (* main returns: status 0, lines printed *)
  | Usage2                         (* usage(); os.Exit(2) *)
  | Fatal (msg : string)           (* log.Fatal: message (after the prefix
                                      "iamgo: ") on stderr, status 1 *)
  | Crash                          (* panic: status 2 *)
  | Hang                           (* no exit *)
  | BadFlag (err : flagError)      (* flag.Parse: the message of the error and
                                      the usage text on stderr, os.Exit(2) *)
  | Help.                          (* flag.Parse on -h or -help: the usage
                                      text on stderr, os.Exit(0) *)

Definition status (e : Exit) : option nat :=
  match e with
  | Exit0 _ => Some 0
  | Usage2 => Some 2
  | Fatal _ => Some 1
  | Crash => Some 2
  | Hang => None
  | BadFlag _ => Some 2
  | Help => Some 0
  end.

Definition stdout (e : Exit) : list string :=
  match e with
  | Exit0 out => out
  | _ => []
  end.

Definition newline : string := String "010"%char EmptyString.

(** [analyze] of graph.go. *)
Definition analyze (w : World) (includeTests : bool) (buildTags : string)
    : Exit + graph :=
  let l := packages w includeTests buildTags in
  match loadErr l with
  | Some err =>
      inl (Fatal ("failed to load package. Make sure it's bildable with 'go build'"
                  +:+ newline +:+ err))
  | None =>
      if decide (initial l = 0) then inl (Fatal "no packages")
      else if decide (0 < printErrors l) then
        inl (Fatal "packages contain errors. Make sure it's buildable with 'go build'")
      else if decide (length (mains l) = 0) then inl (Fatal "no main packages")
      else
        let roots := flat_map (λ main, [main.1; main.2]) (mains l) in
        inr (mkGraph (prog l) roots (rtaCallGraph l) (rtaReachable l))
  end.

Definition loadMap (w : World) : Exit + iamMapBase :=
  match mapJSON w with
  | inl err => inl (Fatal err)
  | inr m => inr m
  end.

Section Run.

(** Library functions the code calls: [callgraph.Graph.DeleteSyntheticNodes]
    (as a function of the graph), [strings.ToLower], [strings.EqualFold]. *)
Variable DeleteSyntheticNodes : Callgraph → Callgraph.
Variable ToLower : string → string.
Variable EqualFold : string → string → bool.

Fixpoint sdkMethodToAction (iamMap : iamMapBase) (apiMethod : string) : string :=
  match iamMap with
  | [] => ""
  | (iamMethodName, iamMethods) :: iamMap' =>
      if EqualFold iamMethodName apiMethod then
        match iamMethods with
        | priv :: _ => Action priv
        | [] => sdkMethodToAction iamMap' apiMethod
        end
      else sdkMethodToAction iamMap' apiMethod
  end.

Definition actionToSDKMethods (iamMap : iamMapBase) (action : string) : list string :=
  flat_map
    (λ entry,
       flat_map (λ priv, if EqualFold (Action priv) action then [entry.1] else [])
                entry.2)
    iamMap.

(** [whyReachable]: the graph after the call, and the path (None for nil). *)
Definition whyReachable (g : graph) (fnName : string)
    : outcome (graph * option (list Edge)) :=
  match findFunc g fnName with
  | None => Return (g, None)
  | Some fn =>
      let g := setCallgraph g (DeleteSyntheticNodes (callgraph g)) in
      path ←! findPath (callgraph g) (roots g) fn;
      Return (g, path)
  end.

Definition possibleFunctionNames (sdkMethod : string) : outcome (list string) :=
  service0 ←! index (Split sdkMethod "."%char) 0;
  let service := ToLower service0 in
  method ←! index (Split sdkMethod "."%char) 1;
  let v1 := "(*github.com/aws/aws-sdk-go/service/" +:+ service +:+ "."
            +:+ service0 +:+ ")." +:+ method +:+ "Request" in
  let v2 := "(*github.com/aws/aws-sdk-go-v2/service/" +:+ service
            +:+ ".Client)." +:+ method in
  Return [v1; v2].

(** The two nested loops of the [-why] branch of main. *)
Fixpoint whyNames (g : graph) (fnNames : list string)
    : outcome (graph * option (list Edge)) :=
  match fnNames with
  | [] => Return (g, None)
  | fnName :: fnNames' =>
      r ←! whyReachable g fnName;
      match r.2 with
      | Some path => Return r
      | None => whyNames r.1 fnNames'
      end
  end.

Fixpoint whyMethods (g : graph) (sdkMethods : list string)
    : outcome (graph * option (list Edge)) :=
  match sdkMethods with
  | [] => Return (g, None)
  | method :: sdkMethods' =>
      fnNames ←! possibleFunctionNames method;
      r ←! whyNames g fnNames;
      match r.2 with
      | Some path => Return r
      | None => whyMethods r.1 sdkMethods'
      end
  end.

Definition exitOf {A} (o : outcome A) (k : A → Exit) : Exit :=
  match o with
  | Return a => k a
  | Panic => Crash
  | Diverge => Hang
  end.

Definition whyMode (g : graph) (iamMap : iamMapBase) (why : string) : Exit :=
  let sdkMethods := actionToSDKMethods iamMap why in
  if decide (length sdkMethods = 0) then
    Fatal ("didn't find any SDK method that requires the action " +:+ why
           +:+ ". Are you sure it exist?")
  else
    exitOf (whyMethods g sdkMethods) (λ r,
      match r.2 with
      | Some path => Exit0 (printPath r.1 path)
      | None =>
          Fatal ("no call path found that requires " +:+ why
                 +:+ ". It might only be reachable via reflection")
      end).

(** One pass of [for fn := range graph.reachable]: the SDK method appended,
    if any. *)
Definition sdkCall (g : graph) (reflection : bool) (fn : Fn)
    : outcome (option string) :=
  if negb (bool_decide (Synthetic (program g) fn = "")) then Return None
  else
    let fn := match Origin (program g) fn with Some orig => orig | None => fn end in
    if negb (bool_decide (Parent (program g) fn = None)) then Return None
    else if bool_decide (sdkVersion (program g) fn = "") then Return None
    else if reflection then Return (Some (sdkMethodName (program g) fn))
    else
      path ←! findPath (callgraph g) (roots g) fn;
      match path with
      | None => Return None   (* only reachable through reflection *)
      | Some _ => Return (Some (sdkMethodName (program g) fn))
      end.

Fixpoint sdkCalls (g : graph) (reflection : bool) (fns : list (Fn * bool))
    : outcome (list string) :=
  match fns with
  | [] => Return []
  | fn :: fns' =>
      m ←! sdkCall g reflection fn.1;
      ms ←! sdkCalls g reflection fns';
      Return (option_list m ++ ms)
  end.

Definition iamActionsOf (iamMap : iamMapBase) (sdkMethods : list string) : list string :=
  filter (λ iamAction, iamAction ≠ "") (sdkMethodToAction iamMap <$> sdkMethods).

Definition listMode (g : graph) (iamMap : iamMapBase) (fl : Flags) : Exit :=
  exitOf (sdkCalls g (reflectionFlag fl) (reachable g)) (λ sdkMethods,
    if decide (length sdkMethods = 0) then
      Fatal "found no actiave use of the AWS API via AWS SDK v2"
    else if sdkcallsFlag fl then Exit0 sdkMethods
    else
      let iamActions := iamActionsOf iamMap sdkMethods in
      if decide (length iamActions = 0) then
        Fatal "found no needed AWS IAM permissions"
      else Exit0 iamActions).

Definition whyMessage : string :=
  "-why value must be an IAM action in format 'service:method', for example '-why ssm:GetParameter'".

(** [main] from line 52 on, after [flag.Parse()]: [fl] holds the values of
    the flags and [args w] is [flag.Args()]. *)
Definition main (fl : Flags) (w : World) : Exit :=
  if decide (length (args w) = 0) then Usage2
  else if negb (bool_decide (whyFlag fl = "")) && negb (whyFormat (whyFlag fl))
  then Fatal whyMessage
  else
    match analyze w (testFlag fl) (tagsFlag fl) with
    | inl e => e
    | inr graph =>
        (* without loadMap the table keeps its zero value, a nil map *)
        match (if negb (sdkcallsFlag fl) then loadMap w else inr []) with
        | inl e => e
        | inr iamMap =>
            if negb (bool_decide (whyFlag fl = ""))
            then whyMode graph iamMap (whyFlag fl)
            else listMode graph iamMap fl
        end
    end.

(** The command from its first line: [flag.Parse()] on [os.Args[1:]] (the
    flag set exits on error: status 2, and status 0 when help is asked for),
    then the rest of [main]. *)
Definition iamgo (arguments : list string) (w : World) : Exit :=
  exitOf (Parse arguments) (λ r,
    match r with
    | inl ErrHelp => Help
    | inl err => BadFlag err
    | inr (fl, rest) => main fl (withArgs w rest)
    end).

End Run.

(** ** Example data *)

(** A small table: two operations with two actions each, one of them shared,
    and one operation that needs none. *)
Definition ssmMap : iamMapBase :=
  [ ("SSM.GetParameter", [mkMethod "ssm:GetParameter"; mkMethod "kms:Decrypt"]);
    ("SSM.GetParameters", [mkMethod "ssm:GetParameters"; mkMethod "kms:Decrypt"]);
    ("SSM.PutParameter", [mkMethod "ssm:PutParameter"]);
    ("STS.GetCallerIdentity", []) ].

(** A table with two keys that differ in letter case only. *)
Definition foldedMap : iamMapBase :=
  [ ("SSM.GetParameter", [mkMethod "ssm:GetParameter"]);
    ("ssm.getparameter", [mkMethod "kms:Decrypt"]) ].

(** A program: 0 is the package initializer, 1 is main, 2 a helper, 3 to 5
    and 7 are operations of SDK v2, 6 is an operation of SDK v1. *)
Definition demoProgram : Program :=
  let ssmv2 := "github.com/aws/aws-sdk-go-v2/service/ssm" in
  let ssmdir := "/go/pkg/mod/github.com/aws/aws-sdk-go-v2/service/ssm@v1.44.0" in
  let app := "example.com/app" in
  {| Synthetic := λ fn, match fn with 0 => "package initializer" | _ => "" end;
     Object := λ fn, match fn with 0 => false | _ => true end;
     FullName := λ fn,
       match fn with
       | 0 => "example.com/app.init"
       | 1 => "example.com/app.main"
       | 2 => "example.com/app.run"
       | 3 => "(*github.com/aws/aws-sdk-go-v2/service/ssm.Client).GetParameter"
       | 4 => "(*github.com/aws/aws-sdk-go-v2/service/ssm.Client).GetParameters"
       | 5 => "(*github.com/aws/aws-sdk-go-v2/service/sts.Client).GetCallerIdentity"
       | 6 => "(*github.com/aws/aws-sdk-go/service/ssm.SSM).GetParameterRequest"
       | _ => "(*github.com/aws/aws-sdk-go-v2/service/ssm.Client).PutParameter"
       end;
     Name := λ fn,
       match fn with
       | 0 => "init" | 1 => "main" | 2 => "run" | 3 => "GetParameter"
       | 4 => "GetParameters" | 5 => "GetCallerIdentity"
       | 6 => "GetParameterRequest" | _ => "PutParameter"
       end;
     Origin := λ _, None;
     Parent := λ _, None;
     PkgPath := λ fn,
       match fn with
       | 0 | 1 | 2 => app
       | 5 => "github.com/aws/aws-sdk-go-v2/service/sts"
       | 6 => "github.com/aws/aws-sdk-go/service/ssm"
       | _ => ssmv2
       end;
     PkgName := λ fn,
       match fn with 0 | 1 | 2 => "main" | 5 => "sts" | _ => "ssm" end;
     Pos := λ fn,
       match fn with
       | 0 => mkPosition "" 0 0
       | 1 => mkPosition "/src/app/main.go" 12 6
       | 2 => mkPosition "/src/app/main.go" 20 6
       | 3 => mkPosition (ssmdir +:+ "/api_op_GetParameter.go") 31 18
       | 4 => mkPosition (ssmdir +:+ "/api_op_GetParameters.go") 40 18
       | 5 => mkPosition
                "/go/pkg/mod/github.com/aws/aws-sdk-go-v2/service/sts@v1.26.0/api_op_GetCallerIdentity.go"
                25 18
       | 6 => mkPosition
                "/go/pkg/mod/github.com/aws/aws-sdk-go@v1.50.0/service/ssm/api.go"
                4200 15
       | _ => mkPosition (ssmdir +:+ "/api_op_PutParameter.go") 52 18
       end |}.

Definition callAt (a : Fn) (l : nat) (b : Fn) : Edge :=
  mkEdge a (Some (mkPosition "/src/app/main.go" l 2)) "static method call" b.

(** main calls GetParameters and run; run calls GetParameter of both SDKs.
    PutParameter (7) is reachable only as an address-taken function: it is in
    the reachable set and no edge leads to it. *)
Definition demoCalls : Callgraph :=
  {[ 0 := []; 1 := [callAt 1 14 4; callAt 1 15 2];
     2 := [callAt 2 22 3; callAt 2 23 6]; 3 := []; 4 := []; 6 := [] ]}.

Definition demoLoaded : Loaded :=
  {| loadErr := None; initial := 1; printErrors := 0; prog := demoProgram;
     mains := [(0, 1)]; rtaCallGraph := demoCalls;
     rtaReachable := [(0, false); (1, false); (2, false); (3, false);
                      (4, false); (6, false); (7, true)] |}.

Definition demoWorld (table : iamMapBase) : World :=
  {| args := ["."]; packages := λ _ _, demoLoaded; mapJSON := inr table |}.

(** A program whose only SDK call needs no permission. *)
Definition stsLoaded : Loaded :=
  {| loadErr := None; initial := 1; printErrors := 0; prog := demoProgram;
     mains := [(0, 1)];
     rtaCallGraph := {[ 0 := []; 1 := [callAt 1 14 5]; 5 := [] ]};
     rtaReachable := [(0, false); (1, false); (5, false)] |}.

Definition stsWorld : World :=
  {| args := ["."]; packages := λ _ _, stsLoaded; mapJSON := inr ssmMap |}.

(** A program model in which main reaches GetParameter through run and
    through GetParameters, and the same model as another run may be given
    it: the reachable map ranged over backwards, the out-edges of main
    stored in the other order. *)
Definition forkLoaded : Loaded :=
  {| loadErr := None; initial := 1; printErrors := 0; prog := demoProgram;
     mains := [(0, 1)];
     rtaCallGraph :=
       {[ 0 := []; 1 := [callAt 1 14 4; callAt 1 15 2];
          2 := [callAt 2 22 3]; 3 := []; 4 := [callAt 4 41 3] ]};
     rtaReachable := [(0, false); (1, false); (2, false); (3, false); (4, false)] |}.

Definition forkReordered : Loaded :=
  {| loadErr := None; initial := 1; printErrors := 0; prog := demoProgram;
     mains := [(0, 1)];
     rtaCallGraph :=
       {[ 0 := []; 1 := [callAt 1 15 2; callAt 1 14 4];
          2 := [callAt 2 22 3]; 3 := []; 4 := [callAt 4 41 3] ]};
     rtaReachable := reverse (rtaReachable forkLoaded) |}.

(** A program in which function 9 is a second function with the name of
    function 4 (as the copy of a package that its test variant holds); main
    calls 4, run calls 9. *)
Definition twinProgram : Program :=
  let twin fn := if decide (fn = 9) then 4 else fn in
  {| Synthetic := λ fn, Synthetic demoProgram (twin fn);
     Object := λ fn, Object demoProgram (twin fn);
     FullName := λ fn, FullName demoProgram (twin fn);
     Name := λ fn, Name demoProgram (twin fn);
     Origin := λ _, None;
     Parent := λ _, None;
     PkgPath := λ fn, PkgPath demoProgram (twin fn);
     PkgName := λ fn, PkgName demoProgram (twin fn);
     Pos := λ fn, Pos demoProgram (twin fn) |}.

Definition twinCalls : Callgraph :=
  {[ 0 := []; 1 := [callAt 1 14 4; callAt 1 15 2]; 2 := [callAt 2 24 9];
     4 := []; 9 := [] ]}.

Definition twinReachable : list (Fn * bool) :=
  [(0, false); (1, false); (2, false); (4, false); (9, false)].

(** [DeleteSyntheticNodes] on a graph without synthetic nodes other than the
    package initializers, which it keeps: nothing to delete. *)
Definition keepAll (g : Callgraph) : Callgraph := g.

Definition listFlags (reflection sdkcalls : bool) : Flags :=
  mkFlags false "" reflection sdkcalls "".

Definition whyFlags (why : string) : Flags := mkFlags false "" false false why.


(** Two shortest ways from 0 to 3, the out-edges of 0 stored in either
    order. *)
Definition two_ways : Callgraph :=
  {[ 0 := [call 0 1; call 0 2]; 1 := [call 1 3]; 2 := [call 2 3]; 3 := [] ]}.

Definition two_ways_swapped : Callgraph :=
  {[ 0 := [call 0 2; call 0 1]; 1 := [call 1 3]; 2 := [call 2 3]; 3 := [] ]}.

(** * Vocabulary of the statements *)

(** ** The result of a search *)

(** What a finished search guarantees about its result. *)
Definition shortest_or_none (g : Callgraph) (start target : Fn)
    (r : option (list Edge)) : Prop :=
  match r with
  | None => ¬ reaches g start target
  | Some p =>
      is_path g start target p ∧
      ∀ q, is_path g start target q → length p ≤ length q
  end.

(** ** Invariants of the search loop *)

Section search_invariants.

Context (g : Callgraph) (start target : Fn).

(** The [visited] map is a tree rooted at [start]; [d] is the depth of each
    visited node in it. *)
Record tree_inv (d : Fn → nat) (visited : Visited) : Prop := {
  t_root : visited !! start = Some None;
  t_droot : d start = 0;
  t_nil : ∀ v, visited !! v = Some None → v = start;
  t_edge : ∀ v e, visited !! v = Some (Some e) →
     Callee e = v ∧ e ∈ Out g (Caller e) ∧
     is_Some (visited !! Caller e) ∧ d v = S (d (Caller e));
  t_size : ∀ v, is_Some (visited !! v) → d v < size visited;
  t_univ : dom visited ⊆ universe g start
}.

(** The queue holds nodes of depth [k] followed by nodes of depth [k+1]. *)
Record level_inv (d : Fn → nat) (visited : Visited) (k : nat)
    (A B : list Fn) : Prop := {
  l_A : ∀ q, q ∈ A → d q = k;
  l_B : ∀ q, q ∈ B → d q = S k;
  l_vis : ∀ q, q ∈ A ++ B → is_Some (visited !! q);
  l_nodup : NoDup (A ++ B)
}.

Definition closed_at (d : Fn → nat) (visited : Visited) (u : Fn) : Prop :=
  ∀ e, e ∈ Out g u → is_Some (visited !! Callee e) ∧ d (Callee e) ≤ S (d u).

(** Every visited node that is not queued (and is not [skip], the node being
    expanded) is no deeper than [k], is not the target and has all its
    callees visited. *)
Definition done_inv (d : Fn → nat) (visited : Visited) (k : nat)
    (queue : list Fn) (skip : option Fn) : Prop :=
  ∀ u, is_Some (visited !! u) → u ∉ queue → Some u ≠ skip →
    d u ≤ k ∧ u ≠ target ∧ closed_at d visited u.

(** The state while the out-edges of [c] are being scanned. *)
Record mid_inv (d : Fn → nat) (visited : Visited) (k : nat)
    (A B : list Fn) (c : Fn) (handled : list Edge) : Prop := {
  m_tree : tree_inv d visited;
  m_level : level_inv d visited k A B;
  m_done : done_inv d visited k (A ++ B) (Some c);
  m_cvis : is_Some (visited !! c);
  m_cd : d c = k;
  m_cq : c ∉ A ++ B;
  m_handled : ∀ e, e ∈ handled →
     is_Some (visited !! Callee e) ∧ d (Callee e) ≤ S k
}.

End search_invariants.

Arguments t_root {g start} d visited _.
Arguments t_droot {g start} d visited _.
Arguments t_nil {g start} d visited _ v _.
Arguments t_edge {g start} d visited _ v e _.
Arguments t_size {g start} d visited _ v _.
Arguments t_univ {g start} d visited _.
Arguments m_tree {g start target} d visited k A B c handled _.
Arguments m_level {g start target} d visited k A B c handled _.
Arguments m_done {g start target} d visited k A B c handled _.
Arguments m_cvis {g start target} d visited k A B c handled _.
Arguments m_cd {g start target} d visited k A B c handled _.
Arguments m_cq {g start target} d visited k A B c handled _.
Arguments m_handled {g start target} d visited k A B c handled _.

(** ** The naming conventions of the two SDK generations *)

Definition v2_convention (prog : Program) (fn : Fn) : Prop :=
  (∃ rest, PkgPath prog fn = "github.com/aws/aws-sdk-go-v2/service/" +:+ rest)
  ∧ (∃ dir, Filename (Pos prog fn)
            = dir +:+ "/api_op_" +:+ Name prog fn +:+ ".go").

Definition v1_convention (prog : Program) (fn : Fn) : Prop :=
  (∃ rest, PkgPath prog fn = "github.com/aws/aws-sdk-go/service/" +:+ rest)
  ∧ (∃ dir, Filename (Pos prog fn) = dir +:+ "/api.go")
  ∧ (∃ method, Name prog fn = method +:+ "Request").

(** ** The ways the process fails *)

(** The graph [analyze] returns when the load succeeds, and the table the
    lookups see (the zero value, an empty map, when it is not loaded). *)
Definition graphOf (l : Loaded) : graph :=
  mkGraph (prog l) (flat_map (λ main, [main.1; main.2]) (mains l))
          (rtaCallGraph l) (rtaReachable l).

Definition tableOf (fl : Flags) (w : World) : iamMapBase :=
  if sdkcallsFlag fl then []
  else match mapJSON w with inr m => m | inl _ => [] end.

Section failures.

Context (DeleteSyntheticNodes : Callgraph → Callgraph).
Context (ToLower : string → string) (EqualFold : string → string → bool).

Section after_the_flags.

Context (fl : Flags) (w : World).

Local Abbreviation l := (packages w (testFlag fl) (tagsFlag fl)).
Local Abbreviation g := (graphOf l).
Local Abbreviation iamMap := (tableOf fl w).

(** How far a run gets: its arguments are accepted, its packages are loaded
    and analysed, its permission table is there when it is needed. *)
Definition accepted : Prop :=
  length (args w) ≠ 0 ∧ (whyFlag fl = "" ∨ whyFormat (whyFlag fl) = true).

Definition analysed : Prop :=
  accepted ∧ loadErr l = None ∧ initial l ≠ 0 ∧ printErrors l = 0
  ∧ length (mains l) ≠ 0.

Definition ready : Prop :=
  analysed ∧ (sdkcallsFlag fl = false → ∃ m, mapJSON w = inr m).

(** The situations in which main calls [os.Exit(2)] or [log.Fatal], in the
    order in which main meets them, each with the message it logs. *)
Inductive failure : Exit → Prop :=
  | no_arguments :
      length (args w) = 0 → failure Usage2
  | malformed_why :
      length (args w) ≠ 0 →
      whyFlag fl ≠ "" → whyFormat (whyFlag fl) = false →
      failure (Fatal whyMessage)
  | load_failed err :
      accepted → loadErr l = Some err →
      failure (Fatal ("failed to load package. Make sure it's bildable with 'go build'"
                      +:+ newline +:+ err))
  | no_packages :
      accepted → loadErr l = None → initial l = 0 →
      failure (Fatal "no packages")
  | package_errors :
      accepted → loadErr l = None → initial l ≠ 0 → 0 < printErrors l →
      failure (Fatal "packages contain errors. Make sure it's buildable with 'go build'")
  | no_main_packages :
      accepted → loadErr l = None → initial l ≠ 0 → printErrors l = 0 →
      length (mains l) = 0 → failure (Fatal "no main packages")
  | table_failed err :
      analysed → sdkcallsFlag fl = false → mapJSON w = inl err →
      failure (Fatal err)
  | unknown_action :
      ready → whyFlag fl ≠ "" →
      length (actionToSDKMethods EqualFold iamMap (whyFlag fl)) = 0 →
      failure (Fatal ("didn't find any SDK method that requires the action "
                      +:+ whyFlag fl +:+ ". Are you sure it exist?"))
  | no_call_path g' :
      ready → whyFlag fl ≠ "" →
      length (actionToSDKMethods EqualFold iamMap (whyFlag fl)) ≠ 0 →
      whyMethods DeleteSyntheticNodes ToLower g
        (actionToSDKMethods EqualFold iamMap (whyFlag fl)) = Return (g', None) →
      failure (Fatal ("no call path found that requires " +:+ whyFlag fl
                      +:+ ". It might only be reachable via reflection"))
  | no_sdk_calls :
      ready → whyFlag fl = "" →
      sdkCalls g (reflectionFlag fl) (reachable g) = Return [] →
      failure (Fatal "found no actiave use of the AWS API via AWS SDK v2")
  | no_iam_actions sdkMethods :
      ready → whyFlag fl = "" → sdkcallsFlag fl = false →
      sdkCalls g (reflectionFlag fl) (reachable g) = Return sdkMethods →
      length sdkMethods ≠ 0 →
      length (iamActionsOf EqualFold iamMap sdkMethods) = 0 →
      failure (Fatal "found no needed AWS IAM permissions").

(** The two parts of the statement about [main] after the flags. *)
Definition verdict (run : Exit) : Prop :=
  (∀ e, failure e → run = e)
  ∧ (run = Usage2 ∨ (∃ msg, run = Fatal msg) → failure run).

End after_the_flags.

(** The situations in which the command ends through [os.Exit(2)] or
    [log.Fatal]: a command line that [flag.Parse] refuses, and the failures
    of main after the flags. *)
Inductive stop (arguments : list string) (w : World) : Exit → Prop :=
  | bad_flag err :
      Parse arguments = Return (inl err) → err ≠ ErrHelp →
      stop arguments w (BadFlag err)
  | after_flags fl rest e :
      Parse arguments = Return (inr (fl, rest)) →
      failure fl (withArgs w rest) e →
      stop arguments w e.

Definition exits_nonzero (e : Exit) : Prop :=
  ∃ n, status e = Some n ∧ n ≠ 0.

(** The ways to end that the code chooses: [os.Exit(2)] after the usage
    text, [log.Fatal], and the exit of [flag.Parse]. *)
Definition deliberate (e : Exit) : Prop :=
  e = Usage2 ∨ (∃ msg, e = Fatal msg) ∨ (∃ err, e = BadFlag err).

End failures.

(** ** Two runs *)

(** Reachable source functions have distinct names. *)
Definition unique_names (prog : Program) (reach : list (Fn * bool)) : Prop :=
  ∀ r1 r2, r1 ∈ reach → r2 ∈ reach →
    Synthetic prog r1.1 = "" → Synthetic prog r2.1 = "" →
    FullName prog r1.1 = FullName prog r2.1 → r1.1 = r2.1.

Definition pathOf (o : outcome (graph * option (list Edge)))
    : outcome (option (list Edge)) :=
  r ←! o; Return r.2.

(** Two call graphs with the same nodes and, at every node, the same
    out-edges, stored in any order. *)
Definition same_calls (g1 g2 : Callgraph) : Prop :=
  (∀ n, is_node g1 n ↔ is_node g2 n) ∧ (∀ n e, e ∈ Out g1 n ↔ e ∈ Out g2 n).

(** Two searches that end alike: both panic, or both return, nil together
    or paths of the same length. *)
Definition same_length (o1 o2 : outcome (option (list Edge))) : Prop :=
  match o1, o2 with
  | Return r1, Return r2 => length <$> r1 = length <$> r2
  | Panic, Panic => True
  | _, _ => False
  end.

(** The same program model as two runs are given it: the same load result,
    SSA program and main packages (hence the same roots in the same order),
    the same reachable functions and the same call graph, whatever the order
    in which the reachable map is ranged over and the out-edges are
    stored. *)
Definition same_model (l1 l2 : Loaded) : Prop :=
  prog l1 = prog l2 ∧ mains l1 = mains l2
  ∧ rtaReachable l1 ≡ₚ rtaReachable l2
  ∧ wf_callgraph (rtaCallGraph l1) ∧ wf_callgraph (rtaCallGraph l2)
  ∧ same_calls (rtaCallGraph l1) (rtaCallGraph l2).

(** Two -why searches that end alike: both panic, or both return, nil
    together or paths of the same length, leaving graphs with the same
    reachable set. *)
Definition same_explanation (o1 o2 : outcome (graph * option (list Edge))) : Prop :=
  match o1, o2 with
  | Return r1, Return r2 =>
      length <$> r1.2 = length <$> r2.2 ∧ reachable r1.1 ≡ₚ reachable r2.1
  | Panic, Panic => True
  | _, _ => False
  end.

(** The invariant of the two searches: paths of the same length so far, and
    graphs that differ in range order and edge order only. *)
Definition agree (prog : Program) (rts : list Fn) (reach1 reach2 : list (Fn * bool))
    (o1 o2 : outcome (graph * option (list Edge))) : Prop :=
  match o1, o2 with
  | Return r1, Return r2 =>
      length <$> r1.2 = length <$> r2.2
      ∧ ∃ cg1 cg2, r1.1 = mkGraph prog rts cg1 reach1
                   ∧ r2.1 = mkGraph prog rts cg2 reach2
                   ∧ wf_callgraph cg1 ∧ wf_callgraph cg2 ∧ same_calls cg1 cg2
  | Panic, Panic => True
  | _, _ => False
  end.

(** ** The listing loop *)

(** [if orig := fn.Origin(); orig != nil { fn = orig }]: the function the
    listing loop goes on with. *)
Definition collapse (prog : Program) (fn : Fn) : Fn :=
  match Origin prog fn with
  | Some orig => orig
  | None => fn
  end.

(** * Properties *)

(** ** The outcome monad *)

Lemma Forall_pairs {A B} (P : A → B → Prop) (l : list (A * B)) :
  Forall (λ x, P x.1 x.2) l → ∀ a b, (a, b) ∈ l → P a b.
Proof. intros H a b Hin. by apply (proj1 (Forall_forall _ _) H (a, b)). Qed.

Lemma obind_Return {A B} (m : outcome A) (k : A → outcome B) b :
  obind m k = Return b ↔ ∃ a, m = Return a ∧ k a = Return b.
Proof.
  destruct m; simpl; split; try (intros (? & ? & ?)); try done; eauto.
  by simplify_eq.
Qed.

(** ** Paths *)

Lemma is_path_snoc g a b p e :
  is_path g a b p → Caller e = b → e ∈ Out g b →
  is_path g a (Callee e) (p ++ [e]).
Proof.
  revert a. induction p as [|e' p IH]; simpl; intros a.
  - intros -> ? ?. done.
  - intros (? & ? & ?) ? ?. eauto.
Qed.

Lemma is_path_app g a b c p q :
  is_path g a b p → is_path g b c q → is_path g a c (p ++ q).
Proof.
  revert a. induction p as [|e p IH]; simpl; intros a.
  - by intros ->.
  - intros (? & ? & ?) ?. eauto.
Qed.

Lemma wf_Out g n e : wf_callgraph g → e ∈ Out g n → Caller e = n.
Proof.
  unfold Out. intros Hwf He. destruct (g !! n) as [out|] eqn:Hn; simpl in He.
  - specialize (Hwf n out Hn). simpl in Hwf.
    by apply (proj1 (Forall_forall _ _) Hwf).
  - by apply elem_of_nil in He.
Qed.

Lemma Out_allEdges (g : Callgraph) n e : e ∈ Out g n → e ∈ allEdges g.
Proof.
  unfold Out, allEdges. destruct (g !! n) as [es|] eqn:Hn; simpl.
  - intros He. apply list_elem_of_In, in_concat. exists es.
    split; [|by apply list_elem_of_In].
    apply list_elem_of_In, list_elem_of_fmap. exists (n, es). split; [done|].
    by apply elem_of_map_to_list.
  - by intros ?%elem_of_nil.
Qed.

Lemma Out_universe (g : Callgraph) start n e :
  e ∈ Out g n → Callee e ∈ universe g start.
Proof.
  intros He%Out_allEdges. unfold universe.
  apply elem_of_union_r, elem_of_list_to_set, list_elem_of_fmap. eauto.
Qed.

(** ** The search from one root *)

Lemma visitEdge_old (visited : Visited) (queue : list Fn) e :
  is_Some (visited !! Callee e) → visitEdge (visited, queue) e = (visited, queue).
Proof. unfold visitEdge; simpl. by intros [? ->]. Qed.

Lemma visitEdge_new (visited : Visited) (queue : list Fn) e :
  visited !! Callee e = None →
  visitEdge (visited, queue) e
  = (<[Callee e := Some e]> visited, queue ++ [Callee e]).
Proof. unfold visitEdge; simpl. by intros ->. Qed.

Lemma visitEdge_count (es : list Edge) (visited : Visited) (queue : list Fn) :
  let st := foldl visitEdge (visited, queue) es in
  size st.1 + length queue = size visited + length st.2.
Proof.
  revert visited queue. induction es as [|e es IH]; simpl; intros visited queue.
  - lia.
  - destruct (visited !! Callee e) eqn:Hv.
    + rewrite visitEdge_old by eauto. apply IH.
    + rewrite visitEdge_new by done.
      specialize (IH (<[Callee e:=Some e]> visited) (queue ++ [Callee e])).
      simpl in IH. rewrite map_size_insert_None, length_app in IH by done.
      simpl in IH. lia.
Qed.

Section bfs_correct.

Context (g : Callgraph) (start target : Fn).
Hypothesis Hwf : wf_callgraph g.

Lemma walkBack_path d visited :
  tree_inv g start d visited →
  ∀ fuel v acc, is_Some (visited !! v) → d v < fuel →
    ∃ p, walkBack fuel visited v acc = Return (p ++ reverse acc)
         ∧ is_path g start v p ∧ length p = d v.
Proof.
  intros Ht. induction fuel as [|fuel IH]; intros v acc [o Hv] Hd; [lia|].
  simpl. rewrite Hv. destruct o as [e|].
  - destruct (t_edge _ _ Ht v e Hv) as (Hc & Hout & Hvis & Hdv).
    destruct (IH (Caller e) (acc ++ [e]) Hvis ltac:(lia)) as (p & Hw & Hp & Hl).
    exists (p ++ [e]). rewrite Hw, reverse_snoc. split; [by rewrite <- app_assoc|].
    split; [rewrite <- Hc; by apply (is_path_snoc g start (Caller e))|].
    rewrite length_app. simpl. lia.
  - exists []. apply (t_nil _ _ Ht) in Hv. subst v. simpl.
    by rewrite (t_droot _ _ Ht).
Qed.

Lemma closed_path d visited k queue :
  done_inv g target d visited k queue None →
  (∀ q, q ∈ queue → k ≤ d q) →
  ∀ p a c, is_path g a c p → is_Some (visited !! a) → d a + length p < k →
    is_Some (visited !! c) ∧ d c ≤ d a + length p.
Proof.
  intros Hdone Hq. induction p as [|e p IH]; simpl; intros a c.
  - intros <- ? ?. split; [done|lia].
  - intros (Hca & Hout & Hp) Ha Hd.
    assert (a ∉ queue) as Hnq by (intros ?%Hq; lia).
    destruct (Hdone a Ha Hnq) as (_ & _ & Hcl); [done|].
    destruct (Hcl e Hout) as [Hvis Hle].
    destruct (IH _ _ Hp Hvis) as [? ?]; [lia|]. split; [done|lia].
Qed.

Lemma closed_all d visited k :
  done_inv g target d visited k [] None →
  ∀ p a c, is_path g a c p → is_Some (visited !! a) → is_Some (visited !! c).
Proof.
  intros Hdone. induction p as [|e p IH]; simpl; intros a c.
  - by intros <-.
  - intros (Hca & Hout & Hp) Ha.
    destruct (Hdone a Ha) as (_ & _ & Hcl); [apply not_elem_of_nil|done|].
    destruct (Hcl e Hout) as [Hvis _]. eauto.
Qed.

Lemma visited_depth d visited k A B c handled w :
  mid_inv g start target d visited k A B c handled → is_Some (visited !! w) → d w ≤ S k.
Proof.
  intros Hm Hw. destruct (decide (w = c)) as [->|Hne].
  { rewrite (m_cd _ _ _ _ _ _ _ Hm). lia. }
  destruct (decide (w ∈ A ++ B)) as [Hin|Hnin].
  - apply elem_of_app in Hin as [Hin|Hin].
    + rewrite (l_A _ _ _ _ _ (m_level _ _ _ _ _ _ _ Hm) _ Hin). lia.
    + rewrite (l_B _ _ _ _ _ (m_level _ _ _ _ _ _ _ Hm) _ Hin). lia.
  - destruct (m_done _ _ _ _ _ _ _ Hm w Hw Hnin) as (? & _); [congruence|lia].
Qed.

Lemma visitEdge_mid d visited k A B c handled e :
  mid_inv g start target d visited k A B c handled → e ∈ Out g c →
  ∃ d' visited' B',
    visitEdge (visited, A ++ B) e = (visited', A ++ B')
    ∧ mid_inv g start target d' visited' k A B' c (handled ++ [e]).
Proof.
  intros Hm He. pose proof (wf_Out _ _ _ Hwf He) as Hcaller.
  destruct (visited !! Callee e) as [o|] eqn:Hv.
  - exists d, visited, B. rewrite visitEdge_old by eauto. split; [done|].
    pose proof (visited_depth _ _ _ _ _ _ _ (Callee e) Hm ltac:(eauto)) as Hle.
    destruct Hm. split; try done.
    intros e' [Hin| ->%list_elem_of_singleton]%elem_of_app; eauto.
  - set (w := Callee e) in *.
    set (d' := λ x, if decide (x = w) then S k else d x).
    set (visited' := <[w := Some e]> visited).
    destruct Hm as [Ht Hl Hdone Hcv Hcd Hcq Hh].
    assert (∀ x, is_Some (visited !! x) → x ≠ w) as Hne.
    { intros x [? Hx] ->. congruence. }
    assert (∀ x, is_Some (visited !! x) → d' x = d x) as Hd'.
    { intros x Hx%Hne. unfold d'. by rewrite decide_False. }
    assert (∀ x, is_Some (visited !! x) → visited' !! x = visited !! x) as Hv'.
    { intros x Hx%Hne. unfold visited'. by rewrite lookup_insert_ne. }
    assert (∀ x, is_Some (visited !! x) → is_Some (visited' !! x)) as Hs'.
    { intros x Hx. by rewrite Hv'. }
    assert (d' w = S k) as Hdw by (unfold d'; by rewrite decide_True).
    assert (visited' !! w = Some (Some e)) as Hvw by apply lookup_insert_eq.
    assert (is_Some (visited !! start)) as Hstart by (rewrite (t_root _ _ Ht); eauto).
    exists d', visited', (B ++ [w]). rewrite visitEdge_new by done.
    split; [by rewrite app_assoc|].
    split.
    + (* tree_inv *)
      split.
      * rewrite Hv' by done. apply Ht.
      * rewrite Hd' by done. apply Ht.
      * intros v Hvn. destruct (decide (v = w)) as [->|Hvw'].
        { congruence. }
        unfold visited' in Hvn. rewrite lookup_insert_ne in Hvn by done.
        by apply (t_nil _ _ Ht).
      * intros v e0 Hve. destruct (decide (v = w)) as [->|Hvw'].
        { assert (e0 = e) as -> by congruence.
          rewrite Hcaller. rewrite Hdw, (Hd' c Hcv), Hcd. eauto. }
        unfold visited' in Hve. rewrite lookup_insert_ne in Hve by done.
        destruct (t_edge _ _ Ht v e0 Hve) as (? & ? & Hcs & Hdv).
        rewrite (Hd' (Caller e0) Hcs).
        assert (d' v = d v) as -> by (unfold d'; by rewrite decide_False).
        eauto.
      * intros v Hvs. unfold visited'. rewrite map_size_insert_None by done.
        destruct (decide (v = w)) as [->|Hvw'].
        { rewrite Hdw, <- Hcd. pose proof (t_size _ _ Ht c Hcv). lia. }
        unfold visited' in Hvs. rewrite lookup_insert_ne in Hvs by done.
        rewrite (Hd' v Hvs). pose proof (t_size _ _ Ht v Hvs). lia.
      * unfold visited'. rewrite dom_insert_L.
        intros x [->%elem_of_singleton|Hx]%elem_of_union.
        -- apply (Out_universe g start c e He).
        -- by apply (t_univ _ _ Ht).
    + (* level_inv *)
      split.
      * intros q Hq. rewrite Hd'; [by apply (l_A _ _ _ _ _ Hl)|].
        apply (l_vis _ _ _ _ _ Hl), elem_of_app. auto.
      * intros q [Hq| ->%list_elem_of_singleton]%elem_of_app; [|done].
        rewrite Hd'; [by apply (l_B _ _ _ _ _ Hl)|].
        apply (l_vis _ _ _ _ _ Hl), elem_of_app. auto.
      * intros q. rewrite app_assoc.
        intros [Hq| ->%list_elem_of_singleton]%elem_of_app; [|eauto].
        apply Hs', (l_vis _ _ _ _ _ Hl), Hq.
      * rewrite app_assoc. apply NoDup_app. split; [apply Hl|]. split.
        -- intros x Hx ->%list_elem_of_singleton.
           by apply (Hne w (l_vis _ _ _ _ _ Hl _ Hx)).
        -- apply NoDup_singleton.
    + (* done_inv *)
      intros u Hu Hnq Hnc. rewrite app_assoc in Hnq.
      apply not_elem_of_app in Hnq as [Hnq Hnw].
      assert (u ≠ w) as Huw by (intros ->; apply Hnw, list_elem_of_singleton; done).
      unfold visited' in Hu. rewrite lookup_insert_ne in Hu by done.
      destruct (Hdone u Hu Hnq Hnc) as (? & ? & Hcl).
      rewrite (Hd' u Hu). split; [done|]. split; [done|].
      intros e0 He0. destruct (Hcl e0 He0) as [Hvis Hle].
      rewrite (Hd' u Hu), (Hd' _ Hvis). eauto.
    + apply Hs', Hcv.
    + rewrite Hd'; [exact Hcd|exact Hcv].
    + rewrite app_assoc. apply not_elem_of_app. split; [done|].
      intros ->%list_elem_of_singleton. by apply (Hne w Hcv).
    + intros e' [Hin| ->%list_elem_of_singleton]%elem_of_app.
      * destruct (Hh e' Hin) as [Hvis Hle]. rewrite (Hd' _ Hvis). eauto.
      * fold w. rewrite Hdw. eauto.
Qed.

Lemma visitEdges_mid es : ∀ d visited k A B c handled,
  mid_inv g start target d visited k A B c handled → (∀ e, e ∈ es → e ∈ Out g c) →
  ∃ d' visited' B',
    foldl visitEdge (visited, A ++ B) es = (visited', A ++ B')
    ∧ mid_inv g start target d' visited' k A B' c (handled ++ es).
Proof.
  induction es as [|e es IH]; intros d visited k A B c handled Hm Hes.
  - exists d, visited, B. rewrite app_nil_r. split; [reflexivity|exact Hm].
  - destruct (visitEdge_mid _ _ _ _ _ _ _ e Hm) as (d1 & v1 & B1 & Heq & Hm1).
    { apply Hes. by left. }
    destruct (IH _ _ _ _ _ _ _ Hm1) as (d2 & v2 & B2 & Heq2 & Hm2).
    { intros e' He'. apply Hes. by right. }
    exists d2, v2, B2. simpl. rewrite Heq, Heq2. split; [done|].
    by rewrite <- app_assoc in Hm2.
Qed.

Lemma level_front d visited k A B u rest :
  level_inv d visited k A B → done_inv g target d visited k (A ++ B) None →
  A ++ B = u :: rest →
  ∃ k' A' B', rest = A' ++ B' ∧ level_inv d visited k' (u :: A') B'
              ∧ done_inv g target d visited k' (u :: A' ++ B') None.
Proof.
  intros Hl Hdone Heq. destruct A as [|a A].
  - simpl in *. subst B. exists (S k), rest, []. rewrite app_nil_r.
    split; [done|]. split.
    + destruct Hl as [HA HB Hv Hn].
      split; [exact HB| by intros ? ?%elem_of_nil | by rewrite app_nil_r..].
    + intros x Hx Hnq Hs. destruct (Hdone x Hx Hnq Hs) as (? & ? & ?).
      split; [lia|done].
  - simpl in Heq. injection Heq as -> <-. by exists k, A, B.
Qed.

Lemma bfsLoop_correct fuel : ∀ d visited k A B,
  tree_inv g start d visited → level_inv d visited k A B →
  done_inv g target d visited k (A ++ B) None →
  size (universe g start) + length (A ++ B) < fuel + size visited →
  ∃ r, bfsLoop fuel g target visited (A ++ B) = Return r
       ∧ shortest_or_none g start target r.
Proof.
  induction fuel as [|fuel IH]; intros d visited k A B Ht Hl Hdone Hfuel.
  { pose proof (subseteq_size _ _ (t_univ _ _ Ht)) as Hs.
    rewrite size_dom in Hs. lia. }
  assert (is_Some (visited !! start)) as Hstart by (rewrite (t_root _ _ Ht); eauto).
  destruct (A ++ B) as [|u rest] eqn:Hq.
  - exists None. split; [done|]. intros [p Hp].
    pose proof (closed_all _ _ _ Hdone p _ _ Hp Hstart) as Hvt.
    destruct (Hdone target Hvt) as (_ & Hne & _); [apply not_elem_of_nil|done|done].
  - destruct (level_front _ _ _ _ _ _ _ Hl ltac:(by rewrite Hq) Hq)
      as (k' & A' & B' & -> & Hl' & Hdone').
    clear Hl Hdone Hq A B k. cbn [bfsLoop].
    assert (is_Some (visited !! u)) as Hu by (apply (l_vis _ _ _ _ _ Hl'); left).
    assert (d u = k') as Hdu by (apply (l_A _ _ _ _ _ Hl'); left).
    destruct (decide (u = target)) as [->|Hne].
    + destruct (walkBack_path d visited Ht (S (size visited)) target [])
        as (p & Hw & Hp & Hlen); [done|pose proof (t_size _ _ Ht _ Hu); lia|].
      rewrite Hw. cbn [obind reverse rev_append]. rewrite app_nil_r. exists (Some p).
      split; [done|]. split; [done|]. intros q Hq.
      destruct (decide (length p ≤ length q)) as [|Hlt]; [done|].
      destruct (closed_path d visited k' (target :: A' ++ B') Hdone') with
        (p := q) (a := start) (c := target) as [_ Hle]; [|done|done|..].
      * intros x [->|[Hx|Hx]%elem_of_app]%elem_of_cons; [lia|..].
        -- rewrite (l_A _ _ _ _ _ Hl' x); [lia|by right].
        -- rewrite (l_B _ _ _ _ _ Hl' x Hx). lia.
      * rewrite (t_droot _ _ Ht). lia.
      * rewrite (t_droot _ _ Ht) in Hle. lia.
    + assert (mid_inv g start target d visited k' A' B' u []) as Hm.
      { pose proof (l_nodup _ _ _ _ _ Hl') as Hnd. simpl in Hnd.
        apply NoDup_cons in Hnd as [Hnin Hnd].
        split; try done.
        - destruct Hl' as [HA HB Hv _]. split; [|done| |done].
          + intros q Hq. apply HA. by right.
          + intros q Hq. apply Hv. by right.
        - intros x Hx Hnq Hs. apply Hdone'; [done| |done].
          intros [->|?]%elem_of_cons; [by apply Hs|by apply Hnq].
        - by intros e ?%elem_of_nil. }
      destruct (visitEdges_mid (Out g u) _ _ _ _ _ _ _ Hm)
        as (d2 & v2 & B2 & Heq & Hm2); [done|].
      pose proof (visitEdge_count (Out g u) visited (A' ++ B')) as Hcount.
      simpl in Hcount. rewrite Heq in *. simpl in *.
      destruct Hm2 as [Ht2 Hl2 Hdone2 Hcv2 Hcd2 Hcq2 Hh2].
      apply (IH d2 v2 k' A' B2); [done|done| |lia].
      intros x Hx Hnq _. destruct (decide (x = u)) as [->|Hxu].
      * split; [lia|]. split; [done|].
        intros e He. rewrite Hcd2. by apply Hh2.
      * apply Hdone2; [done|done|congruence].
Qed.

(** The search from a root that has a node always returns, with a shortest
    path from that root or with nil when there is none. *)
Lemma bfs_correct :
  is_node g start →
  ∃ r, bfs g start target = Return r ∧ shortest_or_none g start target r.
Proof.
  intros [es Hs]. unfold bfs. rewrite Hs.
  apply (bfsLoop_correct _ (λ _, 0) {[start := None]} 0 [start] []).
  - split.
    + apply lookup_singleton_eq.
    + done.
    + by intros v [-> _]%lookup_singleton_Some.
    + intros v e [_ ?]%lookup_singleton_Some. done.
    + intros v _. rewrite map_size_singleton. lia.
    + rewrite dom_singleton_L. unfold universe. apply union_subseteq_l.
  - split.
    + by intros q ->%list_elem_of_singleton.
    + by intros q ?%elem_of_nil.
    + intros q ->%list_elem_of_singleton. rewrite lookup_singleton_eq. eauto.
    + apply NoDup_singleton.
  - intros u [o [-> _]%lookup_singleton_Some] Hn _.
    exfalso. apply Hn. by left.
  - rewrite map_size_singleton. simpl. lia.
Qed.

End bfs_correct.

(** A search started at the target itself stops at once with the empty,
    non-nil path. *)
Lemma bfs_self g target :
  is_node g target → bfs g target target = Return (Some []).
Proof.
  intros [out Hn]. unfold bfs. rewrite Hn. cbn [bfsLoop].
  rewrite decide_True by done. cbn [walkBack].
  by rewrite lookup_singleton_eq.
Qed.

Lemma bfs_no_node g start target :
  ¬ is_node g start → bfs g start target = Panic.
Proof.
  intros Hn. unfold bfs. destruct (g !! start) eqn:Hs; [|done].
  exfalso. apply Hn. by eexists.
Qed.

(** ** findPath *)

Lemma findPath_app g pre roots target :
  (∀ r, r ∈ pre → bfs g r target = Return None) →
  findPath g (pre ++ roots) target = findPath g roots target.
Proof.
  induction pre as [|r pre IH]; intros Hpre; [done|]. simpl.
  rewrite (Hpre r) by (by left). simpl. apply IH.
  intros r' Hr'. apply Hpre. by right.
Qed.

Lemma findPath_first g pre r post target p :
  (∀ r', r' ∈ pre → bfs g r' target = Return None) →
  bfs g r target = Return (Some p) →
  findPath g (pre ++ r :: post) target = Return (Some p).
Proof.
  intros Hpre Hr. rewrite findPath_app by done. simpl. by rewrite Hr.
Qed.

Lemma findPath_Some_inv g roots target p :
  findPath g roots target = Return (Some p) →
  ∃ pre r post, roots = pre ++ r :: post
    ∧ (∀ r', r' ∈ pre → bfs g r' target = Return None)
    ∧ bfs g r target = Return (Some p).
Proof.
  induction roots as [|r roots IH]; simpl; [done|].
  intros ([q|] & Hb & Hk)%obind_Return.
  - simplify_eq. exists [], r, roots. split; [done|]. split; [|done].
    by intros ? ?%elem_of_nil.
  - destruct (IH Hk) as (pre & r0 & post & -> & Hpre & Hr0).
    exists (r :: pre), r0, post. split; [done|]. split; [|done].
    intros r' [->|?]%elem_of_cons; auto.
Qed.

Lemma findPath_None_inv g roots target :
  findPath g roots target = Return None ↔
  ∀ r, r ∈ roots → bfs g r target = Return None.
Proof.
  induction roots as [|r roots IH]; simpl.
  - split; [by intros _ ? ?%elem_of_nil|done].
  - split.
    + intros ([q|] & Hb & Hk)%obind_Return; [done|].
      intros r' [->|?]%elem_of_cons; [done|]. by apply IH.
    + intros H. rewrite (H r) by (by left). simpl. apply IH.
      intros r' ?. apply H. by right.
Qed.

Lemma bfs_None_iff g start target :
  wf_callgraph g → is_node g start →
  bfs g start target = Return None ↔ ¬ reaches g start target.
Proof.
  intros Hwf Hn.
  destruct (bfs_correct g start target Hwf Hn) as ([p|] & -> & Hr); simpl in Hr.
  - split; [done|]. intros []. exists p. apply Hr.
  - done.
Qed.

Lemma bfs_Some_iff g start target :
  wf_callgraph g → is_node g start → reaches g start target →
  ∃ p, bfs g start target = Return (Some p)
       ∧ is_path g start target p
       ∧ ∀ q, is_path g start target q → length p ≤ length q.
Proof.
  intros Hwf Hn Hreach.
  destruct (bfs_correct g start target Hwf Hn) as ([p|] & -> & Hr); simpl in Hr.
  - exists p. by destruct Hr.
  - done.
Qed.

(** The first root, in root order, from which the target can be reached. *)
Lemma first_reaching g roots target :
  (∃ r, r ∈ roots ∧ reaches g r target) →
  (∀ r, r ∈ roots → reaches g r target ∨ ¬ reaches g r target) →
  ∃ pre r post, roots = pre ++ r :: post ∧ reaches g r target
    ∧ ∀ r', r' ∈ pre → ¬ reaches g r' target.
Proof.
  induction roots as [|r0 roots IH]; intros (r & Hin & Hr) Hdec.
  - by apply elem_of_nil in Hin.
  - destruct (Hdec r0 ltac:(by left)) as [Hyes|Hno].
    + exists [], r0, roots. split; [done|]. split; [done|].
      by intros ? ?%elem_of_nil.
    + destruct IH as (pre & r1 & post & -> & Hr1 & Hpre).
      * apply elem_of_cons in Hin as [->|Hin]; [done|]. eauto.
      * intros r' ?. apply Hdec. by right.
      * exists (r0 :: pre), r1, post. split; [done|]. split; [done|].
        by intros r' [->|?]%elem_of_cons; auto.
Qed.

Lemma reaches_dec g r target :
  wf_callgraph g → is_node g r → reaches g r target ∨ ¬ reaches g r target.
Proof.
  intros Hwf Hn.
  destruct (bfs_correct g r target Hwf Hn) as ([p|] & _ & Hr); simpl in Hr.
  - left. exists p. apply Hr.
  - by right.
Qed.

Lemma findPath_first_reaching g roots target :
  wf_callgraph g → Forall (is_node g) roots →
  (∃ r, r ∈ roots ∧ reaches g r target) →
  ∃ pre r post p,
      roots = pre ++ r :: post
      ∧ (∀ r', r' ∈ pre → ¬ reaches g r' target)
      ∧ findPath g roots target = Return (Some p)
      ∧ is_path g r target p
      ∧ ∀ q, is_path g r target q → length p ≤ length q.
Proof.
  intros Hwf Hnodes Hex.
  pose proof (proj1 (Forall_forall _ _) Hnodes) as Hn.
  destruct (first_reaching g roots target Hex)
    as (pre & r & post & -> & Hr & Hpre).
  { intros r ?. apply reaches_dec; auto. }
  destruct (bfs_Some_iff g r target Hwf) as (p & Hb & Hp & Hmin); [|done|].
  { apply Hn, elem_of_app. right. by left. }
  exists pre, r, post, p. split; [done|]. split; [done|].
  split; [|done]. apply findPath_first; [|done].
  intros r' Hr'. apply bfs_None_iff; [done| |by apply Hpre].
  apply Hn, elem_of_app. by left.
Qed.

Lemma findPath_shortest_path_exists g roots target :
  wf_callgraph g → Forall (is_node g) roots →
  (∃ r, r ∈ roots ∧ reaches g r target) →
  ∃ p, findPath g roots target = Return (Some p).
Proof.
  intros Hwf Hnodes Hex.
  destruct (findPath_first_reaching g roots target Hwf Hnodes Hex)
    as (? & ? & ? & p & _ & _ & Hp & _). eauto.
Qed.

(** C1, as amended: in a well-formed call graph whose roots all have a node,
    for a target reachable from some root, [findPath] returns an ordered
    chain of call edges that starts at the first root (in root order) from
    which the target is reachable and ends at the target, and no chain from
    that root to the target is shorter.  For the graph root -> a -> b ->
    target with the direct edge root -> target it returns the single edge. *)
Theorem findPath_shortest_from_first_root g roots target :
  wf_callgraph g → Forall (is_node g) roots →
  (∃ r, r ∈ roots ∧ reaches g r target) →
  (∃ pre r post p,
      roots = pre ++ r :: post
      ∧ (∀ r', r' ∈ pre → ¬ reaches g r' target)
      ∧ findPath g roots target = Return (Some p)
      ∧ is_path g r target p
      ∧ ∀ q, is_path g r target q → length p ≤ length q)
  ∧ findPath diamond [0] 3 = Return (Some [call 0 3]).
Proof.
  intros Hwf Hnodes Hex. split; [|by vm_compute].
  by apply findPath_first_reaching.
Qed.

Lemma findPath_shortest_from_first_root_witness :
  wf_callgraph two_roots ∧ Forall (is_node two_roots) [0; 2]
  ∧ (∃ r, r ∈ [0; 2] ∧ reaches two_roots r 3)
  ∧ (∃ pre r post p,
      [0; 2] = pre ++ r :: post
      ∧ (∀ r', r' ∈ pre → ¬ reaches two_roots r' 3)
      ∧ findPath two_roots [0; 2] 3 = Return (Some p)
      ∧ is_path two_roots r 3 p
      ∧ ∀ q, is_path two_roots r 3 q → length p ≤ length q).
Proof.
  assert (wf_callgraph two_roots) as Hwf by (compute_done).
  assert (Forall (is_node two_roots) [0; 2]) as Hn by (compute_done).
  assert (∃ r, r ∈ [0; 2] ∧ reaches two_roots r 3) as Hex.
  { exists 2. split; [compute_done|].
    exists [call 2 3]. simpl. split; [reflexivity|]. split; [|reflexivity].
    compute_done. }
  split; [exact Hwf|]. split; [exact Hn|]. split; [exact Hex|].
  exact (proj1 (findPath_shortest_from_first_root two_roots [0; 2] 3 Hwf Hn Hex)).
Defined.

(** C1 as stated fails with two roots: the path of the first root that
    reaches the target is returned although a later root is closer. *)
Lemma findPath_not_shortest_over_all_roots :
  findPath two_roots [0; 2] 3 = Return (Some [call 0 1; call 1 3])
  ∧ 2 ∈ [0; 2]
  ∧ is_path two_roots 2 3 [call 2 3]
  ∧ length [call 2 3] < length [call 0 1; call 1 3].
Proof.
  split; [by vm_compute|]. split; [by right; left|]. split; [|simpl; lia].
  simpl. split; [reflexivity|]. split; [|reflexivity].
  compute_done.
Qed.

(** ** The permission table *)

Lemma EqualFoldASCII_refl s : EqualFoldASCII s s = true.
Proof. unfold EqualFoldASCII. by apply bool_decide_eq_true_2. Qed.

Lemma EqualFoldASCII_sym s t :
  EqualFoldASCII s t = true → EqualFoldASCII t s = true.
Proof.
  unfold EqualFoldASCII. intros H%bool_decide_eq_true_1.
  by apply bool_decide_eq_true_2.
Qed.

Lemma EqualFoldASCII_trans s t u :
  EqualFoldASCII s t = true → EqualFoldASCII t u = true →
  EqualFoldASCII s u = true.
Proof.
  unfold EqualFoldASCII.
  intros H1%bool_decide_eq_true_1 H2%bool_decide_eq_true_1.
  apply bool_decide_eq_true_2. congruence.
Qed.

Section mapping.

Context (EqualFold : string → string → bool).

Lemma elem_of_actionToSDKMethods (iamMap : iamMapBase) action name :
  name ∈ actionToSDKMethods EqualFold iamMap action ↔
  ∃ privs priv, (name, privs) ∈ iamMap ∧ priv ∈ privs
                ∧ EqualFold (Action priv) action = true.
Proof.
  unfold actionToSDKMethods. rewrite list_elem_of_In, in_flat_map. split.
  - intros ([n privs] & Hin & Hname). simpl in Hname.
    apply in_flat_map in Hname as (priv & Hp & Hm).
    destruct (EqualFold (Action priv) action) eqn:He; [|done].
    destruct Hm as [->|[]].
    exists privs, priv. by rewrite !list_elem_of_In.
  - intros (privs & priv & Hin & Hp & He). exists (name, privs).
    split; [by apply list_elem_of_In|]. simpl. apply in_flat_map.
    exists priv. split; [by apply list_elem_of_In|]. rewrite He. by left.
Qed.

(** Where the forward lookup takes its answer from: the first entry, in
    range order, whose key matches and whose list is not empty. *)
Lemma sdkMethodToAction_found (iamMap : iamMapBase) apiMethod :
  sdkMethodToAction EqualFold iamMap apiMethod ≠ "" →
  ∃ name priv privs, (name, priv :: privs) ∈ iamMap
    ∧ EqualFold name apiMethod = true
    ∧ sdkMethodToAction EqualFold iamMap apiMethod = Action priv.
Proof.
  induction iamMap as [|[name privs] iamMap IH]; simpl; [done|].
  destruct (EqualFold name apiMethod) eqn:He.
  - destruct privs as [|priv privs].
    + intros (n & p & ps & Hin & ? & ?)%IH. exists n, p, ps.
      split; [by right|done].
    + intros _. exists name, priv, privs. split; [by left|done].
  - intros (n & p & ps & Hin & ? & ?)%IH. exists n, p, ps.
    split; [by right|done].
Qed.

Lemma sdkMethodToAction_no_match (iamMap : iamMapBase) apiMethod :
  (∀ name privs, (name, privs) ∈ iamMap → EqualFold name apiMethod = false) →
  sdkMethodToAction EqualFold iamMap apiMethod = "".
Proof.
  induction iamMap as [|[name privs] iamMap IH]; simpl; [done|]. intros H.
  rewrite (H name privs) by (by left). apply IH.
  intros n ps ?. apply (H n ps). by right.
Qed.

Lemma sdkMethodToAction_unique (iamMap : iamMapBase) name priv privs :
  NoDup iamMap.*1 →
  (name, priv :: privs) ∈ iamMap →
  (∀ other ps, (other, ps) ∈ iamMap →
     EqualFold other name = true → other = name) →
  EqualFold name name = true →
  sdkMethodToAction EqualFold iamMap name = Action priv.
Proof.
  intros Hnd Hin Huniq Hrefl.
  induction iamMap as [|[n ps] iamMap IH]; simpl.
  { by apply elem_of_nil in Hin. }
  simpl in Hnd. apply NoDup_cons in Hnd as [Hfresh Hnd].
  apply elem_of_cons in Hin as [Heq|Hin].
  - injection Heq as <- <-. by rewrite Hrefl.
  - destruct (EqualFold n name) eqn:He.
    + assert (n = name) as -> by (apply (Huniq n ps); [by left|done]).
      exfalso. apply Hfresh. apply list_elem_of_fmap.
      by exists (name, priv :: privs).
    + apply IH; [done|done|]. intros other ps' ?. apply (Huniq other ps').
      by right.
Qed.

(** A key that matches with a list that is not empty always gives an
    answer, the first identifier of such an entry. *)
Lemma sdkMethodToAction_some (iamMap : iamMapBase) apiMethod :
  (∃ name priv privs, (name, priv :: privs) ∈ iamMap
     ∧ EqualFold name apiMethod = true) →
  ∃ name priv privs, (name, priv :: privs) ∈ iamMap
    ∧ EqualFold name apiMethod = true
    ∧ sdkMethodToAction EqualFold iamMap apiMethod = Action priv.
Proof.
  induction iamMap as [|[name privs] iamMap IH]; simpl.
  { by intros (? & ? & ? & ?%elem_of_nil & _). }
  intros (n & p & ps & Hin & He).
  assert ((name, privs) = (n, p :: ps) ∨ (n, p :: ps) ∈ iamMap) as [Heq|Hin'].
  { apply elem_of_cons in Hin as [->|?]; auto. }
  - injection Heq as -> ->. rewrite He. exists n, p, ps.
    split; [by left|done].
  - destruct (IH (ex_intro _ n (ex_intro _ p (ex_intro _ ps (conj Hin' He)))))
      as (n' & p' & ps' & Hin'' & He' & Hres).
    destruct (EqualFold name apiMethod) eqn:Hname.
    + destruct privs as [|priv privs].
      * exists n', p', ps'. split; [by right|done].
      * exists name, priv, privs. split; [by left|done].
    + exists n', p', ps'. split; [by right|done].
Qed.

Lemma sdkMethodToAction_none (iamMap : iamMapBase) apiMethod :
  (∀ name priv privs, (name, priv :: privs) ∈ iamMap →
     EqualFold name apiMethod = false) →
  sdkMethodToAction EqualFold iamMap apiMethod = "".
Proof.
  induction iamMap as [|[name privs] iamMap IH]; simpl; [done|]. intros H.
  assert (sdkMethodToAction EqualFold iamMap apiMethod = "") as Hrest.
  { apply IH. intros n p ps ?. apply (H n p ps). by right. }
  destruct privs as [|priv privs]; [by destruct (EqualFold name apiMethod)|].
  by rewrite (H name priv privs) by (by left).
Qed.

Lemma NoDup_keys_value {A B} (l : list (A * B)) k v1 v2 :
  NoDup l.*1 → (k, v1) ∈ l → (k, v2) ∈ l → v1 = v2.
Proof.
  induction l as [|[k' v'] l IH]; simpl; [by intros _ ?%elem_of_nil|].
  intros [Hfresh Hnd]%NoDup_cons [H1|H1]%elem_of_cons [H2|H2]%elem_of_cons.
  - congruence.
  - injection H1 as <- <-. exfalso. apply Hfresh, list_elem_of_fmap.
    by exists (k, v2).
  - injection H2 as <- <-. exfalso. apply Hfresh, list_elem_of_fmap.
    by exists (k, v1).
  - by apply IH.
Qed.

Hypothesis EqualFold_sym : ∀ s t, EqualFold s t = true → EqualFold t s = true.
Hypothesis EqualFold_trans :
  ∀ s t u, EqualFold s t = true → EqualFold t u = true → EqualFold s u = true.

Lemma EqualFold_arg s a b :
  EqualFold a b = true → EqualFold s a = EqualFold s b.
Proof.
  intros Hab. destruct (EqualFold s a) eqn:Ha, (EqualFold s b) eqn:Hb; try done.
  - by rewrite (EqualFold_trans s a b) in Hb.
  - by rewrite (EqualFold_trans s b a) in Ha; [|done|apply EqualFold_sym].
Qed.

Lemma sdkMethodToAction_fold (iamMap : iamMapBase) a b :
  EqualFold a b = true →
  sdkMethodToAction EqualFold iamMap a = sdkMethodToAction EqualFold iamMap b.
Proof.
  intros Hab. induction iamMap as [|[name privs] iamMap IH]; simpl; [done|].
  rewrite (EqualFold_arg name a b Hab), IH. done.
Qed.

Lemma actionToSDKMethods_fold (iamMap : iamMapBase) a b :
  EqualFold a b = true →
  actionToSDKMethods EqualFold iamMap a = actionToSDKMethods EqualFold iamMap b.
Proof.
  intros Hab. unfold actionToSDKMethods.
  apply flat_map_ext. intros [name privs]. simpl.
  apply flat_map_ext. intros priv. by rewrite (EqualFold_arg _ a b Hab).
Qed.

(** With keys that are pairwise different up to letter case, at most one
    entry matches, and the range order of the table does not matter. *)
Lemma sdkMethodToAction_Permutation (iamMap iamMap' : iamMapBase) a b :
  NoDup iamMap.*1 →
  (∀ k1 k2, k1 ∈ iamMap.*1 → k2 ∈ iamMap.*1 → EqualFold k1 k2 = true → k1 = k2) →
  iamMap ≡ₚ iamMap' → EqualFold a b = true →
  sdkMethodToAction EqualFold iamMap a = sdkMethodToAction EqualFold iamMap' b.
Proof.
  intros Hnd Huniq Hperm Hab.
  rewrite <- (sdkMethodToAction_fold iamMap' a b Hab).
  destruct (decide (Exists (λ e : string * list iamMapMethod,
                              EqualFold e.1 a = true ∧ e.2 ≠ []) iamMap))
    as [Hex|Hno].
  - apply Exists_exists in Hex as ([n [|p ps]] & Hin & He & Hne); [done|].
    simpl in He.
    destruct (sdkMethodToAction_some iamMap a) as (n1 & p1 & ps1 & H1 & He1 & ->);
      [by eauto|].
    destruct (sdkMethodToAction_some iamMap' a) as (n2 & p2 & ps2 & H2 & He2 & ->).
    { exists n, p, ps. by rewrite <- Hperm. }
    rewrite <- Hperm in H2.
    assert (n1 = n2) as <-.
    { apply Huniq.
      - apply list_elem_of_fmap. by exists (n1, p1 :: ps1).
      - apply list_elem_of_fmap. by exists (n2, p2 :: ps2).
      - apply (EqualFold_trans n1 a n2); [done|]. by apply EqualFold_sym. }
    pose proof (NoDup_keys_value iamMap n1 _ _ Hnd H1 H2) as Heq.
    by injection Heq as -> _.
  - assert (∀ name priv privs, (name, priv :: privs) ∈ iamMap →
              EqualFold name a = false) as Hnone.
    { intros n p ps Hin. destruct (EqualFold n a) eqn:He; [|done].
      exfalso. apply Hno, Exists_exists. by exists (n, p :: ps). }
    rewrite !sdkMethodToAction_none; [done| |done].
    intros n p ps Hin. apply (Hnone n p ps). by rewrite Hperm.
Qed.

End mapping.

(** C3, as amended: for an operation name that is a key of the table with a
    list of one or more permission identifiers, and that no other key equals
    up to letter case, [sdkMethodToAction] returns the first identifier of
    that list (one string, not the list); for a name that no key equals up to
    letter case it returns the empty string, not an error. *)
Theorem sdkMethodToAction_first_action
    (EqualFold : string → string → bool) (iamMap : iamMapBase) :
  (∀ s, EqualFold s s = true) → NoDup iamMap.*1 →
  (∀ name priv privs,
      (name, priv :: privs) ∈ iamMap →
      (∀ other ps, (other, ps) ∈ iamMap →
         EqualFold other name = true → other = name) →
      sdkMethodToAction EqualFold iamMap name = Action priv)
  ∧ (∀ name,
      (∀ key ps, (key, ps) ∈ iamMap → EqualFold key name = false) →
      sdkMethodToAction EqualFold iamMap name = "").
Proof.
  intros Hrefl Hnd. split.
  - intros name priv privs Hin Huniq.
    by apply (sdkMethodToAction_unique EqualFold iamMap name priv privs).
  - intros name Hno. by apply sdkMethodToAction_no_match.
Qed.

Lemma sdkMethodToAction_first_action_witness :
  (∀ s, EqualFoldASCII s s = true) ∧ NoDup ssmMap.*1
  ∧ sdkMethodToAction EqualFoldASCII ssmMap "SSM.GetParameter" = "ssm:GetParameter"
  ∧ sdkMethodToAction EqualFoldASCII ssmMap "SSM.DeleteParameter" = "".
Proof.
  assert (NoDup ssmMap.*1) as Hnd by compute_done.
  split; [exact EqualFoldASCII_refl|]. split; [exact Hnd|].
  destruct (sdkMethodToAction_first_action EqualFoldASCII ssmMap
              EqualFoldASCII_refl Hnd) as [Hfirst Hnone].
  split.
  - apply (Hfirst "SSM.GetParameter" (mkMethod "ssm:GetParameter")
             [mkMethod "kms:Decrypt"]); [compute_done|].
    apply (Forall_pairs (λ other _, EqualFoldASCII other _ = true → other = _)).
    compute_done.
  - apply Hnone.
    apply (Forall_pairs (λ key _, EqualFoldASCII key _ = false)).
    compute_done.
Defined.

(** C3 as stated fails: SSM.GetParameter is a key with two identifiers and
    only the first is returned; and a name that is not a key but equals one
    up to letter case does not give the empty result. *)
Lemma sdkMethodToAction_not_all_identifiers :
  ("SSM.GetParameter", [mkMethod "ssm:GetParameter"; mkMethod "kms:Decrypt"])
    ∈ ssmMap
  ∧ sdkMethodToAction EqualFoldASCII ssmMap "SSM.GetParameter" = "ssm:GetParameter"
  ∧ sdkMethodToAction EqualFoldASCII ssmMap "SSM.GetParameter" ≠ "kms:Decrypt"
  ∧ ("ssm.putparameter" ∉ ssmMap.*1)
  ∧ sdkMethodToAction EqualFoldASCII ssmMap "ssm.putparameter" = "ssm:PutParameter".
Proof. repeat split; compute_done. Qed.

(** C4: for every operation name of the table with permission list [privs]
    and every identifier in [privs], the reverse lookup of that identifier
    contains the operation name. *)
Theorem mapping_round_trip
    (EqualFold : string → string → bool) (iamMap : iamMapBase)
    (name : string) (privs : list iamMapMethod) (priv : iamMapMethod) :
  (∀ s, EqualFold s s = true) →
  (name, privs) ∈ iamMap → priv ∈ privs →
  name ∈ actionToSDKMethods EqualFold iamMap (Action priv).
Proof.
  intros Hrefl Hin Hp. apply elem_of_actionToSDKMethods. eauto.
Qed.

Lemma mapping_round_trip_witness :
  (∀ s, EqualFoldASCII s s = true)
  ∧ ("SSM.GetParameter", [mkMethod "ssm:GetParameter"; mkMethod "kms:Decrypt"])
      ∈ ssmMap
  ∧ mkMethod "kms:Decrypt" ∈ [mkMethod "ssm:GetParameter"; mkMethod "kms:Decrypt"]
  ∧ "SSM.GetParameter" ∈ actionToSDKMethods EqualFoldASCII ssmMap "kms:Decrypt".
Proof.
  split; [exact EqualFoldASCII_refl|].
  split; [compute_done|]. split; [compute_done|].
  apply (mapping_round_trip EqualFoldASCII ssmMap "SSM.GetParameter"
           [mkMethod "ssm:GetParameter"; mkMethod "kms:Decrypt"]
           (mkMethod "kms:Decrypt") EqualFoldASCII_refl);
    compute_done.
Defined.

(** C7, as amended: both lookups compare whole names with
    [strings.EqualFold] and nothing else.  The reverse lookup returns exactly
    the keys of the entries that list an identifier equal to the argument up
    to letter case; for two arguments equal up to case and two range orders
    of the table its results hold the same keys, in an order that follows
    the range.  The forward lookup returns the first identifier of an entry
    with a non-empty list whose key equals the argument up to case, and the
    empty string when there is none; for two arguments equal up to case it
    gives the same result in two range orders of the table when no two keys
    of the table are equal up to case.  Within one range order both lookups
    give equal results for arguments equal up to case. *)
Theorem lookups_case_insensitive_exact
    (EqualFold : string → string → bool) (iamMap iamMap' : iamMapBase)
    (a b : string) :
  (∀ s t, EqualFold s t = true → EqualFold t s = true) →
  (∀ s t u, EqualFold s t = true → EqualFold t u = true → EqualFold s u = true) →
  iamMap ≡ₚ iamMap' → EqualFold a b = true →
  actionToSDKMethods EqualFold iamMap a ≡ₚ actionToSDKMethods EqualFold iamMap' b
  ∧ (∀ name, name ∈ actionToSDKMethods EqualFold iamMap a ↔
       ∃ privs priv, (name, privs) ∈ iamMap ∧ priv ∈ privs
         ∧ EqualFold (Action priv) a = true)
  ∧ ((∃ name priv privs, (name, priv :: privs) ∈ iamMap
        ∧ EqualFold name a = true) →
     ∃ name priv privs, (name, priv :: privs) ∈ iamMap
       ∧ EqualFold name a = true
       ∧ sdkMethodToAction EqualFold iamMap a = Action priv)
  ∧ ((∀ name priv privs, (name, priv :: privs) ∈ iamMap →
        EqualFold name a = false) →
     sdkMethodToAction EqualFold iamMap a = "")
  ∧ (NoDup iamMap.*1 →
     (∀ k1 k2, k1 ∈ iamMap.*1 → k2 ∈ iamMap.*1 →
        EqualFold k1 k2 = true → k1 = k2) →
     sdkMethodToAction EqualFold iamMap a = sdkMethodToAction EqualFold iamMap' b)
  ∧ sdkMethodToAction EqualFold iamMap a = sdkMethodToAction EqualFold iamMap b
  ∧ actionToSDKMethods EqualFold iamMap a = actionToSDKMethods EqualFold iamMap b.
Proof.
  intros Hsym Htrans Hperm Hab. split.
  { rewrite (actionToSDKMethods_fold EqualFold Hsym Htrans iamMap a b Hab).
    unfold actionToSDKMethods. by apply Permutation_flat_map. }
  split; [intros name; apply elem_of_actionToSDKMethods|].
  split; [apply sdkMethodToAction_some|].
  split; [apply sdkMethodToAction_none|].
  split; [intros Hnd Huniq; by apply sdkMethodToAction_Permutation|].
  split; [by apply sdkMethodToAction_fold|by apply actionToSDKMethods_fold].
Qed.

Lemma unique_keys_check (EqualFold : string → string → bool) (keys : list string) :
  Forall (λ k1, Forall (λ k2, EqualFold k1 k2 = true → k1 = k2) keys) keys →
  ∀ k1 k2, k1 ∈ keys → k2 ∈ keys → EqualFold k1 k2 = true → k1 = k2.
Proof.
  intros H k1 k2 H1 H2.
  apply (proj1 (Forall_forall _ _) (proj1 (Forall_forall _ _) H k1 H1) k2 H2).
Qed.

Lemma lookups_case_insensitive_exact_witness :
  ssmMap ≡ₚ reverse ssmMap
  ∧ EqualFoldASCII "ssm.putparameter" "SSM.PUTPARAMETER" = true
  ∧ sdkMethodToAction EqualFoldASCII ssmMap "ssm.putparameter" = "ssm:PutParameter"
  ∧ sdkMethodToAction EqualFoldASCII ssmMap "ssm.putparameter"
    = sdkMethodToAction EqualFoldASCII (reverse ssmMap) "SSM.PUTPARAMETER"
  ∧ EqualFoldASCII "KMS:DECRYPT" "kms:decrypt" = true
  ∧ actionToSDKMethods EqualFoldASCII ssmMap "KMS:DECRYPT"
    = ["SSM.GetParameter"; "SSM.GetParameters"]
  ∧ actionToSDKMethods EqualFoldASCII ssmMap "KMS:DECRYPT"
    ≡ₚ actionToSDKMethods EqualFoldASCII (reverse ssmMap) "kms:decrypt".
Proof.
  assert (ssmMap ≡ₚ reverse ssmMap) as Hperm
    by (symmetry; apply reverse_Permutation).
  assert (EqualFoldASCII "ssm.putparameter" "SSM.PUTPARAMETER" = true) as Hput
    by (vm_compute; reflexivity).
  assert (EqualFoldASCII "KMS:DECRYPT" "kms:decrypt" = true) as Hkms
    by (vm_compute; reflexivity).
  assert (NoDup ssmMap.*1) as Hnd by compute_done.
  assert (∀ k1 k2, k1 ∈ ssmMap.*1 → k2 ∈ ssmMap.*1 →
            EqualFoldASCII k1 k2 = true → k1 = k2) as Huniq
    by (apply unique_keys_check; compute_done).
  split; [exact Hperm|]. split; [exact Hput|].
  split; [vm_compute; reflexivity|].
  split.
  { exact (proj1 (proj2 (proj2 (proj2 (proj2
             (lookups_case_insensitive_exact EqualFoldASCII ssmMap (reverse ssmMap)
                "ssm.putparameter" "SSM.PUTPARAMETER"
                EqualFoldASCII_sym EqualFoldASCII_trans Hperm Hput))))) Hnd Huniq). }
  split; [exact Hkms|]. split; [vm_compute; reflexivity|].
  exact (proj1 (lookups_case_insensitive_exact EqualFoldASCII ssmMap (reverse ssmMap)
                  "KMS:DECRYPT" "kms:decrypt"
                  EqualFoldASCII_sym EqualFoldASCII_trans Hperm Hkms)).
Defined.

(** C7 as stated fails: Go draws a new range order at each range statement,
    and with two keys that differ in letter case only the forward lookup of
    one and the same argument gives different results in two orders; the
    reverse lookup gives the same keys in another order. *)
Lemma lookups_depend_on_range_order :
  NoDup foldedMap.*1 ∧ foldedMap ≡ₚ reverse foldedMap
  ∧ EqualFoldASCII "SSM.GetParameter" "ssm.getparameter" = true
  ∧ sdkMethodToAction EqualFoldASCII foldedMap "SSM.GetParameter"
    = "ssm:GetParameter"
  ∧ sdkMethodToAction EqualFoldASCII (reverse foldedMap) "SSM.GetParameter"
    = "kms:Decrypt"
  ∧ sdkMethodToAction EqualFoldASCII (reverse foldedMap) "ssm.getparameter"
    = "kms:Decrypt"
  ∧ actionToSDKMethods EqualFoldASCII ssmMap "kms:Decrypt"
    = ["SSM.GetParameter"; "SSM.GetParameters"]
  ∧ actionToSDKMethods EqualFoldASCII (reverse ssmMap) "KMS:DECRYPT"
    = ["SSM.GetParameters"; "SSM.GetParameter"].
Proof.
  split; [compute_done|]. split; [symmetry; apply reverse_Permutation|].
  repeat split; vm_compute; reflexivity.
Qed.

(** No wildcard: a pattern is looked up as a plain name. *)
Example no_wildcard_lookup :
  actionToSDKMethods EqualFoldASCII ssmMap "ssm:Get*" = []
  ∧ actionToSDKMethods EqualFoldASCII ssmMap "KMS:decrypt"
    = ["SSM.GetParameter"; "SSM.GetParameters"]
  ∧ sdkMethodToAction EqualFoldASCII ssmMap "SSM.*" = "".
Proof. repeat split; vm_compute; reflexivity. Qed.

(** ** Strings *)

Lemma bytes_app s t : bytes (s +:+ t) = bytes s ++ bytes t.
Proof. induction s as [|c s IH]; [done|]. unfold bytes in *. simpl. by rewrite <- IH. Qed.

Lemma bytes_inj s t : bytes s = bytes t → s = t.
Proof.
  unfold bytes. intros H.
  rewrite <- (String.string_of_list_ascii_of_string s),
          <- (String.string_of_list_ascii_of_string t).
  by rewrite H.
Qed.

Lemma bytes_of_list l : bytes (String.string_of_list_ascii l) = l.
Proof. apply String.list_ascii_of_string_of_list_ascii. Qed.

Lemma HasPrefix_spec s p : HasPrefix s p = true ↔ ∃ r, s = p +:+ r.
Proof.
  unfold HasPrefix. rewrite bool_decide_eq_true. split.
  - intros [k Hk]. exists (String.string_of_list_ascii k).
    apply bytes_inj. by rewrite bytes_app, bytes_of_list.
  - intros [r ->]. exists (bytes r). apply bytes_app.
Qed.

Lemma HasSuffix_spec s x : HasSuffix s x = true ↔ ∃ r, s = r +:+ x.
Proof.
  unfold HasSuffix. rewrite bool_decide_eq_true. split.
  - intros [k Hk]. exists (String.string_of_list_ascii k).
    apply bytes_inj. by rewrite bytes_app, bytes_of_list.
  - intros [r ->]. exists (bytes r). apply bytes_app.
Qed.

Lemma TrimSuffix_app r x : TrimSuffix (r +:+ x) x = r.
Proof.
  unfold TrimSuffix. rewrite (proj2 (HasSuffix_spec _ _)) by eauto.
  apply bytes_inj. rewrite bytes_of_list, bytes_app, length_app.
  replace (length (bytes r) + length (bytes x) - length (bytes x))
    with (length (bytes r)) by lia.
  by rewrite take_app_length.
Qed.

Lemma HasSuffix_last s x c :
  HasSuffix s x = true → last (bytes x) = Some c → last (bytes s) = Some c.
Proof.
  intros [r ->]%HasSuffix_spec Hc. by rewrite bytes_app, last_app, Hc.
Qed.

Lemma Request_not_new_or_Set s :
  HasSuffix s "Request" = true →
  HasSuffix s "new" = false ∧ HasSuffix s "Set" = false.
Proof.
  intros H. pose proof (HasSuffix_last s "Request" "t"%char H eq_refl) as Ht.
  split.
  - destruct (HasSuffix s "new") eqn:Hn; [|done].
    pose proof (HasSuffix_last s "new" "w"%char Hn eq_refl). congruence.
  - destruct (HasSuffix s "Set") eqn:Hn; [|done].
    rewrite (HasSuffix_last s "Set" "t"%char Hn eq_refl) in Ht. 
    apply HasSuffix_spec in H as [r ->], Hn as [r' Hr'].
    apply (f_equal bytes) in Hr'. rewrite !bytes_app in Hr'.
    apply (f_equal reverse) in Hr'. rewrite !reverse_app in Hr'.
    vm_compute (reverse (bytes "Request")) in Hr'.
    vm_compute (reverse (bytes "Set")) in Hr'. simpl in Hr'. congruence.
Qed.

Lemma v2_not_v1_package s :
  HasPrefix s "github.com/aws/aws-sdk-go-v2/service/" = true →
  HasPrefix s "github.com/aws/aws-sdk-go/service/" = false.
Proof.
  intros [r ->]%HasPrefix_spec.
  destruct (HasPrefix _ "github.com/aws/aws-sdk-go/service/") eqn:H; [|done].
  apply HasPrefix_spec in H as [r' H]. apply (f_equal bytes) in H.
  rewrite !bytes_app in H.
  vm_compute (bytes "github.com/aws/aws-sdk-go-v2/service/") in H.
  vm_compute (bytes "github.com/aws/aws-sdk-go/service/") in H.
  simpl in H. congruence.
Qed.

(** The -why format accepts letters only: an action of a service with a
    digit in its name is refused. *)
Example whyFormat_examples :
  whyFormat "ssm:GetParameter" = true ∧ whyFormat "a:b" = true
  ∧ whyFormat "s3:GetObject" = false ∧ whyFormat "ssm:" = false
  ∧ whyFormat ":Get" = false ∧ whyFormat "ssm" = false
  ∧ whyFormat "a:b:c" = false ∧ whyFormat "ssm:Get*" = false.
Proof. repeat split; vm_compute; reflexivity. Qed.

Example Split_examples :
  Split "SSM.GetParameter" "."%char = ["SSM"; "GetParameter"]
  ∧ Split "SSM" "."%char = ["SSM"] ∧ Split "" "."%char = [""]
  ∧ Split "a.b." "."%char = ["a"; "b"; ""]
  ∧ possibleFunctionNames ToLowerASCII "SSM.GetParameter"
    = Return ["(*github.com/aws/aws-sdk-go/service/ssm.SSM).GetParameterRequest";
              "(*github.com/aws/aws-sdk-go-v2/service/ssm.Client).GetParameter"]
  ∧ possibleFunctionNames ToLowerASCII "SSM" = Panic.
Proof. repeat split; vm_compute; reflexivity. Qed.

(** ** The classifier *)

Lemma isAWSSDKv2Call_spec prog fn :
  isAWSSDKv2Call prog fn = true ↔ v2_convention prog fn.
Proof.
  unfold isAWSSDKv2Call, v2_convention.
  by rewrite andb_true_iff, HasPrefix_spec, HasSuffix_spec.
Qed.

Lemma isAWSSDKv1Call_spec prog fn :
  isAWSSDKv1Call prog fn = true ↔ v1_convention prog fn.
Proof.
  unfold isAWSSDKv1Call, v1_convention.
  rewrite !andb_true_iff, !negb_true_iff, HasPrefix_spec, !HasSuffix_spec.
  split.
  - intros ((? & ?) & ((? & _) & _)). auto.
  - intros (? & ? & Hreq). split; [done|].
    pose proof (proj2 (HasSuffix_spec _ _) Hreq) as Hreq'.
    by destruct (Request_not_new_or_Set _ Hreq').
Qed.

Lemma v2_excludes_v1 prog fn : v2_convention prog fn → ¬ v1_convention prog fn.
Proof.
  intros [H2%HasPrefix_spec _] [H1%HasPrefix_spec _].
  apply v2_not_v1_package in H2. congruence.
Qed.

(** C2: a function is classified ([sdkVersion] is not empty) exactly when its
    package path has the prefix of one SDK generation and its declaration
    file (and, for v1, its name) follows that generation's convention; the
    method name handed to the permission lookup is [service.Method] for both
    generations, the v1 suffix [Request] removed. *)
Theorem sdkVersion_classifies (prog : Program) (fn : Fn) :
  (sdkVersion prog fn ≠ "" ↔ v2_convention prog fn ∨ v1_convention prog fn)
  ∧ (sdkVersion prog fn = "v2" ↔ v2_convention prog fn)
  ∧ (sdkVersion prog fn = "v1" ↔ v1_convention prog fn)
  ∧ (v2_convention prog fn →
       sdkMethodName prog fn = PkgName prog fn +:+ "." +:+ Name prog fn)
  ∧ (∀ method, v1_convention prog fn → Name prog fn = method +:+ "Request" →
       sdkMethodName prog fn = PkgName prog fn +:+ "." +:+ method)
  ∧ (∀ fn2 method, v1_convention prog fn → v2_convention prog fn2 →
       PkgName prog fn = PkgName prog fn2 →
       Name prog fn = method +:+ "Request" → Name prog fn2 = method →
       sdkMethodName prog fn = sdkMethodName prog fn2).
Proof.
  assert (sdkVersion prog fn = "v2" ↔ v2_convention prog fn) as Hv2.
  { rewrite <- isAWSSDKv2Call_spec. unfold sdkVersion.
    destruct (isAWSSDKv2Call prog fn); [done|].
    destruct (isAWSSDKv1Call prog fn); split; done. }
  assert (sdkVersion prog fn = "v1" ↔ v1_convention prog fn) as Hv1.
  { split.
    - unfold sdkVersion. destruct (isAWSSDKv2Call prog fn) eqn:H2; [done|].
      destruct (isAWSSDKv1Call prog fn) eqn:H1; [|done].
      intros _. by apply isAWSSDKv1Call_spec.
    - intros H1. unfold sdkVersion.
      destruct (isAWSSDKv2Call prog fn) eqn:H2.
      + apply isAWSSDKv2Call_spec in H2. by destruct (v2_excludes_v1 prog fn).
      + apply isAWSSDKv1Call_spec in H1. by rewrite H1. }
  assert (∀ f, v2_convention prog f →
            sdkMethodName prog f = PkgName prog f +:+ "." +:+ Name prog f) as Hn2.
  { intros f Hf. unfold sdkMethodName.
    assert (sdkVersion prog f = "v2") as ->; [|done].
    unfold sdkVersion. apply isAWSSDKv2Call_spec in Hf. by rewrite Hf. }
  assert (∀ method, v1_convention prog fn → Name prog fn = method +:+ "Request" →
            sdkMethodName prog fn = PkgName prog fn +:+ "." +:+ method) as Hn1.
  { intros method Hf Hname. unfold sdkMethodName.
    rewrite (proj2 Hv1 Hf), decide_True by done.
    by rewrite Hname, TrimSuffix_app. }
  split; [|split; [done|split; [done|split; [by apply Hn2|split; [done|]]]]].
  - rewrite <- Hv2, <- Hv1. unfold sdkVersion.
    destruct (isAWSSDKv2Call prog fn); [by split; auto|].
    destruct (isAWSSDKv1Call prog fn); [by split; auto|].
    split; [done|]. by intros [|].
  - intros fn2 method H1 H2 Hpkg Hname Hname2.
    rewrite (Hn1 method H1 Hname), (Hn2 fn2 H2). by rewrite Hpkg, Hname2.
Qed.



Lemma sdkVersion_classifies_witness :
  v1_convention demoProgram 6 ∧ v2_convention demoProgram 3
  ∧ PkgName demoProgram 6 = PkgName demoProgram 3
  ∧ Name demoProgram 6 = "GetParameter" +:+ "Request"
  ∧ Name demoProgram 3 = "GetParameter"
  ∧ sdkVersion demoProgram 6 = "v1" ∧ sdkVersion demoProgram 3 = "v2"
  ∧ sdkMethodName demoProgram 6 = sdkMethodName demoProgram 3.
Proof.
  assert (v1_convention demoProgram 6) as H1.
  { apply isAWSSDKv1Call_spec. vm_compute. reflexivity. }
  assert (v2_convention demoProgram 3) as H2.
  { apply isAWSSDKv2Call_spec. vm_compute. reflexivity. }
  split; [exact H1|]. split; [exact H2|].
  split; [reflexivity|]. split; [reflexivity|]. split; [reflexivity|].
  split; [vm_compute; reflexivity|]. split; [vm_compute; reflexivity|].
  exact (proj2 (proj2 (proj2 (proj2 (proj2 (sdkVersion_classifies demoProgram 6)))))
           3 "GetParameter" H1 H2 eq_refl eq_refl eq_refl).
Defined.

(** The synthetic initializer and a function outside the SDK are left out;
    the v1 and the v2 operation give the same method name; PutParameter has
    no call path and is kept only with -reflection. *)
Example sdkCall_examples :
  sdkCall (graphOf demoLoaded) false 0 = Return None
  ∧ sdkCall (graphOf demoLoaded) false 2 = Return None
  ∧ sdkCall (graphOf demoLoaded) false 3 = Return (Some "ssm.GetParameter")
  ∧ sdkCall (graphOf demoLoaded) false 6 = Return (Some "ssm.GetParameter")
  ∧ sdkCall (graphOf demoLoaded) false 7 = Return None
  ∧ sdkCall (graphOf demoLoaded) true 7 = Return (Some "ssm.PutParameter").
Proof. repeat split; vm_compute; reflexivity. Qed.

(** ** The listing loop of main *)

Section listing.

Context (g : graph).

Lemma sdkCall_reflection fn :
  ∃ m, sdkCall g true fn = Return m
       ∧ ∀ m', sdkCall g false fn = Return (Some m') → m = Some m'.
Proof.
  unfold sdkCall.
  destruct (negb (bool_decide (Synthetic (program g) fn = "")));
    [by exists None|].
  destruct (negb (bool_decide (Parent (program g) _ = None)));
    [by exists None|].
  destruct (bool_decide (sdkVersion (program g) _ = ""));
    [by exists None|].
  eexists. split; [done|]. intros m'.
  destruct (findPath _ _ _) as [[p|]| |]; simpl; congruence.
Qed.

Lemma sdkCalls_reflection fns :
  ∃ on, sdkCalls g true fns = Return on
        ∧ ∀ off, sdkCalls g false fns = Return off → sublist off on.
Proof.
  induction fns as [|[fn taken] fns (on & Hon & IH)]; simpl.
  - exists []. split; [done|]. by intros off [= <-].
  - destruct (sdkCall_reflection fn) as (m & Hm & Hoff).
    rewrite Hm, Hon. simpl. eexists. split; [done|].
    intros off (m' & Hm' & (off' & Hoff' & [= <-])%obind_Return)%obind_Return.
    apply sublist_app; [|by apply IH].
    destruct m' as [x|]; [by rewrite (Hoff x Hm')|].
    apply sublist_nil_l.
Qed.

Lemma elem_of_sdkCalls reflection fns methods x :
  sdkCalls g reflection fns = Return methods →
  x ∈ methods ↔ ∃ fn, fn ∈ fns.*1 ∧ sdkCall g reflection fn = Return (Some x).
Proof.
  revert methods. induction fns as [|[fn taken] fns IH]; simpl; intros methods.
  - intros [= <-]. split; [by intros ?%elem_of_nil|].
    by intros (? & ?%elem_of_nil & _).
  - intros (m & Hm & (ms & Hms & [= <-])%obind_Return)%obind_Return.
    rewrite elem_of_app, (IH ms Hms). split.
    + intros [Hx|(f & Hf & Hc)].
      * exists fn. split; [by left|]. destruct m as [y|]; simpl in Hx.
        -- apply list_elem_of_singleton in Hx. by subst.
        -- by apply elem_of_nil in Hx.
      * exists f. split; [by right|done].
    + intros (f & [->|Hf]%elem_of_cons & Hc).
      * left. rewrite Hm in Hc. injection Hc as ->. simpl. by left.
      * right. eauto.
Qed.

Lemma sdkCalls_Permutation reflection fns fns' methods :
  fns ≡ₚ fns' → sdkCalls g reflection fns = Return methods →
  ∃ methods', sdkCalls g reflection fns' = Return methods' ∧ methods ≡ₚ methods'.
Proof.
  intros Hperm. revert methods.
  induction Hperm as [|[fn t] l l' _ IH|[f1 t1] [f2 t2] l|l l' l'' _ IH1 _ IH2];
    intros methods; simpl.
  - intros [= <-]. by exists [].
  - intros (m & Hm & (ms & Hms & [= <-])%obind_Return)%obind_Return.
    destruct (IH ms Hms) as (ms' & -> & Hp). rewrite Hm. simpl.
    eexists. split; [done|]. by rewrite Hp.
  - intros (m2 & Hm2 & (ms & (m1 & Hm1 & (ms' & Hms' & [= <-])%obind_Return)
             %obind_Return & [= <-])%obind_Return)%obind_Return.
    rewrite Hm1, Hm2, Hms'. simpl. eexists. split; [done|].
    rewrite !app_assoc. apply Permutation_app_tail, Permutation_app_comm.
  - intros Hm. destruct (IH1 _ Hm) as (m' & Hm' & Hp1).
    destruct (IH2 _ Hm') as (m'' & Hm'' & Hp2).
    exists m''. split; [done|]. by etrans.
Qed.

End listing.

Lemma iamActionsOf_mono EqualFold iamMap (off on : list string) :
  off ⊆ on →
  iamActionsOf EqualFold iamMap off ⊆ iamActionsOf EqualFold iamMap on.
Proof.
  intros H x. unfold iamActionsOf. rewrite !list_elem_of_filter, !list_elem_of_fmap.
  intros (? & m & -> & ?). split; [done|]. exists m. split; [done|]. by apply H.
Qed.

(** C6: for a fixed program model, every line reported without -reflection is
    also reported with it; and the SDK methods collected without the flag
    are among those collected with it, whatever the order in which the two
    runs range over the reachable functions. *)
Theorem reflection_mode_superset
    (DeleteSyntheticNodes : Callgraph → Callgraph) (ToLower : string → string)
    (EqualFold : string → string → bool) (w : World)
    (test : bool) (tags : string) (sdkcalls : bool) (why : string) :
  (∀ line,
     line ∈ stdout (main DeleteSyntheticNodes ToLower EqualFold
                      (mkFlags test tags false sdkcalls why) w) →
     line ∈ stdout (main DeleteSyntheticNodes ToLower EqualFold
                      (mkFlags test tags true sdkcalls why) w))
  ∧ (∀ g fns fns' off on,
       fns ≡ₚ fns' →
       sdkCalls g false fns = Return off → sdkCalls g true fns' = Return on →
       off ⊆ on).
Proof.
  assert (∀ g fns fns' off on,
       fns ≡ₚ fns' →
       sdkCalls g false fns = Return off → sdkCalls g true fns' = Return on →
       off ⊆ on) as Hcalls.
  { intros g fns fns' off on Hperm Hoff Hon.
    destruct (sdkCalls_reflection g fns) as (on0 & Hon0 & Hsub).
    destruct (sdkCalls_Permutation g true fns fns' on0 Hperm Hon0)
      as (on1 & Hon1 & Hp).
    assert (on1 = on) as -> by congruence.
    intros x Hx. rewrite <- Hp. by apply (sublist_subseteq _ _ (Hsub off Hoff)). }
  split; [|exact Hcalls].
  intros line. unfold main. simpl.
  destruct (decide (length (args w) = 0)); [done|].
  destruct (negb (bool_decide (why = "")) && negb (whyFormat why)); [done|].
  destruct (analyze w test tags) as [e|g]; [done|].
  destruct (if negb sdkcalls then loadMap w else inr []) as [e|iamMap]; [done|].
  destruct (negb (bool_decide (why = ""))); [done|].
  unfold listMode. simpl.
  destruct (sdkCalls_reflection g (reachable g)) as (on & Hon & Hsub).
  rewrite Hon. simpl.
  destruct (sdkCalls g false (reachable g)) as [off| |] eqn:Hoff; simpl;
    [|by intros ?%elem_of_nil..].
  pose proof (Hcalls g _ _ off on (reflexivity _) Hoff Hon) as Hincl.
  destruct (decide (length off = 0)) as [|Hoff0]; [by intros ?%elem_of_nil|].
  destruct (decide (length on = 0)) as [Hon0|_].
  { apply nil_length_inv in Hon0. subst on. destruct off as [|x off]; [done|].
    by destruct (not_elem_of_nil x (Hincl x ltac:(left))). }
  destruct sdkcalls; simpl; [by apply Hincl|].
  pose proof (iamActionsOf_mono EqualFold iamMap off on Hincl) as Hact.
  destruct (decide (length (iamActionsOf EqualFold iamMap off) = 0));
    [by intros ?%elem_of_nil|].
  destruct (decide (length (iamActionsOf EqualFold iamMap on) = 0)) as [Ha0|_];
    [|by apply Hact].
  apply nil_length_inv in Ha0. intros Hx%Hact. by rewrite Ha0 in Hx.
Qed.

Lemma reflection_mode_superset_witness :
  "ssm:GetParameters"
    ∈ stdout (main keepAll ToLowerASCII EqualFoldASCII
                (mkFlags false "" false false "") (demoWorld ssmMap))
  ∧ "ssm:GetParameters"
    ∈ stdout (main keepAll ToLowerASCII EqualFoldASCII
                (mkFlags false "" true false "") (demoWorld ssmMap)).
Proof.
  assert ("ssm:GetParameters"
    ∈ stdout (main keepAll ToLowerASCII EqualFoldASCII
                (mkFlags false "" false false "") (demoWorld ssmMap))) as H
    by compute_done.
  split; [exact H|].
  exact (proj1 (reflection_mode_superset keepAll ToLowerASCII EqualFoldASCII
                  (demoWorld ssmMap) false "" false "")
           "ssm:GetParameters" H).
Defined.

(** With the flag the address-taken operation is reported as well. *)
Example reflection_mode_adds_calls :
  main keepAll ToLowerASCII EqualFoldASCII (listFlags false true) (demoWorld ssmMap)
  = Exit0 ["ssm.GetParameter"; "ssm.GetParameters"; "ssm.GetParameter"]
  ∧ main keepAll ToLowerASCII EqualFoldASCII (listFlags true true) (demoWorld ssmMap)
  = Exit0 ["ssm.GetParameter"; "ssm.GetParameters"; "ssm.GetParameter";
           "ssm.PutParameter"].
Proof. split; vm_compute; reflexivity. Qed.

(** ** How the process ends *)

Section exits.

Context (DeleteSyntheticNodes : Callgraph → Callgraph).
Context (ToLower : string → string) (EqualFold : string → string → bool).

Section after_the_flags.

Context (fl : Flags) (w : World).

Local Abbreviation failure := (failure DeleteSyntheticNodes ToLower EqualFold fl w).
Local Abbreviation verdict := (verdict DeleteSyntheticNodes ToLower EqualFold fl w).

Ltac other_failure :=
  let He := fresh "He" in
  intros ? He; destruct He;
  unfold ready, analysed, accepted, tableOf, graphOf in *;
  destruct_and?; simplify_eq/=;
  try match goal with
      | H1 : ?x = Return _, H2 : ?x = _ |- _ => rewrite H1 in H2; simplify_eq/=
      end;
  try match goal with
      | Hok : _ → ∃ m, mapJSON _ = inr m |- _ =>
          destruct Hok as [? ?]; [done|]
      end;
  first [done | lia | congruence | intuition (first [congruence | lia])].

Lemma verdict_fails e :
  failure e → (∀ e', failure e' → e = e') → e = Usage2 ∨ (∃ msg, e = Fatal msg) →
  verdict e.
Proof. intros H Hone _. by split. Qed.

Lemma verdict_none run :
  (∀ e, failure e → run = e) → run ≠ Usage2 → (∀ msg, run ≠ Fatal msg) →
  verdict run.
Proof.
  intros Hno Hu Hf. split; [done|]. intros [?|[msg ?]]; [done|by destruct (Hf msg)].
Qed.

Lemma main_verdict : verdict (main DeleteSyntheticNodes ToLower EqualFold fl w).
Proof.
  unfold main, analyze, loadMap.
  destruct (decide (length (args w) = 0)) as [Hargs|Hargs].
  { apply verdict_fails; [by constructor|other_failure|by left]. }
  destruct (decide (whyFlag fl = "")) as [Hwhy|Hwhy].
  - (* the listing mode *)
    rewrite (bool_decide_eq_true_2 _ Hwhy). simpl.
    assert (accepted fl w) as Hacc by (split; [done|by left]).
    destruct (loadErr (packages w (testFlag fl) (tagsFlag fl))) as [err|] eqn:Herr.
    { apply verdict_fails; [by apply load_failed|other_failure|eauto]. }
    destruct (decide (initial _ = 0)) as [Hinit|Hinit].
    { apply verdict_fails; [by apply no_packages|other_failure|eauto]. }
    destruct (decide (0 < printErrors _)) as [Hpe|Hpe].
    { apply verdict_fails; [by apply package_errors|other_failure|eauto]. }
    destruct (decide (length (mains _) = 0)) as [Hmains|Hmains].
    { apply verdict_fails; [apply no_main_packages; (done || lia)|other_failure|eauto]. }
    assert (analysed fl w) as Han.
    { split; [done|]. split; [done|]. split; [done|]. split; [lia|done]. }
    fold (graphOf (packages w (testFlag fl) (tagsFlag fl))).
    assert ((sdkcallsFlag fl = false → ∃ m, mapJSON w = inr m) →
            verdict (listMode EqualFold
              (graphOf (packages w (testFlag fl) (tagsFlag fl)))
              (tableOf fl w) fl)) as Hlist.
    { intros Hok. assert (ready fl w) as Hready by done. unfold listMode.
      destruct (sdkCalls _ (reflectionFlag fl) _) as [sdkMethods| |] eqn:Hcalls;
        simpl; [|apply verdict_none; [other_failure|done..]..].
      destruct (decide (length sdkMethods = 0)) as [H0|H0].
      { apply nil_length_inv in H0. subst.
        apply verdict_fails; [by apply no_sdk_calls|other_failure|eauto]. }
      destruct (sdkcallsFlag fl) eqn:Hsdk;
        [apply verdict_none; [other_failure|done..]|].
      destruct (decide (length (iamActionsOf EqualFold _ sdkMethods) = 0))
        as [Ha|Ha].
      { apply verdict_fails;
          [by apply (no_iam_actions _ _ _ _ _ sdkMethods)|other_failure|eauto]. }
      apply verdict_none; [other_failure|done..]. }
    unfold tableOf in Hlist.
    destruct (sdkcallsFlag fl) eqn:Hsdk; simpl; [by apply Hlist|].
    destruct (mapJSON w) as [err|m] eqn:Hmap; [|apply Hlist; eauto].
    apply verdict_fails; [by apply table_failed|other_failure|eauto].
  - (* the -why mode *)
    rewrite (bool_decide_eq_false_2 _ Hwhy). simpl.
    destruct (whyFormat (whyFlag fl)) eqn:Hformat; simpl.
    2: { apply verdict_fails; [by apply malformed_why|other_failure|eauto]. }
    assert (accepted fl w) as Hacc by (split; [done|by right]).
    destruct (loadErr (packages w (testFlag fl) (tagsFlag fl))) as [err|] eqn:Herr.
    { apply verdict_fails; [by apply load_failed|other_failure|eauto]. }
    destruct (decide (initial _ = 0)) as [Hinit|Hinit].
    { apply verdict_fails; [by apply no_packages|other_failure|eauto]. }
    destruct (decide (0 < printErrors _)) as [Hpe|Hpe].
    { apply verdict_fails; [by apply package_errors|other_failure|eauto]. }
    destruct (decide (length (mains _) = 0)) as [Hmains|Hmains].
    { apply verdict_fails; [apply no_main_packages; (done || lia)|other_failure|eauto]. }
    assert (analysed fl w) as Han.
    { split; [done|]. split; [done|]. split; [done|]. split; [lia|done]. }
    fold (graphOf (packages w (testFlag fl) (tagsFlag fl))).
    assert ((sdkcallsFlag fl = false → ∃ m, mapJSON w = inr m) →
            verdict (whyMode DeleteSyntheticNodes ToLower EqualFold
              (graphOf (packages w (testFlag fl) (tagsFlag fl)))
              (tableOf fl w) (whyFlag fl))) as Hmode.
    { intros Hok. assert (ready fl w) as Hready by done. unfold whyMode.
      destruct (decide (length (actionToSDKMethods EqualFold _ _) = 0)) as [H0|H0].
      { apply verdict_fails; [by apply unknown_action|other_failure|eauto]. }
      destruct (whyMethods _ _ _ _) as [[g' [path|]]| |] eqn:Hm; simpl.
      - apply verdict_none; [other_failure|done..].
      - apply verdict_fails;
          [by apply (no_call_path _ _ _ _ _ g')|other_failure|eauto].
      - apply verdict_none; [other_failure|done..].
      - apply verdict_none; [other_failure|done..]. }
    unfold tableOf in Hmode.
    destruct (sdkcallsFlag fl) eqn:Hsdk; simpl; [by apply Hmode|].
    destruct (mapJSON w) as [err|m] eqn:Hmap; [|apply Hmode; eauto].
    apply verdict_fails; [by apply table_failed|other_failure|eauto].
Qed.

Lemma failure_deliberate e : failure e → e = Usage2 ∨ ∃ msg, e = Fatal msg.
Proof. destruct 1; eauto. Qed.

Lemma main_not_flag_exit :
  (∀ err, main DeleteSyntheticNodes ToLower EqualFold fl w ≠ BadFlag err)
  ∧ main DeleteSyntheticNodes ToLower EqualFold fl w ≠ Help.
Proof.
  set (own := λ e : Exit, match e with BadFlag _ | Help => False | _ => True end).
  assert (∀ A (o : outcome A) k, (∀ a, own (k a)) → own (exitOf o k)) as Hexit.
  { intros A [a| |] k H; simpl; auto. }
  assert (own (main DeleteSyntheticNodes ToLower EqualFold fl w)) as H.
  { unfold main, analyze, loadMap, whyMode, listMode.
    destruct (decide _); [done|]. destruct (_ && _); [done|].
    destruct (loadErr _); [done|].
    destruct (decide _); [done|]. destruct (decide _); [done|].
    destruct (decide _); [done|].
    destruct (negb (sdkcallsFlag fl)); [destruct (mapJSON w); [done|]|];
      (destruct (negb (bool_decide _));
       [destruct (decide _); [done|]; apply Hexit; intros [g' [path|]]; done
       |apply Hexit; intros sdkMethods; destruct (decide _); [done|];
        destruct (sdkcallsFlag fl); [done|]; by destruct (decide _)]). }
  split; [intros err Heq|intros Heq]; by rewrite Heq in H.
Qed.

End after_the_flags.

(** [flag.Parse] ends: every flag seen shortens the arguments. *)
Lemma parseOne_shorter fl args fl' args' :
  parseOne fl args = flagSeen fl' args' → length args' < length args.
Proof.
  unfold parseOne. destruct args as [|s args0]; [done|].
  repeat match goal with
         | |- context [match ?x with _ => _ end] => destruct x eqn:?
         end; try done; intros [= <- <-]; simpl; lia.
Qed.

Lemma parseLoop_total fuel : ∀ fl args,
  length args < fuel → ∃ r, parseLoop fuel fl args = Return r.
Proof.
  induction fuel as [|fuel IH]; intros fl args Hlen; [lia|]. simpl.
  destruct (parseOne fl args) as [fl' args'| |] eqn:Hone; [|by eauto..].
  apply IH. apply parseOne_shorter in Hone. lia.
Qed.

Lemma Parse_total arguments : ∃ r, Parse arguments = Return r.
Proof. apply parseLoop_total. lia. Qed.

Lemma iamgo_stop arguments w e :
  stop DeleteSyntheticNodes ToLower EqualFold arguments w e ↔
  iamgo DeleteSyntheticNodes ToLower EqualFold arguments w = e ∧ deliberate e.
Proof.
  unfold iamgo, deliberate. split.
  - intros [err Hp Herr|fl rest e' Hp Hf]; rewrite Hp; simpl.
    + split; [by destruct err|eauto].
    + split; [by apply main_verdict|].
      destruct (failure_deliberate fl (withArgs w rest) e' Hf) as [?|?]; auto.
  - destruct (Parse_total arguments) as ([err|[fl rest]] & Hp); rewrite Hp; simpl.
    + intros [<- Hd]. destruct err;
        try (apply bad_flag; [done|done]).
      by destruct Hd as [?|[[? ?]|[? ?]]].
    + intros [<- Hd]. apply (after_flags _ _ _ _ _ fl rest); [done|].
      apply main_verdict. destruct Hd as [?|[?|[err Herr]]]; auto.
      by destruct (proj1 (main_not_flag_exit fl (withArgs w rest)) err).
Qed.

End exits.

(** C8, as amended: the command ends through [os.Exit(2)] or [log.Fatal]
    exactly in the situations of [stop], and then in the way and with the
    message of the situation: a command line that [flag.Parse] refuses
    (status 2); no package argument (usage text, status 2); a malformed -why
    value; packages that fail to load, are missing or contain errors; no
    main package; a table that fails to load; no SDK method for the -why
    action; no call path for it; no SDK call found; no IAM action found for
    the SDK calls found (status 1 each).  The only other end with a status
    that is not zero is a run-time panic. *)
Theorem main_failures
    (DeleteSyntheticNodes : Callgraph → Callgraph) (ToLower : string → string)
    (EqualFold : string → string → bool) (arguments : list string) (w : World) :
  let run := iamgo DeleteSyntheticNodes ToLower EqualFold arguments w in
  (∀ e, stop DeleteSyntheticNodes ToLower EqualFold arguments w e →
        run = e ∧ (e = Usage2 ∨ (∃ msg, e = Fatal msg) ∨ (∃ err, e = BadFlag err))
        ∧ exits_nonzero run)
  ∧ (run = Usage2 ∨ (∃ msg, run = Fatal msg) ∨ (∃ err, run = BadFlag err) →
     stop DeleteSyntheticNodes ToLower EqualFold arguments w run)
  ∧ (exits_nonzero run ↔
     stop DeleteSyntheticNodes ToLower EqualFold arguments w run ∨ run = Crash).
Proof.
  intros run.
  assert (∀ e, deliberate e → exits_nonzero e) as Hnz.
  { intros e [->|[[msg ->]|[err ->]]]; eexists; (split; [reflexivity|done]). }
  split; [|split].
  - intros e [<- Hd]%iamgo_stop. split; [done|]. split; [done|]. by apply Hnz.
  - intros Hd. by apply iamgo_stop.
  - split.
    + intros (n & Hs & Hn). destruct run eqn:Hrun; simpl in Hs; simplify_eq.
      * left. apply iamgo_stop. split; [done|]. by left.
      * left. apply iamgo_stop. split; [done|]. right. left. eauto.
      * by right.
      * left. apply iamgo_stop. split; [done|]. right. right. eauto.
    + intros [[_ Hd]%iamgo_stop| ->]; [by apply Hnz|].
      exists 2. by split.
Qed.

Lemma main_failures_witness :
  stop keepAll ToLowerASCII EqualFoldASCII ["."] stsWorld
    (Fatal "found no needed AWS IAM permissions")
  ∧ iamgo keepAll ToLowerASCII EqualFoldASCII ["."] stsWorld
    = Fatal "found no needed AWS IAM permissions"
  ∧ stop keepAll ToLowerASCII EqualFoldASCII ["-why"; "s3:GetObject"; "."]
      (demoWorld ssmMap) (Fatal whyMessage)
  ∧ iamgo keepAll ToLowerASCII EqualFoldASCII ["-why"; "s3:GetObject"; "."]
      (demoWorld ssmMap) = Fatal whyMessage.
Proof.
  assert (stop keepAll ToLowerASCII EqualFoldASCII ["."] stsWorld
            (Fatal "found no needed AWS IAM permissions")) as H.
  { apply (after_flags _ _ _ _ _ (listFlags false false) ["."]);
      [vm_compute; reflexivity|].
    apply (no_iam_actions _ _ _ _ _ ["sts.GetCallerIdentity"]);
      try (vm_compute; reflexivity); try (simpl; lia).
    split; [|by eexists].
    split; [split; [simpl; lia|by left]|].
    split; [done|]. split; [simpl; lia|]. split; [done|simpl; lia]. }
  assert (stop keepAll ToLowerASCII EqualFoldASCII ["-why"; "s3:GetObject"; "."]
            (demoWorld ssmMap) (Fatal whyMessage)) as H'.
  { apply (after_flags _ _ _ _ _ (whyFlags "s3:GetObject") ["."]);
      [vm_compute; reflexivity|].
    apply malformed_why; [simpl; lia|done|vm_compute; reflexivity]. }
  split; [exact H|].
  split; [exact (proj1 (proj1 (main_failures keepAll ToLowerASCII EqualFoldASCII
                                 ["."] stsWorld) _ H))|].
  split; [exact H'|].
  exact (proj1 (proj1 (main_failures keepAll ToLowerASCII EqualFoldASCII
                         ["-why"; "s3:GetObject"; "."] (demoWorld ssmMap)) _ H')).
Defined.

(** C8 as stated fails twice.  The program model is built, a main package and
    an SDK call are found, no -why value is given, and the process still
    ends with status 1, because the call found needs no IAM action.  And a
    flag that is not defined ends the process with status 2 before any of
    the listed situations is met. *)
Lemma exit_outside_the_listed_situations :
  main keepAll ToLowerASCII EqualFoldASCII (listFlags false false) stsWorld
  = Fatal "found no needed AWS IAM permissions"
  ∧ status (main keepAll ToLowerASCII EqualFoldASCII (listFlags false false)
              stsWorld) = Some 1
  ∧ loadErr stsLoaded = None ∧ initial stsLoaded = 1
  ∧ printErrors stsLoaded = 0
  ∧ mains stsLoaded = [(0, 1)]
  ∧ sdkCalls (graphOf stsLoaded) false (reachable (graphOf stsLoaded))
    = Return ["sts.GetCallerIdentity"]
  ∧ whyFlag (listFlags false false) = ""
  ∧ iamgo keepAll ToLowerASCII EqualFoldASCII ["."] stsWorld
    = Fatal "found no needed AWS IAM permissions"
  ∧ iamgo keepAll ToLowerASCII EqualFoldASCII ["-verbose"; "."] (demoWorld ssmMap)
    = BadFlag (notDefined "verbose")
  ∧ status (iamgo keepAll ToLowerASCII EqualFoldASCII ["-verbose"; "."]
              (demoWorld ssmMap)) = Some 2
  ∧ iamgo keepAll ToLowerASCII EqualFoldASCII ["."] (demoWorld ssmMap)
    = Exit0 ["ssm:GetParameter"; "ssm:GetParameters"; "ssm:GetParameter"].
Proof. repeat split; vm_compute; reflexivity. Qed.

(** ** None, and which root wins *)

(** C5, as amended: in a well-formed call graph whose roots all have a node,
    [findPath] returns nil exactly when no root reaches the target; when some
    root does, it returns a path, namely the path of the first root, in root
    order, whose search gives a non-nil path (the empty path when that root
    is the target itself). *)
Theorem findPath_none_iff_unreachable g roots target :
  wf_callgraph g → Forall (is_node g) roots →
  (findPath g roots target = Return None ↔
     ∀ r, r ∈ roots → ¬ reaches g r target)
  ∧ ((∃ r, r ∈ roots ∧ reaches g r target) →
       ∃ p, findPath g roots target = Return (Some p))
  ∧ (∀ pre r post p,
       roots = pre ++ r :: post →
       (∀ r', r' ∈ pre → bfs g r' target = Return None) →
       bfs g r target = Return (Some p) →
       findPath g roots target = Return (Some p)).
Proof.
  intros Hwf Hnodes. pose proof (proj1 (Forall_forall _ _) Hnodes) as Hn.
  split; [|split].
  - rewrite findPath_None_inv. split.
    + intros H r Hr. apply (bfs_None_iff g r target); auto.
    + intros H r Hr. apply bfs_None_iff; auto.
  - intros Hex.
    destruct (findPath_shortest_path_exists g roots target Hwf Hnodes Hex)
      as (p & Hp). eauto.
  - intros pre r post p -> Hpre Hr. by apply findPath_first.
Qed.

Lemma findPath_none_iff_unreachable_witness :
  wf_callgraph two_roots ∧ Forall (is_node two_roots) [1; 0; 2]
  ∧ bfs two_roots 1 2 = Return None
  ∧ bfs two_roots 0 2 = Return None
  ∧ bfs two_roots 2 2 = Return (Some [])
  ∧ findPath two_roots [1; 0; 2] 2 = Return (Some []).
Proof.
  assert (wf_callgraph two_roots) as Hwf by compute_done.
  assert (Forall (is_node two_roots) [1; 0; 2]) as Hn by compute_done.
  assert (bfs two_roots 1 2 = Return None) as H1 by (vm_compute; reflexivity).
  assert (bfs two_roots 0 2 = Return None) as H0 by (vm_compute; reflexivity).
  assert (bfs two_roots 2 2 = Return (Some [])) as H2 by (vm_compute; reflexivity).
  split; [exact Hwf|]. split; [exact Hn|]. split; [exact H1|].
  split; [exact H0|]. split; [exact H2|].
  apply (proj2 (proj2 (findPath_none_iff_unreachable two_roots [1; 0; 2] 2 Hwf Hn))
           [1; 0] 2 [] [] eq_refl); [|exact H2].
  intros r' Hr'. apply elem_of_cons in Hr' as [->|Hr']; [exact H1|].
  apply list_elem_of_singleton in Hr' as ->. exact H0.
Defined.

(** C5 as stated fails: with roots 3 and 2 and target 3, the first root that
    yields a non-empty path is 2, and the path returned is the empty path of
    root 3. *)
Lemma findPath_returns_empty_path_first :
  bfs two_roots 3 3 = Return (Some [])
  ∧ bfs two_roots 2 3 = Return (Some [call 2 3])
  ∧ findPath two_roots [3; 2] 3 = Return (Some [])
  ∧ findPath two_roots [3; 2] 3 ≠ bfs two_roots 2 3.
Proof. repeat split; by vm_compute. Qed.

(** ** A target that is itself a root *)

Lemma printPath_nil g : printPath g [] = [].
Proof. done. Qed.

(** C10, as amended: [bfs] from a root that is the target and has a node
    returns the empty non-nil path; [findPath] and [whyReachable] then report
    success with that zero-length path, without trying later roots, provided
    the search from every earlier root returns nil (so always when the
    target is the first root); and [printPath] prints nothing for it. *)
Theorem target_is_root
    (DeleteSyntheticNodes : Callgraph → Callgraph)
    (g : graph) (fnName : string) (target : Fn) (pre post : list Fn) :
  roots g = pre ++ target :: post →
  (is_node (callgraph g) target →
     bfs (callgraph g) target target = Return (Some [])
     ∧ ((∀ r, r ∈ pre → bfs (callgraph g) r target = Return None) →
          findPath (callgraph g) (roots g) target = Return (Some [])))
  ∧ (findFunc g fnName = Some target →
     is_node (DeleteSyntheticNodes (callgraph g)) target →
     (∀ r, r ∈ pre →
        bfs (DeleteSyntheticNodes (callgraph g)) r target = Return None) →
     whyReachable DeleteSyntheticNodes g fnName
     = Return (setCallgraph g (DeleteSyntheticNodes (callgraph g)), Some []))
  ∧ printPath g [] = [].
Proof.
  intros Hroots. split; [|split; [|done]].
  - intros Hn. split; [by apply bfs_self|].
    intros Hpre. rewrite Hroots. apply findPath_first; [done|by apply bfs_self].
  - intros Hf Hn Hpre. unfold whyReachable. rewrite Hf. simpl. rewrite Hroots.
    rewrite (findPath_first _ pre target post target []); [done|done|].
    by apply bfs_self.
Qed.

Lemma target_is_root_witness :
  roots (graphOf demoLoaded) = [0] ++ 1 :: []
  ∧ findFunc (graphOf demoLoaded) "example.com/app.main" = Some 1
  ∧ is_node (keepAll demoCalls) 1
  ∧ (∀ r, r ∈ [0] → bfs (keepAll demoCalls) r 1 = Return None)
  ∧ bfs demoCalls 1 1 = Return (Some [])
  ∧ findPath demoCalls [0; 1] 1 = Return (Some [])
  ∧ whyReachable keepAll (graphOf demoLoaded) "example.com/app.main"
    = Return (setCallgraph (graphOf demoLoaded) (keepAll demoCalls), Some []).
Proof.
  assert (roots (graphOf demoLoaded) = [0] ++ 1 :: []) as Hr by reflexivity.
  assert (findFunc (graphOf demoLoaded) "example.com/app.main" = Some 1) as Hf
    by (vm_compute; reflexivity).
  assert (is_node (keepAll demoCalls) 1) as Hn by compute_done.
  assert (∀ r, r ∈ [0] → bfs (keepAll demoCalls) r 1 = Return None) as Hpre.
  { intros r ->%list_elem_of_singleton. vm_compute. reflexivity. }
  destruct (target_is_root keepAll (graphOf demoLoaded) "example.com/app.main"
              1 [0] [] Hr) as (H1 & H2 & _).
  destruct (H1 Hn) as [Hb Hfp].
  split; [exact Hr|]. split; [exact Hf|]. split; [exact Hn|].
  split; [exact Hpre|]. split; [exact Hb|].
  split; [exact (Hfp Hpre)|exact (H2 Hf Hn Hpre)].
Defined.

(** C10 as stated fails: the target 3 is a root with a node, an earlier root
    calls it, and [findPath] reports that one-edge path, not a zero-length
    one. *)
Lemma root_target_with_longer_path :
  3 ∈ [2; 3] ∧ is_node two_roots 3
  ∧ bfs two_roots 3 3 = Return (Some [])
  ∧ findPath two_roots [2; 3] 3 = Return (Some [call 2 3])
  ∧ length [call 2 3] = 1.
Proof. repeat split; compute_done. Qed.

(** ** Two runs over the same program model *)

Lemma bfs_Return_node g start target r :
  bfs g start target = Return r → is_node g start.
Proof. unfold bfs, is_node. destruct (g !! start); [eauto|done]. Qed.

Lemma is_path_same_edges g1 g2 a c p :
  (∀ n e, e ∈ Out g1 n ↔ e ∈ Out g2 n) →
  is_path g1 a c p → is_path g2 a c p.
Proof.
  intros Hsame. revert a. induction p as [|e p IH]; simpl; intros a; [done|].
  intros (? & ?%Hsame & ?). auto.
Qed.

Lemma bfs_same_edges g1 g2 start target r1 r2 :
  wf_callgraph g1 → wf_callgraph g2 →
  (∀ n e, e ∈ Out g1 n ↔ e ∈ Out g2 n) →
  bfs g1 start target = Return r1 → bfs g2 start target = Return r2 →
  length <$> r1 = length <$> r2.
Proof.
  intros Hwf1 Hwf2 Hsame H1 H2.
  pose proof (bfs_Return_node _ _ _ _ H1) as Hn1.
  pose proof (bfs_Return_node _ _ _ _ H2) as Hn2.
  destruct (bfs_correct g1 start target Hwf1 Hn1) as (x1 & Hx1 & Hs1).
  destruct (bfs_correct g2 start target Hwf2 Hn2) as (x2 & Hx2 & Hs2).
  assert (x1 = r1) as -> by congruence. assert (x2 = r2) as -> by congruence.
  assert (∀ p, is_path g1 start target p ↔ is_path g2 start target p) as Hp.
  { intros p. split; apply is_path_same_edges; [done|]. intros n e. by rewrite Hsame. }
  destruct r1 as [p1|], r2 as [p2|]; simpl in *.
  - destruct Hs1 as [Hp1 Hm1], Hs2 as [Hp2 Hm2]. f_equal.
    apply Nat.le_antisymm; [apply Hm1; by apply Hp|apply Hm2; by apply Hp].
  - destruct Hs1 as [Hp1 _]. destruct Hs2. exists p1. by apply Hp.
  - destruct Hs2 as [Hp2 _]. destruct Hs1. exists p2. by apply Hp.
  - done.
Qed.

Lemma bfs_same_calls g1 g2 start target :
  wf_callgraph g1 → wf_callgraph g2 → same_calls g1 g2 →
  same_length (bfs g1 start target) (bfs g2 start target).
Proof.
  intros Hwf1 Hwf2 [Hnodes Hedges].
  destruct (decide (is_node g1 start)) as [Hn1|Hn1].
  - pose proof (proj1 (Hnodes start) Hn1) as Hn2.
    destruct (bfs_correct g1 start target Hwf1 Hn1) as (r1 & H1 & _).
    destruct (bfs_correct g2 start target Hwf2 Hn2) as (r2 & H2 & _).
    rewrite H1, H2. simpl.
    exact (bfs_same_edges g1 g2 start target r1 r2 Hwf1 Hwf2 Hedges H1 H2).
  - assert (¬ is_node g2 start) as Hn2 by (by rewrite <- Hnodes).
    by rewrite (bfs_no_node g1), (bfs_no_node g2).
Qed.

Lemma findPath_same_calls g1 g2 roots target :
  wf_callgraph g1 → wf_callgraph g2 → same_calls g1 g2 →
  same_length (findPath g1 roots target) (findPath g2 roots target).
Proof.
  intros Hwf1 Hwf2 Hsame. induction roots as [|r roots IH]; simpl; [done|].
  pose proof (bfs_same_calls g1 g2 r target Hwf1 Hwf2 Hsame) as Hb.
  destruct (bfs g1 r target) as [[p1|]| |], (bfs g2 r target) as [[p2|]| |];
    simpl in *; done.
Qed.

Lemma same_edges_check (g1 g2 : Callgraph) :
  set_Forall (λ n, Out g1 n ≡ₚ Out g2 n) (dom g1 ∪ dom g2) →
  ∀ n e, e ∈ Out g1 n ↔ e ∈ Out g2 n.
Proof.
  intros H n e. destruct (decide (n ∈ dom g1 ∪ dom g2)) as [Hin|Hout].
  - by rewrite (H n Hin).
  - apply not_elem_of_union in Hout as [H1%not_elem_of_dom H2%not_elem_of_dom].
    unfold Out. by rewrite H1, H2.
Qed.

Lemma same_nodes_check (g1 g2 : Callgraph) :
  dom g1 = dom g2 → ∀ n, is_node g1 n ↔ is_node g2 n.
Proof. intros H n. unfold is_node. by rewrite <- !elem_of_dom, H. Qed.

Lemma same_calls_sym g1 g2 : same_calls g1 g2 → same_calls g2 g1.
Proof. intros [Hn He]. split; [intros n|intros n e]; symmetry; auto. Qed.

Lemma find_Permutation {A B} (P : A → bool) (f : A → B) (l1 l2 : list A) :
  l1 ≡ₚ l2 →
  (∀ x y, x ∈ l1 → y ∈ l1 → P x = true → P y = true → f x = f y) →
  f <$> List.find P l1 = f <$> List.find P l2.
Proof.
  intros Hperm Huniq.
  destruct (List.find P l1) as [x|] eqn:H1, (List.find P l2) as [y|] eqn:H2;
    simpl; [|exfalso..|done].
  - apply find_some in H1 as [Hx Px], H2 as [Hy Py]. f_equal.
    apply Huniq; [by apply list_elem_of_In| |done..].
    rewrite Hperm. by apply list_elem_of_In.
  - apply find_some in H1 as [Hx Px].
    rewrite (find_none _ _ H2 x) in Px; [done|].
    apply list_elem_of_In. rewrite <- Hperm. by apply list_elem_of_In.
  - apply find_some in H2 as [Hy Py].
    rewrite (find_none _ _ H1 y) in Py; [done|].
    apply list_elem_of_In. rewrite Hperm. by apply list_elem_of_In.
Qed.

(** The listing loop reads the call graph through the nil test of
    [findPath] only. *)
Lemma sdkCall_same_calls prog rts cg1 cg2 reach1 reach2 reflection fn :
  wf_callgraph cg1 → wf_callgraph cg2 → same_calls cg1 cg2 →
  sdkCall (mkGraph prog rts cg1 reach1) reflection fn
  = sdkCall (mkGraph prog rts cg2 reach2) reflection fn.
Proof.
  intros Hwf1 Hwf2 Hsame. unfold sdkCall. cbn [program roots callgraph].
  destruct (negb (bool_decide _)); [done|].
  destruct (negb (bool_decide _)); [done|].
  destruct (bool_decide _); [done|]. destruct reflection; [done|].
  match goal with
  | |- context [findPath cg1 rts ?fn] =>
      pose proof (findPath_same_calls cg1 cg2 rts fn Hwf1 Hwf2 Hsame) as H;
      destruct (findPath cg1 rts fn) as [[p1|]| |],
               (findPath cg2 rts fn) as [[p2|]| |]; simpl in *; done
  end.
Qed.

Lemma sdkCalls_same_calls prog rts cg1 cg2 reach1 reach2 reflection fns :
  wf_callgraph cg1 → wf_callgraph cg2 → same_calls cg1 cg2 →
  sdkCalls (mkGraph prog rts cg1 reach1) reflection fns
  = sdkCalls (mkGraph prog rts cg2 reach2) reflection fns.
Proof.
  intros Hwf1 Hwf2 Hsame. induction fns as [|fn fns IH]; simpl; [done|].
  by rewrite IH, (sdkCall_same_calls prog rts cg1 cg2 reach1 reach2).
Qed.

Section two_runs.

Context (DeleteSyntheticNodes1 DeleteSyntheticNodes2 : Callgraph → Callgraph).
Context (ToLower : string → string).
Context (prog : Program) (rts : list Fn) (reach1 reach2 : list (Fn * bool)).
Hypothesis Hperm : reach1 ≡ₚ reach2.
Hypothesis Huniq : unique_names prog reach1.
Hypothesis Hdelete : ∀ cg1 cg2,
  wf_callgraph cg1 → wf_callgraph cg2 → same_calls cg1 cg2 →
  wf_callgraph (DeleteSyntheticNodes1 cg1)
  ∧ wf_callgraph (DeleteSyntheticNodes2 cg2)
  ∧ same_calls (DeleteSyntheticNodes1 cg1) (DeleteSyntheticNodes2 cg2).

Local Abbreviation run1 cg := (mkGraph prog rts cg reach1).
Local Abbreviation run2 cg := (mkGraph prog rts cg reach2).

Lemma findFunc_agree cg1 cg2 fnName :
  findFunc (run1 cg1) fnName = findFunc (run2 cg2) fnName.
Proof.
  unfold findFunc. simpl. apply find_Permutation; [done|].
  intros r1 r2 H1 H2.
  rewrite !andb_true_iff, !bool_decide_eq_true.
  intros [[S1 _] N1] [[S2 _] N2]. apply Huniq; congruence.
Qed.

Lemma whyReachable_agree cg1 cg2 fnName :
  wf_callgraph cg1 → wf_callgraph cg2 → same_calls cg1 cg2 →
  agree prog rts reach1 reach2
        (whyReachable DeleteSyntheticNodes1 (run1 cg1) fnName)
        (whyReachable DeleteSyntheticNodes2 (run2 cg2) fnName).
Proof.
  intros Hwf1 Hwf2 Hsame. unfold whyReachable.
  rewrite (findFunc_agree cg1 cg2).
  destruct (findFunc (run2 cg2) fnName) as [fn|]; simpl.
  2: { split; [done|]. by exists cg1, cg2. }
  destruct (Hdelete cg1 cg2 Hwf1 Hwf2 Hsame) as (Hd1 & Hd2 & Hd).
  pose proof (findPath_same_calls _ _ rts fn Hd1 Hd2 Hd) as Hlen.
  destruct (findPath (DeleteSyntheticNodes1 cg1) rts fn) as [p1| |],
           (findPath (DeleteSyntheticNodes2 cg2) rts fn) as [p2| |];
    simpl in *; try done.
  split; [done|]. by eexists _, _.
Qed.

Ltac next_step H IH :=
  match type of H with
  | agree _ _ _ _ ?o1 ?o2 =>
      destruct o1 as [[? [?|]]| |], o2 as [[? [?|]]| |]; simpl in *; try done;
      try (by destruct H as [? _]);
      destruct H as (_ & ? & ? & -> & -> & ? & ? & ?); by apply IH
  end.

Lemma whyNames_agree fnNames : ∀ cg1 cg2,
  wf_callgraph cg1 → wf_callgraph cg2 → same_calls cg1 cg2 →
  agree prog rts reach1 reach2
        (whyNames DeleteSyntheticNodes1 (run1 cg1) fnNames)
        (whyNames DeleteSyntheticNodes2 (run2 cg2) fnNames).
Proof.
  induction fnNames as [|fnName fnNames IH]; intros cg1 cg2 Hwf1 Hwf2 Hsame; simpl.
  { split; [done|]. by exists cg1, cg2. }
  pose proof (whyReachable_agree cg1 cg2 fnName Hwf1 Hwf2 Hsame) as H.
  next_step H IH.
Qed.

Lemma whyMethods_agree sdkMethods : ∀ cg1 cg2,
  wf_callgraph cg1 → wf_callgraph cg2 → same_calls cg1 cg2 →
  agree prog rts reach1 reach2
        (whyMethods DeleteSyntheticNodes1 ToLower (run1 cg1) sdkMethods)
        (whyMethods DeleteSyntheticNodes2 ToLower (run2 cg2) sdkMethods).
Proof.
  induction sdkMethods as [|method sdkMethods IH];
    intros cg1 cg2 Hwf1 Hwf2 Hsame; simpl.
  { split; [done|]. by exists cg1, cg2. }
  destruct (possibleFunctionNames ToLower method) as [fnNames| |] eqn:Hnames;
    simpl; [|done|].
  2: { unfold possibleFunctionNames, index in Hnames.
       destruct (Split method "."%char) as [|? [|? ?]]; done. }
  pose proof (whyNames_agree fnNames cg1 cg2 Hwf1 Hwf2 Hsame) as H.
  next_step H IH.
Qed.

Lemma agree_same_explanation o1 o2 :
  agree prog rts reach1 reach2 o1 o2 → same_explanation o1 o2.
Proof.
  destruct o1 as [[g1 p1]| |], o2 as [[g2 p2]| |]; simpl; try done.
  by intros (-> & ? & ? & -> & -> & _).
Qed.

End two_runs.

Lemma analyze_graphOf w includeTests buildTags g :
  analyze w includeTests buildTags = inr g →
  g = graphOf (packages w includeTests buildTags).
Proof.
  unfold analyze, graphOf. destruct (loadErr _); [done|].
  destruct (decide _); [done|]. destruct (decide _); [done|].
  destruct (decide _); [done|]. by intros [= <-].
Qed.

Lemma sdkCalls_two_runs prog rts cg1 cg2 reach1 reach2 reflection calls1 :
  wf_callgraph cg1 → wf_callgraph cg2 → same_calls cg1 cg2 →
  reach1 ≡ₚ reach2 →
  sdkCalls (mkGraph prog rts cg1 reach1) reflection reach1 = Return calls1 →
  ∃ calls2,
    sdkCalls (mkGraph prog rts cg2 reach2) reflection reach2 = Return calls2
    ∧ calls1 ≡ₚ calls2.
Proof.
  intros Hwf1 Hwf2 Hsame Hperm H1.
  rewrite (sdkCalls_same_calls prog rts cg1 cg2 reach1 reach2) in H1 by done.
  by apply (sdkCalls_Permutation (mkGraph prog rts cg2 reach2) reflection
              reach1 reach2).
Qed.


Lemma unique_names_check prog reach :
  Forall (λ r1, Forall (λ r2,
    Synthetic prog r1.1 = "" → Synthetic prog r2.1 = "" →
    FullName prog r1.1 = FullName prog r2.1 → r1.1 = r2.1) reach) reach →
  unique_names prog reach.
Proof.
  intros H r1 r2 H1 H2.
  apply (proj1 (Forall_forall _ _) (proj1 (Forall_forall _ _) H r1 H1) r2 H2).
Qed.



(** * Further properties *)

(** ** More on the path finder *)

Lemma findPath_found g roots target p :
  wf_callgraph g → findPath g roots target = Return (Some p) →
  ∃ r, r ∈ roots ∧ is_node g r ∧ bfs g r target = Return (Some p)
       ∧ is_path g r target p
       ∧ ∀ q, is_path g r target q → length p ≤ length q.
Proof.
  intros Hwf (pre & r & post & -> & _ & Hb)%findPath_Some_inv.
  pose proof (bfs_Return_node _ _ _ _ Hb) as Hn.
  destruct (bfs_correct g r target Hwf Hn) as (r0 & Hr0 & Hs).
  rewrite Hb in Hr0. injection Hr0 as <-. destruct Hs as [Hp Hmin].
  exists r. split; [|done]. apply elem_of_app. right. by left.
Qed.

(** X1: whatever the roots, a path that [findPath] returns in a well-formed
    call graph is a chain of edges of the graph from one of the roots (which
    has a node) to the target, no chain from that root is shorter, and the
    path is empty exactly when that root is the target. *)
Theorem findPath_sound g roots target p :
  wf_callgraph g → findPath g roots target = Return (Some p) →
  ∃ r, r ∈ roots ∧ is_node g r ∧ is_path g r target p
       ∧ (∀ q, is_path g r target q → length p ≤ length q)
       ∧ (p = [] ↔ r = target).
Proof.
  intros Hwf Hf.
  destruct (findPath_found g roots target p Hwf Hf) as (r & Hr & Hn & _ & Hp & Hmin).
  exists r. split; [done|]. split; [done|]. split; [done|]. split; [done|].
  split.
  - intros ->. exact Hp.
  - intros ->. specialize (Hmin [] eq_refl). simpl in Hmin.
    destruct p; [done|simpl in Hmin; lia].
Qed.

Lemma findPath_sound_witness :
  wf_callgraph two_roots
  ∧ findPath two_roots [0; 2] 3 = Return (Some [call 0 1; call 1 3])
  ∧ ∃ r, r ∈ [0; 2] ∧ is_node two_roots r
         ∧ is_path two_roots r 3 [call 0 1; call 1 3]
         ∧ (∀ q, is_path two_roots r 3 q → length [call 0 1; call 1 3] ≤ length q)
         ∧ ([call 0 1; call 1 3] = [] ↔ r = 3).
Proof.
  assert (wf_callgraph two_roots) as Hwf by compute_done.
  assert (findPath two_roots [0; 2] 3 = Return (Some [call 0 1; call 1 3])) as Hf
    by (vm_compute; reflexivity).
  split; [exact Hwf|]. split; [exact Hf|].
  exact (findPath_sound two_roots [0; 2] 3 _ Hwf Hf).
Defined.

(** X2: a root without a node in the call graph makes [findPath] panic (the
    nil node is dereferenced) as soon as the roots before it, which have
    nodes, do not reach the target; the roots after it are never tried. *)
Theorem findPath_missing_root g pre r post target :
  wf_callgraph g → Forall (is_node g) pre →
  (∀ r', r' ∈ pre → ¬ reaches g r' target) → ¬ is_node g r →
  findPath g (pre ++ r :: post) target = Panic.
Proof.
  intros Hwf Hn Hpre Hr. rewrite findPath_app.
  - simpl. by rewrite bfs_no_node.
  - intros r' Hr'. apply bfs_None_iff; [done| |by apply Hpre].
    by apply (proj1 (Forall_forall _ _) Hn).
Qed.

Lemma findPath_missing_root_witness :
  wf_callgraph two_roots ∧ Forall (is_node two_roots) [0; 1]
  ∧ (∀ r', r' ∈ [0; 1] → ¬ reaches two_roots r' 2)
  ∧ ¬ is_node two_roots 5
  ∧ findPath two_roots ([0; 1] ++ 5 :: [2]) 2 = Panic.
Proof.
  assert (wf_callgraph two_roots) as Hwf by compute_done.
  assert (Forall (is_node two_roots) [0; 1]) as Hn by compute_done.
  assert (∀ r', r' ∈ [0; 1] → ¬ reaches two_roots r' 2) as Hpre.
  { intros r' Hr'. apply bfs_None_iff; [done|by apply (proj1 (Forall_forall _ _) Hn)|].
    apply elem_of_cons in Hr' as [->|Hr']; [vm_compute; reflexivity|].
    apply list_elem_of_singleton in Hr' as ->. vm_compute. reflexivity. }
  assert (¬ is_node two_roots 5) as H5 by compute_done.
  split; [exact Hwf|]. split; [exact Hn|]. split; [exact Hpre|]. split; [exact H5|].
  exact (findPath_missing_root two_roots [0; 1] 5 [2] 2 Hwf Hn Hpre H5).
Defined.

Lemma is_path_callers g a c p :
  is_path g a c p → (Caller <$> p) ++ [c] = a :: (Callee <$> p).
Proof.
  revert a. induction p as [|e p IH]; simpl; intros a.
  - by intros ->.
  - intros (Hc & _ & Hp). rewrite Hc. f_equal. by apply IH.
Qed.

Lemma is_path_from_inner g a c p x :
  is_path g a c p → x ∈ a :: (Callee <$> p) →
  ∃ q, is_path g x c q ∧ length q ≤ length p.
Proof.
  revert a. induction p as [|e p IH]; simpl; intros a.
  - intros <- ->%list_elem_of_singleton. by exists [].
  - intros (Hc & Hout & Hp) [->|Hx]%elem_of_cons.
    + exists (e :: p). by split.
    + destruct (IH _ Hp Hx) as (q & Hq & Hlen). exists q. split; [done|lia].
Qed.

Lemma shortest_path_simple g a c p :
  is_path g a c p → (∀ q, is_path g a c q → length p ≤ length q) →
  NoDup (a :: (Callee <$> p)).
Proof.
  revert a. induction p as [|e p IH]; simpl; intros a.
  - intros _ _. apply NoDup_singleton.
  - intros (Hc & Hout & Hp) Hmin. apply NoDup_cons. split.
    + intros Hin.
      destruct (is_path_from_inner g (Callee e) c p a Hp Hin) as (q & Hq & Hlen).
      specialize (Hmin q Hq). lia.
    + apply IH; [done|]. intros q Hq.
      specialize (Hmin (e :: q)). simpl in Hmin.
      assert (S (length p) ≤ S (length q)) by (apply Hmin; auto). lia.
Qed.

(** X3: a path returned by [findPath] in a well-formed call graph never
    passes through a function twice: no function is entered twice, none
    calls twice, and the target calls nothing on it. *)
Theorem findPath_simple g roots target p :
  wf_callgraph g → findPath g roots target = Return (Some p) →
  NoDup (Callee <$> p) ∧ NoDup (Caller <$> p) ∧ target ∉ Caller <$> p.
Proof.
  intros Hwf Hf.
  destruct (findPath_found g roots target p Hwf Hf) as (r & _ & _ & _ & Hp & Hmin).
  pose proof (shortest_path_simple g r target p Hp Hmin) as Hnd.
  split; [by apply NoDup_cons in Hnd as [_ ?]|].
  rewrite <- (is_path_callers g r target p Hp) in Hnd.
  apply NoDup_app in Hnd as (Hc & Hdisj & _). split; [done|].
  intros Hin. apply (Hdisj _ Hin). by left.
Qed.

Lemma findPath_simple_witness :
  wf_callgraph demoCalls
  ∧ findPath demoCalls [0; 1] 6 = Return (Some [callAt 1 15 2; callAt 2 23 6])
  ∧ NoDup (Callee <$> [callAt 1 15 2; callAt 2 23 6])
  ∧ NoDup (Caller <$> [callAt 1 15 2; callAt 2 23 6])
  ∧ 6 ∉ Caller <$> [callAt 1 15 2; callAt 2 23 6].
Proof.
  assert (wf_callgraph demoCalls) as Hwf by compute_done.
  assert (findPath demoCalls [0; 1] 6
          = Return (Some [callAt 1 15 2; callAt 2 23 6])) as Hf
    by (vm_compute; reflexivity).
  split; [exact Hwf|]. split; [exact Hf|].
  exact (findPath_simple demoCalls [0; 1] 6 _ Hwf Hf).
Defined.

(** X4: the order in which the out-edges of the nodes are stored changes at
    most which path [findPath] returns, never how the search ends: in two
    well-formed call graphs with the same nodes and the same out-edges at
    every node, the search panics in both or returns in both (it never runs
    on for ever), and when one returns the other returns nil with it, or a
    path of the same length. *)
Theorem findPath_length_edge_order g1 g2 roots target :
  wf_callgraph g1 → wf_callgraph g2 →
  (∀ n, is_node g1 n ↔ is_node g2 n) →
  (∀ n e, e ∈ Out g1 n ↔ e ∈ Out g2 n) →
  (findPath g1 roots target = Panic ↔ findPath g2 roots target = Panic)
  ∧ (∀ r1, findPath g1 roots target = Return r1 →
       ∃ r2, findPath g2 roots target = Return r2
             ∧ length <$> r1 = length <$> r2)
  ∧ findPath g1 roots target ≠ Diverge.
Proof.
  intros Hwf1 Hwf2 Hnodes Hedges.
  pose proof (findPath_same_calls g1 g2 roots target Hwf1 Hwf2
                (conj Hnodes Hedges)) as H.
  destruct (findPath g1 roots target) as [r1| |],
           (findPath g2 roots target) as [r2| |]; simpl in H; try done.
  split; [done|]. split; [|done]. intros ? [= <-]. eauto.
Qed.

Lemma findPath_length_edge_order_witness :
  wf_callgraph two_ways ∧ wf_callgraph two_ways_swapped
  ∧ (∀ n, is_node two_ways n ↔ is_node two_ways_swapped n)
  ∧ (∀ n e, e ∈ Out two_ways n ↔ e ∈ Out two_ways_swapped n)
  ∧ findPath two_ways [0] 3 = Return (Some [call 0 1; call 1 3])
  ∧ ∃ r2, findPath two_ways_swapped [0] 3 = Return r2
          ∧ length <$> Some [call 0 1; call 1 3] = length <$> r2.
Proof.
  assert (wf_callgraph two_ways) as Hwf1 by compute_done.
  assert (wf_callgraph two_ways_swapped) as Hwf2 by compute_done.
  assert (∀ n, is_node two_ways n ↔ is_node two_ways_swapped n) as Hnodes.
  { apply same_nodes_check. compute_done. }
  assert (∀ n e, e ∈ Out two_ways n ↔ e ∈ Out two_ways_swapped n) as Hsame.
  { apply same_edges_check. compute_done. }
  assert (findPath two_ways [0] 3 = Return (Some [call 0 1; call 1 3])) as H1
    by (vm_compute; reflexivity).
  split; [exact Hwf1|]. split; [exact Hwf2|]. split; [exact Hnodes|].
  split; [exact Hsame|]. split; [exact H1|].
  exact (proj1 (proj2 (findPath_length_edge_order two_ways two_ways_swapped [0] 3
                         Hwf1 Hwf2 Hnodes Hsame)) _ H1).
Defined.

(** ** More on the listing *)

Lemma findPath_total g roots target :
  wf_callgraph g → Forall (is_node g) roots →
  ∃ r, findPath g roots target = Return r.
Proof.
  intros Hwf. induction 1 as [|r roots Hr _ IH]; simpl; [by eauto|].
  destruct (bfs_correct g r target Hwf Hr) as ([p|] & -> & _); simpl; eauto.
Qed.

Lemma sdkCall_Some_iff g reflection fn m :
  sdkCall g reflection fn = Return (Some m) ↔
  Synthetic (program g) fn = ""
  ∧ Parent (program g) (collapse (program g) fn) = None
  ∧ sdkVersion (program g) (collapse (program g) fn) ≠ ""
  ∧ (reflection = true
     ∨ ∃ p, findPath (callgraph g) (roots g) (collapse (program g) fn)
            = Return (Some p))
  ∧ m = sdkMethodName (program g) (collapse (program g) fn).
Proof.
  unfold sdkCall. fold (collapse (program g) fn).
  destruct (decide (Synthetic (program g) fn = "")) as [Hs|Hs].
  2: { rewrite (bool_decide_eq_false_2 _ Hs). simpl. split; [done|]. by intros [? _]. }
  rewrite (bool_decide_eq_true_2 _ Hs). simpl.
  destruct (decide (Parent (program g) (collapse (program g) fn) = None)) as [Hp|Hp].
  2: { rewrite (bool_decide_eq_false_2 _ Hp). simpl. split; [done|]. by intros (_ & ? & _). }
  rewrite (bool_decide_eq_true_2 _ Hp). simpl.
  destruct (decide (sdkVersion (program g) (collapse (program g) fn) = "")) as [Hv|Hv].
  { rewrite (bool_decide_eq_true_2 _ Hv). split; [done|]. by intros (_ & _ & ? & _). }
  rewrite (bool_decide_eq_false_2 _ Hv).
  destruct reflection.
  - split; [intros [= <-]; auto 10|]. by intros (_ & _ & _ & _ & ->).
  - destruct (findPath _ _ _) as [[p|]| |]; simpl.
    + split; [intros [= <-]; eauto 10|]. by intros (_ & _ & _ & _ & ->).
    + split; [done|]. by intros (_ & _ & _ & [|[? ?]] & _).
    + split; [done|]. by intros (_ & _ & _ & [|[? ?]] & _).
    + split; [done|]. by intros (_ & _ & _ & [|[? ?]] & _).
Qed.

(** X5: what the listing collects: a method name is in the list exactly when
    it is the [service.Method] name of the origin of some reachable function
    that is not synthetic, whose origin is not nested and is classified as
    an SDK call, and, unless -reflection is set, to which [findPath] finds a
    path. *)
Theorem sdkCalls_collects g reflection fns methods :
  sdkCalls g reflection fns = Return methods →
  ∀ m, m ∈ methods ↔
    ∃ fn, fn ∈ fns.*1
      ∧ Synthetic (program g) fn = ""
      ∧ Parent (program g) (collapse (program g) fn) = None
      ∧ sdkVersion (program g) (collapse (program g) fn) ≠ ""
      ∧ (reflection = true
         ∨ ∃ p, findPath (callgraph g) (roots g) (collapse (program g) fn)
                = Return (Some p))
      ∧ m = sdkMethodName (program g) (collapse (program g) fn).
Proof.
  intros H m. rewrite (elem_of_sdkCalls g reflection fns methods m H).
  split; intros (fn & Hin & Hc); exists fn; (split; [done|]);
    by apply sdkCall_Some_iff.
Qed.

Lemma sdkCalls_collects_witness :
  sdkCalls (graphOf demoLoaded) false (rtaReachable demoLoaded)
  = Return ["ssm.GetParameter"; "ssm.GetParameters"; "ssm.GetParameter"]
  ∧ ("ssm.PutParameter"
       ∈ ["ssm.GetParameter"; "ssm.GetParameters"; "ssm.GetParameter"] ↔
     ∃ fn, fn ∈ (rtaReachable demoLoaded).*1
      ∧ Synthetic demoProgram fn = ""
      ∧ Parent demoProgram (collapse demoProgram fn) = None
      ∧ sdkVersion demoProgram (collapse demoProgram fn) ≠ ""
      ∧ (false = true
         ∨ ∃ p, findPath demoCalls [0; 1] (collapse demoProgram fn)
                = Return (Some p))
      ∧ "ssm.PutParameter" = sdkMethodName demoProgram (collapse demoProgram fn)).
Proof.
  assert (sdkCalls (graphOf demoLoaded) false (rtaReachable demoLoaded)
    = Return ["ssm.GetParameter"; "ssm.GetParameters"; "ssm.GetParameter"]) as H
    by (vm_compute; reflexivity).
  split; [exact H|].
  exact (sdkCalls_collects (graphOf demoLoaded) false _ _ H "ssm.PutParameter").
Defined.

Lemma sdkCalls_total g reflection fns :
  reflection = true
  ∨ (wf_callgraph (callgraph g) ∧ Forall (is_node (callgraph g)) (roots g)) →
  ∃ methods, sdkCalls g reflection fns = Return methods.
Proof.
  intros Hok. induction fns as [|[fn taken] fns (ms & IH)]; simpl; [by eauto|].
  assert (∃ m, sdkCall g reflection fn = Return m) as (m & ->).
  { unfold sdkCall.
    destruct (negb (bool_decide _)); [by eauto|].
    destruct (negb (bool_decide _)); [by eauto|].
    destruct (bool_decide _); [by eauto|].
    destruct Hok as [->|[Hwf Hn]]; [by eauto|].
    destruct reflection; [by eauto|].
    destruct (findPath_total (callgraph g) (roots g)
                (match Origin (program g) fn with Some orig => orig | None => fn end)
                Hwf Hn) as ([p|] & ->); simpl; eauto. }
  rewrite IH. simpl. eauto.
Qed.

(** X6: in listing mode the process never panics and never hangs when
    -reflection is set (no path is searched), or when the call graph is
    well-formed and every root has a node in it. *)
Theorem listing_always_exits
    (DeleteSyntheticNodes : Callgraph → Callgraph) (ToLower : string → string)
    (EqualFold : string → string → bool) (w : World)
    (test : bool) (tags : string) (reflection sdkcalls : bool) :
  reflection = true
  ∨ (wf_callgraph (rtaCallGraph (packages w test tags))
     ∧ Forall (is_node (rtaCallGraph (packages w test tags)))
              (roots (graphOf (packages w test tags)))) →
  main DeleteSyntheticNodes ToLower EqualFold
       (mkFlags test tags reflection sdkcalls "") w ≠ Crash
  ∧ main DeleteSyntheticNodes ToLower EqualFold
         (mkFlags test tags reflection sdkcalls "") w ≠ Hang.
Proof.
  intros Hok. unfold main, analyze, loadMap. simpl.
  destruct (decide (length (args w) = 0)); [done|].
  destruct (loadErr _); [done|].
  destruct (decide (initial _ = 0)); [done|].
  destruct (decide (0 < printErrors _)); [done|].
  destruct (decide (length (mains _) = 0)); [done|].
  fold (graphOf (packages w test tags)).
  assert (∀ iamMap, listMode EqualFold (graphOf (packages w test tags)) iamMap
                      (mkFlags test tags reflection sdkcalls "") ≠ Crash
                  ∧ listMode EqualFold (graphOf (packages w test tags)) iamMap
                      (mkFlags test tags reflection sdkcalls "") ≠ Hang) as Hlist.
  { intros iamMap. unfold listMode.
    destruct (sdkCalls_total (graphOf (packages w test tags)) reflection
                (reachable (graphOf (packages w test tags))) Hok) as (ms & Hms).
    cbn [reflectionFlag sdkcallsFlag]. rewrite Hms.
    cbn [exitOf]. destruct (decide _); [done|]. destruct sdkcalls; [done|].
    by destruct (decide _). }
  destruct sdkcalls; simpl; [apply Hlist|].
  destruct (mapJSON w); [done|apply Hlist].
Qed.

Lemma listing_always_exits_witness :
  (false = true
   ∨ (wf_callgraph (rtaCallGraph (packages (demoWorld ssmMap) false ""))
      ∧ Forall (is_node (rtaCallGraph (packages (demoWorld ssmMap) false "")))
               (roots (graphOf (packages (demoWorld ssmMap) false "")))))
  ∧ main keepAll ToLowerASCII EqualFoldASCII (mkFlags false "" false false "")
         (demoWorld ssmMap) ≠ Crash
  ∧ main keepAll ToLowerASCII EqualFoldASCII (mkFlags false "" false false "")
         (demoWorld ssmMap) ≠ Hang.
Proof.
  assert (false = true
   ∨ (wf_callgraph (rtaCallGraph (packages (demoWorld ssmMap) false ""))
      ∧ Forall (is_node (rtaCallGraph (packages (demoWorld ssmMap) false "")))
               (roots (graphOf (packages (demoWorld ssmMap) false ""))))) as H.
  { right. split; compute_done. }
  split; [exact H|].
  exact (listing_always_exits keepAll ToLowerASCII EqualFoldASCII
           (demoWorld ssmMap) false "" false false H).
Defined.

(** X7: when the listing of IAM actions succeeds, it prints at least one
    line, no line is empty, and every line is the first identifier of a
    table entry whose key equals, up to letter case, an SDK method that was
    collected; an identifier that is first in no entry is never printed. *)
Theorem listed_actions
    (DeleteSyntheticNodes : Callgraph → Callgraph) (ToLower : string → string)
    (EqualFold : string → string → bool) (w : World)
    (test : bool) (tags : string) (reflection : bool)
    (table : iamMapBase) (out : list string) :
  mapJSON w = inr table →
  main DeleteSyntheticNodes ToLower EqualFold
       (mkFlags test tags reflection false "") w = Exit0 out →
  out ≠ []
  ∧ ∀ a, a ∈ out →
      a ≠ ""
      ∧ ∃ name priv privs calls m,
          (name, priv :: privs) ∈ table ∧ a = Action priv
          ∧ sdkCalls (graphOf (packages w test tags)) reflection
              (reachable (graphOf (packages w test tags))) = Return calls
          ∧ m ∈ calls ∧ EqualFold name m = true.
Proof.
  intros Hmap. unfold main, analyze, loadMap. cbn [args whyFlag testFlag tagsFlag
    sdkcallsFlag reflectionFlag negb bool_decide decide_rel andb].
  destruct (decide (length (args w) = 0)); [done|].
  rewrite bool_decide_eq_true_2 by done. cbn [negb andb].
  destruct (loadErr _); [done|].
  destruct (decide (initial _ = 0)); [done|].
  destruct (decide (0 < printErrors _)); [done|].
  destruct (decide (length (mains _) = 0)); [done|].
  fold (graphOf (packages w test tags)). rewrite Hmap.
  unfold listMode. cbn [sdkcallsFlag reflectionFlag].
  destruct (sdkCalls _ reflection _) as [calls| |] eqn:Hcalls; cbn [exitOf]; [|done..].
  destruct (decide (length calls = 0)); [done|].
  destruct (decide (length (iamActionsOf EqualFold table calls) = 0)) as [|Hlen];
    [done|].
  intros [= <-]. split.
  { intros Hnil. by rewrite Hnil in Hlen. }
  intros a. unfold iamActionsOf.
  rewrite list_elem_of_filter, list_elem_of_fmap. intros (Ha & m & -> & Hm).
  split; [done|].
  destruct (sdkMethodToAction_found EqualFold table m Ha)
    as (name & priv & privs & Hin & Hfold & Heq).
  exists name, priv, privs, calls, m. auto.
Qed.

Lemma listed_actions_witness :
  mapJSON (demoWorld ssmMap) = inr ssmMap
  ∧ main keepAll ToLowerASCII EqualFoldASCII (mkFlags false "" false false "")
         (demoWorld ssmMap)
    = Exit0 ["ssm:GetParameter"; "ssm:GetParameters"; "ssm:GetParameter"]
  ∧ ("kms:Decrypt" ∉ ["ssm:GetParameter"; "ssm:GetParameters"; "ssm:GetParameter"])
  ∧ ∀ a, a ∈ ["ssm:GetParameter"; "ssm:GetParameters"; "ssm:GetParameter"] →
      a ≠ ""
      ∧ ∃ name priv privs calls m,
          (name, priv :: privs) ∈ ssmMap ∧ a = Action priv
          ∧ sdkCalls (graphOf (packages (demoWorld ssmMap) false "")) false
              (reachable (graphOf (packages (demoWorld ssmMap) false "")))
            = Return calls
          ∧ m ∈ calls ∧ EqualFoldASCII name m = true.
Proof.
  assert (main keepAll ToLowerASCII EqualFoldASCII (mkFlags false "" false false "")
            (demoWorld ssmMap)
          = Exit0 ["ssm:GetParameter"; "ssm:GetParameters"; "ssm:GetParameter"]) as H
    by (vm_compute; reflexivity).
  split; [reflexivity|]. split; [exact H|]. split; [compute_done|].
  exact (proj2 (listed_actions keepAll ToLowerASCII EqualFoldASCII (demoWorld ssmMap)
                  false "" false ssmMap _ eq_refl H)).
Defined.

(** X8: -why together with -sdk-calls always fails: the table is not loaded
    in that case, the reverse lookup ranges over the empty map, and once the
    arguments are accepted and the program is analysed the process ends with
    the message that no SDK method requires the action. *)
Theorem why_with_sdkcalls_fails
    (DeleteSyntheticNodes : Callgraph → Callgraph) (ToLower : string → string)
    (EqualFold : string → string → bool) (w : World)
    (test : bool) (tags : string) (reflection : bool) (why : string) (g : graph) :
  length (args w) ≠ 0 → whyFormat why = true → analyze w test tags = inr g →
  main DeleteSyntheticNodes ToLower EqualFold
       (mkFlags test tags reflection true why) w
  = Fatal ("didn't find any SDK method that requires the action " +:+ why
           +:+ ". Are you sure it exist?").
Proof.
  intros Hargs Hformat Hg. unfold main.
  cbn [args whyFlag testFlag tagsFlag sdkcallsFlag reflectionFlag].
  rewrite decide_False by done. rewrite Hformat, Hg. cbn [negb andb].
  rewrite andb_false_r.
  destruct (decide (why = "")) as [->|Hne]; [done|].
  by rewrite (bool_decide_eq_false_2 _ Hne).
Qed.

Lemma why_with_sdkcalls_fails_witness :
  length (args (demoWorld ssmMap)) ≠ 0
  ∧ whyFormat "ssm:GetParameter" = true
  ∧ analyze (demoWorld ssmMap) false "" = inr (graphOf demoLoaded)
  ∧ main keepAll ToLowerASCII EqualFoldASCII
         (mkFlags false "" false true "ssm:GetParameter") (demoWorld ssmMap)
    = Fatal ("didn't find any SDK method that requires the action "
             +:+ "ssm:GetParameter" +:+ ". Are you sure it exist?")
  ∧ status (main keepAll ToLowerASCII EqualFoldASCII
              (mkFlags false "" false false "ssm:GetParameter") (demoWorld ssmMap))
    = Some 0.
Proof.
  assert (length (args (demoWorld ssmMap)) ≠ 0) as Ha by (simpl; lia).
  assert (whyFormat "ssm:GetParameter" = true) as Hf by (vm_compute; reflexivity).
  assert (analyze (demoWorld ssmMap) false "" = inr (graphOf demoLoaded)) as Hg
    by (vm_compute; reflexivity).
  split; [exact Ha|]. split; [exact Hf|]. split; [exact Hg|].
  split; [|vm_compute; reflexivity].
  exact (why_with_sdkcalls_fails keepAll ToLowerASCII EqualFoldASCII
           (demoWorld ssmMap) false "" false "ssm:GetParameter" _ Ha Hf Hg).
Defined.

(** With -sdk-calls the table is never read. *)
Lemma sdkcalls_ignores_table
    (DeleteSyntheticNodes : Callgraph → Callgraph) (ToLower : string → string)
    (EqualFold : string → string → bool) (fl : Flags)
    (arguments : list string) (pkgs : bool → string → Loaded)
    (json1 json2 : string + iamMapBase) :
  sdkcallsFlag fl = true →
  main DeleteSyntheticNodes ToLower EqualFold fl (mkWorld arguments pkgs json1)
  = main DeleteSyntheticNodes ToLower EqualFold fl (mkWorld arguments pkgs json2).
Proof. intros H. unfold main. by rewrite H. Qed.

(** ** More on strings and names *)

Lemma bytes_cons c s : bytes (String c s) = c :: bytes s.
Proof. done. Qed.

Arguments bytes : simpl never.

Lemma Split_not_nil s sep : Split s sep ≠ [].
Proof.
  induction s as [|c s IH]; simpl; [done|].
  destruct (decide (c = sep)); [done|]. by destruct (Split s sep).
Qed.

Lemma Split_no_sep s sep : sep ∉ bytes s → Split s sep = [s].
Proof.
  induction s as [|c s IH]; simpl; [done|]. rewrite bytes_cons.
  intros [Hne Hs]%not_elem_of_cons.
  rewrite decide_False by done. by rewrite IH.
Qed.

Lemma Split_app s t sep :
  sep ∉ bytes s → Split (s +:+ String sep t) sep = s :: Split t sep.
Proof.
  induction s as [|c s IH]; simpl.
  - intros _. by rewrite decide_True.
  - rewrite bytes_cons. intros [Hne Hs]%not_elem_of_cons.
    rewrite decide_False by done. by rewrite IH.
Qed.

Lemma Split_single_inv s sep y : Split s sep = [y] → s = y ∧ sep ∉ bytes s.
Proof.
  revert y. induction s as [|c s IH]; simpl; intros y.
  - intros [= <-]. split; [done|]. apply not_elem_of_nil.
  - destruct (decide (c = sep)) as [->|Hne].
    + intros [= _ H]. by destruct (Split_not_nil s sep).
    + destruct (Split s sep) as [|piece pieces] eqn:Hs; [by destruct (Split_not_nil s sep)|].
      intros [= <- ->]. destruct (IH piece eq_refl) as [-> Hno].
      split; [done|]. rewrite bytes_cons. by apply not_elem_of_cons.
Qed.

Lemma Split_two_inv s sep x y :
  Split s sep = [x; y] →
  s = x +:+ String sep y ∧ (sep ∉ bytes x) ∧ (sep ∉ bytes y).
Proof.
  revert x. induction s as [|c s IH]; simpl; intros x; [done|].
  destruct (decide (c = sep)) as [->|Hne].
  - intros [= <- H]. apply Split_single_inv in H as [-> Hno].
    split; [done|]. split; [apply not_elem_of_nil|done].
  - destruct (Split s sep) as [|piece pieces] eqn:Hs; [done|].
    intros [= <- ->]. destruct (IH piece eq_refl) as (-> & Hx & Hy).
    split; [done|]. split; [|done]. rewrite bytes_cons. by apply not_elem_of_cons.
Qed.

Lemma Split_second s sep :
  sep ∈ bytes s ↔ ∃ x y rest, Split s sep = x :: y :: rest.
Proof.
  split.
  - induction s as [|c s IH]; simpl; [by intros ?%elem_of_nil|].
    rewrite bytes_cons. intros Hin.
    destruct (decide (c = sep)) as [->|Hne].
    + destruct (Split s sep) as [|y rest] eqn:Hs; [by destruct (Split_not_nil s sep)|].
      eauto.
    + apply elem_of_cons in Hin as [->|Hin]; [done|].
      destruct (IH Hin) as (x & y & rest & ->). eauto.
  - intros (x & y & rest & H). destruct (decide (sep ∈ bytes s)) as [|Hno]; [done|].
    by rewrite (Split_no_sep s sep Hno) in H.
Qed.

(** X9: [possibleFunctionNames] panics exactly on a method name without a
    dot (the second piece of the split is missing); for [Service.Method] it
    returns the v1 name, with the service in lower case as package, the
    service as written as receiver and the suffix Request, followed by the
    v2 name; whatever follows a second dot is dropped. *)
Theorem possibleFunctionNames_names (ToLower : string → string) (sdkMethod : string) :
  (possibleFunctionNames ToLower sdkMethod = Panic ↔ ("."%char ∉ bytes sdkMethod))
  ∧ (∀ service method,
       ("."%char ∉ bytes service) → ("."%char ∉ bytes method) →
       possibleFunctionNames ToLower (service +:+ "." +:+ method)
       = Return
           [ "(*github.com/aws/aws-sdk-go/service/" +:+ ToLower service +:+ "."
               +:+ service +:+ ")." +:+ method +:+ "Request";
             "(*github.com/aws/aws-sdk-go-v2/service/" +:+ ToLower service
               +:+ ".Client)." +:+ method ]
       ∧ ∀ rest,
           possibleFunctionNames ToLower (service +:+ "." +:+ method +:+ "." +:+ rest)
           = possibleFunctionNames ToLower (service +:+ "." +:+ method)).
Proof.
  split.
  - unfold possibleFunctionNames, index.
    destruct (Split sdkMethod ".") as [|x [|y rest]] eqn:Hs.
    + by destruct (Split_not_nil sdkMethod ".").
    + simpl. split; [intros _|done]. by apply Split_single_inv in Hs as [_ ?].
    + simpl. split; [done|]. intros Hno. by rewrite (Split_no_sep _ _ Hno) in Hs.
  - intros service method Hs Hm.
    assert (Split (service +:+ "." +:+ method) "." = [service; method]) as H1.
    { change (service +:+ "." +:+ method) with (service +:+ String "." method).
      by rewrite Split_app, Split_no_sep. }
    split.
    + unfold possibleFunctionNames, index. by rewrite H1.
    + intros rest.
      assert (Split (service +:+ "." +:+ method +:+ "." +:+ rest) "."
              = service :: method :: Split rest ".") as H2.
      { change (service +:+ "." +:+ method +:+ "." +:+ rest)
          with (service +:+ String "." (method +:+ String "." rest)).
        by rewrite !Split_app. }
      unfold possibleFunctionNames, index. by rewrite H1, H2.
Qed.

Lemma possibleFunctionNames_names_witness :
  ("."%char ∉ bytes "SSM") ∧ ("."%char ∉ bytes "GetParameter")
  ∧ possibleFunctionNames ToLowerASCII ("SSM" +:+ "." +:+ "GetParameter")
    = Return ["(*github.com/aws/aws-sdk-go/service/ssm.SSM).GetParameterRequest";
              "(*github.com/aws/aws-sdk-go-v2/service/ssm.Client).GetParameter"]
  ∧ possibleFunctionNames ToLowerASCII
      ("SSM" +:+ "." +:+ "GetParameter" +:+ "." +:+ "v2")
    = possibleFunctionNames ToLowerASCII ("SSM" +:+ "." +:+ "GetParameter").
Proof.
  assert ("."%char ∉ bytes "SSM") as Hs by compute_done.
  assert ("."%char ∉ bytes "GetParameter") as Hm by compute_done.
  split; [exact Hs|]. split; [exact Hm|].
  destruct (proj2 (possibleFunctionNames_names ToLowerASCII "") "SSM" "GetParameter"
              Hs Hm) as [H1 H2].
  split; [exact H1|exact (H2 "v2")].
Defined.

Lemma letters_no_colon s : letters s = true → ":"%char ∉ bytes s.
Proof.
  unfold letters. intros [_ H]%andb_true_iff Hin.
  rewrite forallb_forall in H. apply list_elem_of_In, H in Hin. done.
Qed.

(** X10: the -why value is accepted exactly when it is one or more ASCII
    letters, a colon, and one or more ASCII letters; so a value holding any
    other byte, such as the digit of s3 or ec2, is refused. *)
Theorem whyFormat_accepts (s : string) :
  (whyFormat s = true ↔
     ∃ service method, s = service +:+ ":" +:+ method
       ∧ letters service = true ∧ letters method = true)
  ∧ (∀ c, c ∈ bytes s → is_letter c = false → c ≠ ":"%char → whyFormat s = false).
Proof.
  assert (whyFormat s = true ↔
     ∃ service method, s = service +:+ ":" +:+ method
       ∧ letters service = true ∧ letters method = true) as Hiff.
  { unfold whyFormat. split.
    - destruct (Split s ":") as [|x [|y [|z rest]]] eqn:Hs; try done.
      intros [Hx Hy]%andb_true_iff. apply Split_two_inv in Hs as (-> & _ & _).
      by exists x, y.
    - intros (service & method & -> & Hs & Hm).
      change (service +:+ ":" +:+ method) with (service +:+ String ":" method).
      rewrite Split_app, Split_no_sep by by apply letters_no_colon.
      by rewrite Hs, Hm. }
  split; [exact Hiff|].
  intros c Hin Hnl Hnc. destruct (whyFormat s) eqn:Hw; [|done].
  destruct (proj1 Hiff eq_refl) as (service & method & -> & Hs & Hm).
  change (service +:+ ":" +:+ method) with (service +:+ String ":" method) in Hin.
  rewrite bytes_app, bytes_cons in Hin.
  unfold letters in Hs, Hm.
  apply andb_true_iff in Hs as [_ Hs], Hm as [_ Hm].
  rewrite forallb_forall in Hs, Hm.
  apply elem_of_app in Hin as [Hin|[->|Hin]%elem_of_cons]; [|done|].
  - apply list_elem_of_In, Hs in Hin. congruence.
  - apply list_elem_of_In, Hm in Hin. congruence.
Qed.

Lemma whyFormat_accepts_witness :
  "3"%char ∈ bytes "s3:GetObject" ∧ is_letter "3" = false ∧ "3"%char ≠ ":"%char
  ∧ whyFormat "s3:GetObject" = false.
Proof.
  assert ("3"%char ∈ bytes "s3:GetObject") as Hin by compute_done.
  assert (is_letter "3" = false) as Hl by reflexivity.
  assert ("3"%char ≠ ":"%char) as Hc by done.
  split; [exact Hin|]. split; [exact Hl|]. split; [exact Hc|].
  exact (proj2 (whyFormat_accepts "s3:GetObject") "3"%char Hin Hl Hc).
Defined.

Lemma filter_all {A} (P : A → Prop) `{!∀ x, Decision (P x)} (l : list A) :
  (∀ x, x ∈ l → P x) → filter P l = l.
Proof.
  induction l as [|x l IH]; intros Hall; [done|].
  rewrite filter_cons_True by (apply Hall; by left).
  f_equal. apply IH. intros y ?. apply Hall. by right.
Qed.

(** X11: [cleanName] removes every parenthesis and star of the function's
    name and nothing else, keeping the order of the other bytes; a name
    without them is unchanged, and the name of a method on a pointer
    receiver (receiver between a parenthesis with a star and a parenthesis,
    then a dot and the method) becomes [receiver.method]. *)
Theorem cleanName_removes (prog : Program) (fn : Fn) :
  (∀ c, c ∈ bytes (cleanName prog fn) ↔
        c ∈ bytes (FullName prog fn)
        ∧ c ≠ "("%char ∧ c ≠ ")"%char ∧ c ≠ "*"%char)
  ∧ bytes (cleanName prog fn) `sublist_of` bytes (FullName prog fn)
  ∧ ((∀ c, c ∈ bytes (FullName prog fn) →
        c ≠ "("%char ∧ c ≠ ")"%char ∧ c ≠ "*"%char) →
     cleanName prog fn = FullName prog fn)
  ∧ (∀ recv method,
       (∀ c, c ∈ bytes recv → c ≠ "("%char ∧ c ≠ ")"%char ∧ c ≠ "*"%char) →
       (∀ c, c ∈ bytes method → c ≠ "("%char ∧ c ≠ ")"%char ∧ c ≠ "*"%char) →
       FullName prog fn = "(*" +:+ recv +:+ ")." +:+ method →
       cleanName prog fn = recv +:+ "." +:+ method).
Proof.
  unfold cleanName. split; [|split; [|split]].
  - intros c. rewrite bytes_of_list, list_elem_of_filter. tauto.
  - rewrite bytes_of_list. apply sublist_filter.
  - intros H. apply bytes_inj. rewrite bytes_of_list. by apply filter_all.
  - intros recv method Hr Hm ->. apply bytes_inj.
    rewrite bytes_of_list, !bytes_app, !filter_app.
    rewrite (filter_all _ (bytes recv) Hr), (filter_all _ (bytes method) Hm).
    reflexivity.
Qed.

Lemma cleanName_removes_witness :
  (∀ c, c ∈ bytes "github.com/aws/aws-sdk-go-v2/service/ssm.Client" →
        c ≠ "("%char ∧ c ≠ ")"%char ∧ c ≠ "*"%char)
  ∧ (∀ c, c ∈ bytes "GetParameter" →
          c ≠ "("%char ∧ c ≠ ")"%char ∧ c ≠ "*"%char)
  ∧ FullName demoProgram 3
    = "(*" +:+ "github.com/aws/aws-sdk-go-v2/service/ssm.Client" +:+ ")."
      +:+ "GetParameter"
  ∧ cleanName demoProgram 3
    = "github.com/aws/aws-sdk-go-v2/service/ssm.Client" +:+ "." +:+ "GetParameter".
Proof.
  assert (∀ c, c ∈ bytes "github.com/aws/aws-sdk-go-v2/service/ssm.Client" →
        c ≠ "("%char ∧ c ≠ ")"%char ∧ c ≠ "*"%char) as Hr.
  { apply (proj1 (Forall_forall _ _)). compute_done. }
  assert (∀ c, c ∈ bytes "GetParameter" →
          c ≠ "("%char ∧ c ≠ ")"%char ∧ c ≠ "*"%char) as Hm.
  { apply (proj1 (Forall_forall _ _)). compute_done. }
  split; [exact Hr|]. split; [exact Hm|]. split; [reflexivity|].
  exact (proj2 (proj2 (proj2 (cleanName_removes demoProgram 3))) _ _ Hr Hm eq_refl).
Defined.

Lemma printStep_later g i e : printStep g (S i) e = printStep g 1 e.
Proof. done. Qed.

Lemma printPath_cons g e p :
  printPath g (e :: p)
  = ("    " +:+ cleanName (program g) (Caller e))
      :: concat (printStep g 1 <$> (e :: p)).
Proof.
  assert (imap (printStep g ∘ S) p = printStep g 1 <$> p) as Himap.
  { rewrite <- (imap_const (printStep g 1) p). apply imap_ext.
    intros i x _. apply printStep_later. }
  unfold printPath. rewrite imap_cons, Himap. reflexivity.
Qed.

Lemma printPath_length g e p :
  length (printPath g (e :: p)) = 1 + 3 * length (e :: p).
Proof.
  rewrite printPath_cons.
  assert (∀ l : list Edge, length (concat (printStep g 1 <$> l)) = 3 * length l)
    as Hlen.
  { induction l as [|x l IH]; [done|].
    rewrite fmap_cons. cbn [concat]. rewrite length_app, IH. simpl. lia. }
  cbn [length]. rewrite Hlen. simpl. lia.
Qed.

(** X12: for a path of n > 0 edges [printPath] writes 1 + 3n lines: the
    cleaned name of the caller of the first edge, then for every edge the
    same three lines wherever the edge stands in the path. *)
Theorem printPath_lines (g : graph) (e : Edge) (p : list Edge) :
  printPath g (e :: p)
  = ("    " +:+ cleanName (program g) (Caller e))
      :: concat (printStep g 1 <$> (e :: p))
  ∧ length (printPath g (e :: p)) = 1 + 3 * length (e :: p).
Proof. split; [apply printPath_cons|apply printPath_length]. Qed.

(** X13: the tests of [isAWSSDKv1Call] for the suffixes new and Set never
    change its answer: a name that ends in Request ends in neither, so
    the function is the conjunction of the package prefix, the file suffix
    and the suffix Request alone. *)
Theorem isAWSSDKv1Call_suffix_tests (prog : Program) (fn : Fn) :
  isAWSSDKv1Call prog fn
  = HasPrefix (PkgPath prog fn) "github.com/aws/aws-sdk-go/service/"
    && HasSuffix (Filename (Pos prog fn)) "/api.go"
    && HasSuffix (Name prog fn) "Request".
Proof.
  unfold isAWSSDKv1Call.
  destruct (HasSuffix (Name prog fn) "Request") eqn:H; [|by rewrite !andb_false_r].
  by destruct (Request_not_new_or_Set _ H) as [-> ->].
Qed.

(** ** More on the explanation *)

Lemma findFunc_Some g fnName fn :
  findFunc g fnName = Some fn →
  fn ∈ (reachable g).*1 ∧ Synthetic (program g) fn = ""
  ∧ Object (program g) fn = true ∧ FullName (program g) fn = fnName.
Proof.
  unfold findFunc. destruct (List.find _ _) as [r|] eqn:H; [|done].
  intros [= <-]. apply find_some in H as [Hin HP].
  rewrite !andb_true_iff, !bool_decide_eq_true in HP.
  destruct HP as [[? ?] ?]. split; [|done].
  apply list_elem_of_fmap. exists r. split; [done|]. by apply list_elem_of_In.
Qed.

Lemma findFunc_frame g g' fnName :
  program g' = program g → reachable g' = reachable g →
  findFunc g' fnName = findFunc g fnName.
Proof. unfold findFunc. by intros -> ->. Qed.

Section explanation.

Context (DeleteSyntheticNodes : Callgraph → Callgraph) (ToLower : string → string).

Lemma whyReachable_inv g fnName g' r :
  whyReachable DeleteSyntheticNodes g fnName = Return (g', r) →
  program g' = program g ∧ roots g' = roots g ∧ reachable g' = reachable g
  ∧ ∀ p, r = Some p →
      ∃ fn, findFunc g fnName = Some fn
        ∧ findPath (callgraph g') (roots g) fn = Return (Some p).
Proof.
  unfold whyReachable. destruct (findFunc g fnName) as [fn|].
  - simpl. intros (path & Hp & [= <- <-])%obind_Return. simpl.
    do 3 (split; [done|]). intros p ->. eauto.
  - intros [= <- <-]. by do 3 (split; [done|]).
Qed.

Lemma whyNames_inv fnNames : ∀ g g' r,
  whyNames DeleteSyntheticNodes g fnNames = Return (g', r) →
  program g' = program g ∧ roots g' = roots g ∧ reachable g' = reachable g
  ∧ ∀ p, r = Some p →
      ∃ fnName fn, fnName ∈ fnNames ∧ findFunc g fnName = Some fn
        ∧ findPath (callgraph g') (roots g) fn = Return (Some p).
Proof.
  induction fnNames as [|fnName fnNames IH]; intros g g' r; simpl.
  - intros [= <- <-]. by do 3 (split; [done|]).
  - intros ([g1 r1] & H1 & Hk)%obind_Return. simpl in Hk.
    apply whyReachable_inv in H1 as (Hp1 & Hr1 & Hre1 & Hfound1).
    destruct r1 as [path|].
    + injection Hk as <- <-. do 3 (split; [done|]). intros p Hp.
      destruct (Hfound1 p Hp) as (fn & ? & ?). exists fnName, fn.
      split; [by left|done].
    + apply IH in Hk as (Hp2 & Hr2 & Hre2 & Hfound2).
      split; [congruence|]. split; [congruence|]. split; [congruence|].
      intros p Hp. destruct (Hfound2 p Hp) as (name & fn & Hin & Hf & Hpath).
      exists name, fn. split; [by right|].
      rewrite (findFunc_frame g g1) in Hf by done. by rewrite Hr1 in Hpath.
Qed.

Lemma whyMethods_inv sdkMethods : ∀ g g' r,
  whyMethods DeleteSyntheticNodes ToLower g sdkMethods = Return (g', r) →
  program g' = program g ∧ roots g' = roots g ∧ reachable g' = reachable g
  ∧ ∀ p, r = Some p →
      ∃ method fnNames fnName fn,
        method ∈ sdkMethods
        ∧ possibleFunctionNames ToLower method = Return fnNames
        ∧ fnName ∈ fnNames ∧ findFunc g fnName = Some fn
        ∧ findPath (callgraph g') (roots g) fn = Return (Some p).
Proof.
  induction sdkMethods as [|method sdkMethods IH]; intros g g' r; simpl.
  - intros [= <- <-]. by do 3 (split; [done|]).
  - intros (fnNames & Hnames & ([g1 r1] & H1 & Hk)%obind_Return)%obind_Return.
    simpl in Hk. apply whyNames_inv in H1 as (Hp1 & Hr1 & Hre1 & Hfound1).
    destruct r1 as [path|].
    + injection Hk as <- <-. do 3 (split; [done|]). intros p Hp.
      destruct (Hfound1 p Hp) as (name & fn & ? & ? & ?).
      exists method, fnNames, name, fn. split; [by left|done].
    + apply IH in Hk as (Hp2 & Hr2 & Hre2 & Hfound2).
      split; [congruence|]. split; [congruence|]. split; [congruence|].
      intros p Hp.
      destruct (Hfound2 p Hp) as (m & names & name & fn & Hin & Hn & Hname & Hf & Hpath).
      exists m, names, name, fn. split; [by right|]. split; [done|]. split; [done|].
      rewrite (findFunc_frame g g1) in Hf by done. by rewrite Hr1 in Hpath.
Qed.

End explanation.

(** X14: the explanation is sound. Whatever [whyMethods] returns, it leaves
    the program, the roots and the reachable map of the graph as they were
    (only the call graph changes); and a path it returns explains one of the
    given SDK methods: it leads to a reachable function that is not
    synthetic, comes from source and bears one of the names
    [possibleFunctionNames] builds for that method, it is the path that
    [findPath] finds in the call graph as it is in the end, and when that
    graph is well-formed it is a chain of its edges from one of the roots to
    that function. *)
Theorem whyMethods_sound
    (DeleteSyntheticNodes : Callgraph → Callgraph) (ToLower : string → string)
    (g g' : graph) (sdkMethods : list string) (r : option (list Edge)) :
  whyMethods DeleteSyntheticNodes ToLower g sdkMethods = Return (g', r) →
  program g' = program g ∧ roots g' = roots g ∧ reachable g' = reachable g
  ∧ ∀ p, r = Some p →
      ∃ method fnNames fn,
        method ∈ sdkMethods
        ∧ possibleFunctionNames ToLower method = Return fnNames
        ∧ FullName (program g) fn ∈ fnNames
        ∧ fn ∈ (reachable g).*1
        ∧ Synthetic (program g) fn = "" ∧ Object (program g) fn = true
        ∧ findPath (callgraph g') (roots g) fn = Return (Some p)
        ∧ (wf_callgraph (callgraph g') →
           ∃ root, root ∈ roots g ∧ is_path (callgraph g') root fn p).
Proof.
  intros (Hp & Hr & Hre & Hfound)%whyMethods_inv.
  do 3 (split; [done|]). intros p Hsome.
  destruct (Hfound p Hsome) as (method & fnNames & fnName & fn & Hin & Hn & Hname & Hf & Hpath).
  apply findFunc_Some in Hf as (Hreach & Hsyn & Hobj & <-).
  exists method, fnNames, fn. do 6 (split; [done|]). split; [done|].
  intros Hwf.
  destruct (findPath_found _ _ _ _ Hwf Hpath) as (root & ? & _ & _ & ? & _).
  eauto.
Qed.

Lemma whyMethods_sound_witness :
  whyMethods keepAll ToLowerASCII (graphOf demoLoaded)
    ["SSM.GetParameters"; "SSM.GetParameter"]
  = Return (graphOf demoLoaded, Some [callAt 1 14 4])
  ∧ wf_callgraph (callgraph (graphOf demoLoaded))
  ∧ ∃ method fnNames fn,
        method ∈ ["SSM.GetParameters"; "SSM.GetParameter"]
        ∧ possibleFunctionNames ToLowerASCII method = Return fnNames
        ∧ FullName (program (graphOf demoLoaded)) fn ∈ fnNames
        ∧ fn ∈ (reachable (graphOf demoLoaded)).*1
        ∧ Synthetic (program (graphOf demoLoaded)) fn = ""
        ∧ Object (program (graphOf demoLoaded)) fn = true
        ∧ findPath (callgraph (graphOf demoLoaded)) (roots (graphOf demoLoaded)) fn
          = Return (Some [callAt 1 14 4])
        ∧ (wf_callgraph (callgraph (graphOf demoLoaded)) →
           ∃ root, root ∈ roots (graphOf demoLoaded)
             ∧ is_path (callgraph (graphOf demoLoaded)) root fn [callAt 1 14 4]).
Proof.
  assert (whyMethods keepAll ToLowerASCII (graphOf demoLoaded)
    ["SSM.GetParameters"; "SSM.GetParameter"]
  = Return (graphOf demoLoaded, Some [callAt 1 14 4])) as H
    by (vm_compute; reflexivity).
  split; [exact H|]. split; [compute_done|].
  exact (proj2 (proj2 (proj2 (whyMethods_sound keepAll ToLowerASCII _ _ _ _ H)))
           _ eq_refl).
Defined.

Section explanation_graph.

Context (DeleteSyntheticNodes : Callgraph → Callgraph) (ToLower : string → string).
Hypothesis DeleteSyntheticNodes_wf :
  ∀ cg, wf_callgraph cg → wf_callgraph (DeleteSyntheticNodes cg).

Lemma whyReachable_wf g fnName g' r :
  wf_callgraph (callgraph g) →
  whyReachable DeleteSyntheticNodes g fnName = Return (g', r) →
  wf_callgraph (callgraph g').
Proof.
  intros Hwf. unfold whyReachable. destruct (findFunc g fnName) as [fn|].
  - simpl. intros (path & _ & [= <- _])%obind_Return. simpl. auto.
  - by intros [= <- _].
Qed.

Lemma whyNames_wf fnNames : ∀ g g' r,
  wf_callgraph (callgraph g) →
  whyNames DeleteSyntheticNodes g fnNames = Return (g', r) →
  wf_callgraph (callgraph g').
Proof.
  induction fnNames as [|fnName fnNames IH]; intros g g' r Hwf; simpl.
  - by intros [= <- _].
  - intros ([g1 r1] & H1 & Hk)%obind_Return. simpl in Hk.
    apply whyReachable_wf in H1; [|done].
    destruct r1; [by injection Hk as <- _|]. by apply IH in Hk.
Qed.

Lemma whyMethods_wf sdkMethods : ∀ g g' r,
  wf_callgraph (callgraph g) →
  whyMethods DeleteSyntheticNodes ToLower g sdkMethods = Return (g', r) →
  wf_callgraph (callgraph g').
Proof.
  induction sdkMethods as [|method sdkMethods IH]; intros g g' r Hwf; simpl.
  - by intros [= <- _].
  - intros (fnNames & _ & ([g1 r1] & H1 & Hk)%obind_Return)%obind_Return.
    simpl in Hk. apply whyNames_wf in H1; [|done].
    destruct r1; [by injection Hk as <- _|]. by apply IH in Hk.
Qed.

End explanation_graph.

Lemma main_why_Exit0
    (DeleteSyntheticNodes : Callgraph → Callgraph) (ToLower : string → string)
    (EqualFold : string → string → bool) (w : World)
    (test : bool) (tags : string) (reflection sdkcalls : bool) (why : string)
    (out : list string) :
  why ≠ "" →
  main DeleteSyntheticNodes ToLower EqualFold
       (mkFlags test tags reflection sdkcalls why) w = Exit0 out →
  ∃ sdkMethods g' p,
    whyMethods DeleteSyntheticNodes ToLower (graphOf (packages w test tags))
      sdkMethods = Return (g', Some p)
    ∧ out = printPath g' p.
Proof.
  intros Hwhy. unfold main, analyze, loadMap.
  cbn [args whyFlag testFlag tagsFlag sdkcallsFlag reflectionFlag].
  destruct (decide (length (args w) = 0)); [done|].
  rewrite (bool_decide_eq_false_2 _ Hwhy). cbn [negb andb].
  destruct (negb (whyFormat why)); [done|].
  destruct (loadErr _); [done|].
  destruct (decide (initial _ = 0)); [done|].
  destruct (decide (0 < printErrors _)); [done|].
  destruct (decide (length (mains _) = 0)); [done|].
  fold (graphOf (packages w test tags)).
  assert (∀ iamMap,
    whyMode DeleteSyntheticNodes ToLower EqualFold (graphOf (packages w test tags))
      iamMap why = Exit0 out →
    ∃ sdkMethods g' p,
      whyMethods DeleteSyntheticNodes ToLower (graphOf (packages w test tags))
        sdkMethods = Return (g', Some p)
      ∧ out = printPath g' p) as Hmode.
  { intros iamMap. unfold whyMode. destruct (decide _); [done|].
    destruct (whyMethods _ _ _ _) as [[g' [p|]]| |] eqn:Hm; cbn [exitOf snd fst];
      [|done..].
    intros [= <-]. eauto. }
  destruct sdkcalls; cbn [negb]; [apply Hmode|].
  destruct (mapJSON w); [done|apply Hmode].
Qed.

(** X15: what a successful -why run prints, when the call graph is
    well-formed and [DeleteSyntheticNodes] keeps it so: nothing, or 1 + 3n
    lines (n > 0) of which the first is the cleaned name of one of the roots,
    the init or main function of a main package. *)
Theorem explanation_starts_at_root
    (DeleteSyntheticNodes : Callgraph → Callgraph) (ToLower : string → string)
    (EqualFold : string → string → bool) (w : World)
    (test : bool) (tags : string) (reflection sdkcalls : bool) (why : string)
    (out : list string) :
  (∀ cg, wf_callgraph cg → wf_callgraph (DeleteSyntheticNodes cg)) →
  wf_callgraph (rtaCallGraph (packages w test tags)) →
  why ≠ "" →
  main DeleteSyntheticNodes ToLower EqualFold
       (mkFlags test tags reflection sdkcalls why) w = Exit0 out →
  out = []
  ∨ ∃ main root n,
      main ∈ mains (packages w test tags) ∧ (root = main.1 ∨ root = main.2)
      ∧ head out = Some ("    " +:+ cleanName (prog (packages w test tags)) root)
      ∧ 0 < n ∧ length out = 1 + 3 * n.
Proof.
  intros Hdsn Hwf Hwhy Hmain.
  destruct (main_why_Exit0 _ _ _ _ _ _ _ _ _ _ Hwhy Hmain)
    as (sdkMethods & g' & p & Hm & ->).
  pose proof (whyMethods_wf _ ToLower Hdsn sdkMethods
                (graphOf (packages w test tags)) g' (Some p) Hwf Hm) as Hwf'.
  destruct (whyMethods_inv _ _ _ _ _ _ Hm) as (Hprog & Hroots & _ & Hfound).
  destruct (Hfound p eq_refl) as (_ & _ & _ & fn & _ & _ & _ & _ & Hpath).
  destruct p as [|e p]; [by left|]. right.
  destruct (findPath_found _ _ _ _ Hwf' Hpath) as (root & Hroot & _ & _ & Hp & _).
  simpl in Hroot. apply list_elem_of_In, in_flat_map in Hroot as (main & Hin & Hr).
  exists main, root, (length (e :: p)).
  split; [by apply list_elem_of_In|].
  split; [simpl in Hr; destruct Hr as [<-|[<-|[]]]; auto|].
  destruct Hp as (Hc & _). rewrite printPath_cons, Hc, Hprog.
  split; [done|]. split; [simpl; lia|].
  rewrite <- (printPath_length g' e p). by rewrite printPath_cons, Hc.
Qed.

Lemma explanation_starts_at_root_witness :
  (∀ cg, wf_callgraph cg → wf_callgraph (keepAll cg))
  ∧ wf_callgraph (rtaCallGraph (packages (demoWorld ssmMap) false ""))
  ∧ "ssm:GetParameters" ≠ ""
  ∧ main keepAll ToLowerASCII EqualFoldASCII
         (mkFlags false "" false false "ssm:GetParameters") (demoWorld ssmMap)
    = Exit0 ["    example.com/app.main";
             "    At line 14 a static method call to GetParameters";
             "--> github.com/aws/aws-sdk-go-v2/service/ssm.Client.GetParameters";
             "    Defined at /go/pkg/mod/github.com/aws/aws-sdk-go-v2/service/ssm@v1.44.0/api_op_GetParameters.go:40:18"]
  ∧ ∃ main root n,
      main ∈ mains (packages (demoWorld ssmMap) false "")
      ∧ (root = main.1 ∨ root = main.2)
      ∧ Some "    example.com/app.main"
        = Some ("    " +:+ cleanName (prog (packages (demoWorld ssmMap) false "")) root)
      ∧ 0 < n ∧ 4 = 1 + 3 * n.
Proof.
  assert (∀ cg, wf_callgraph cg → wf_callgraph (keepAll cg)) as Hk by done.
  assert (wf_callgraph (rtaCallGraph (packages (demoWorld ssmMap) false ""))) as Hwf
    by compute_done.
  assert ("ssm:GetParameters" ≠ "") as Hne by done.
  assert (main keepAll ToLowerASCII EqualFoldASCII
         (mkFlags false "" false false "ssm:GetParameters") (demoWorld ssmMap)
    = Exit0 ["    example.com/app.main";
             "    At line 14 a static method call to GetParameters";
             "--> github.com/aws/aws-sdk-go-v2/service/ssm.Client.GetParameters";
             "    Defined at /go/pkg/mod/github.com/aws/aws-sdk-go-v2/service/ssm@v1.44.0/api_op_GetParameters.go:40:18"])
    as Hmain by (vm_compute; reflexivity).
  split; [exact Hk|]. split; [exact Hwf|]. split; [exact Hne|]. split; [exact Hmain|].
  destruct (explanation_starts_at_root keepAll ToLowerASCII EqualFoldASCII
              (demoWorld ssmMap) false "" false false "ssm:GetParameters" _
              Hk Hwf Hne Hmain) as [Hnil|H]; [discriminate Hnil|exact H].
Defined.
